(** * web-recorder: the WAV export worker and the recording session

    A shallow embedding of [src/workers/recorder.worker.ts] (module [Worker])
    and of the [Recorder] class of [src/recorder.ts] (module [Rec]), over a
    small model of the JavaScript values they compute with (module [JS]),
    followed by the properties proved of them.

    Numbers.  A JavaScript number is a rational, one of the two infinities,
    or NaN; zero carries no sign.  Where the result of an operation can fall
    between two numbers of the machine it is rounded as the machine rounds
    it, to the nearest binary64 with a tie going to the even one ([JS.double]):
    the quotients, products and sums of [downsampleBuffer] and the difference
    of two times in [isQuiet]; and a number stored in a [Float32Array] is
    rounded to binary32 ([JS.fround]).  The other operations are exact on
    the machine for the values they get and are written without rounding:
    sums and products of integers (lengths, offsets, the fields of the
    header), and the two products of the PCM conversion, [s * 0x8000] and
    [s * 0x7fff], for a binary32 sample [s].  Sample rates, times and
    thresholds are finite numbers.

    Calls.  A call returns a value or throws ([JS.completion]).  A function
    of the worker runs on the worker's module-level variables
    ([Worker.globals]) and hands them back; a method of the session takes the
    [Recorder] and returns the new one.  What a method reads from its audio
    context, and what an event carries, are arguments.  What the session does
    to the outside is kept in two logs of the [Recorder]: the calls made on
    the worker and the events dispatched.

    Messages.  Module [System] puts the two together: the worker's
    [onmessage] runs on the messages the session has posted, in their order,
    and what it posts back is kept.  A worker that is terminated receives
    nothing more.

    Loops.  A [for] loop over an array or a string is a recursion on it; the
    [while] loops of [interleave] and [downsampleBuffer] are recursions on
    the distance left to their bound, with the test of the source. *)

From Stdlib Require Import ZArith QArith Qround Qpower String Ascii Lia Lqa.
From stdpp Require Import base list.
From Equations Require Import Equations.

(* ===================================================================== *)
(** * JavaScript values *)
(* ===================================================================== *)

Module JS.

Inductive number : Type :=
| Num (q : Q)
| PosInfinity
| NegInfinity
| NaN.

(** An integer as a number. *)
Definition int (z : Z) : number := Num (inject_Z z).

(** [a < b].  Every comparison with NaN is false. *)
Definition lt (a b : number) : bool :=
  match a, b with
  | Num x, Num y => negb (Qle_bool y x)
  | Num _, PosInfinity => true
  | NegInfinity, Num _ => true
  | NegInfinity, PosInfinity => true
  | _, _ => false
  end.

(** [a >= b]. *)
Definition ge (a b : number) : bool :=
  match a, b with
  | Num x, Num y => Qle_bool y x
  | PosInfinity, Num _ => true
  | PosInfinity, PosInfinity => true
  | PosInfinity, NegInfinity => true
  | Num _, NegInfinity => true
  | NegInfinity, NegInfinity => true
  | _, _ => false
  end.

(** The sign of a rational, as [Qnum] has it. *)
Definition sign (q : Q) : comparison := (Qnum q ?= 0)%Z.

(** [a + b]. *)
Definition add (a b : number) : number :=
  match a, b with
  | NaN, _ | _, NaN => NaN
  | Num x, Num y => Num (x + y)
  | PosInfinity, NegInfinity | NegInfinity, PosInfinity => NaN
  | PosInfinity, _ | _, PosInfinity => PosInfinity
  | NegInfinity, _ | _, NegInfinity => NegInfinity
  end.

(** An infinity times (or divided by) a finite number of sign [s]. *)
Definition scale_infinity (positive : bool) (s : comparison) : number :=
  match s with
  | Eq => NaN
  | Gt => if positive then PosInfinity else NegInfinity
  | Lt => if positive then NegInfinity else PosInfinity
  end.

(** [a * b]. *)
Definition mul (a b : number) : number :=
  match a, b with
  | NaN, _ | _, NaN => NaN
  | Num x, Num y => Num (x * y)
  | PosInfinity, Num y => scale_infinity true (sign y)
  | NegInfinity, Num y => scale_infinity false (sign y)
  | Num x, PosInfinity => scale_infinity true (sign x)
  | Num x, NegInfinity => scale_infinity false (sign x)
  | PosInfinity, PosInfinity | NegInfinity, NegInfinity => PosInfinity
  | PosInfinity, NegInfinity | NegInfinity, PosInfinity => NegInfinity
  end.

(** [a / b].  A finite number over zero is an infinity of its sign, and
    [0 / 0] is NaN. *)
Definition div (a b : number) : number :=
  match a, b with
  | NaN, _ | _, NaN => NaN
  | Num x, Num y =>
      match sign y with
      | Eq => match sign x with
              | Eq => NaN
              | Gt => PosInfinity
              | Lt => NegInfinity
              end
      | _ => Num (x / y)
      end
  | Num _, _ => Num 0
  | PosInfinity, Num y =>
      match sign y with Lt => NegInfinity | _ => PosInfinity end
  | NegInfinity, Num y =>
      match sign y with Lt => PosInfinity | _ => NegInfinity end
  | _, _ => NaN
  end.

(** [Math.min(a, b)] and [Math.max(a, b)]: NaN when either argument is. *)
Definition Math_min (a b : number) : number :=
  match a, b with
  | NaN, _ | _, NaN => NaN
  | _, _ => if lt a b then a else b
  end.

Definition Math_max (a b : number) : number :=
  match a, b with
  | NaN, _ | _, NaN => NaN
  | _, _ => if lt a b then b else a
  end.

(** [Math.max(...xs)]: -Infinity for no argument. *)
Definition Math_max_spread (xs : list number) : number :=
  foldl Math_max NegInfinity xs.

(** [Math.round] on a finite number: the integer nearest to it, a tie going
    up, that is [floor (q + 1/2)]. *)
Definition round (q : Q) : Z := Qfloor (q + (1 # 2)).

Definition Math_round (a : number) : number :=
  match a with
  | Num q => int (round q)
  | _ => a
  end.

(** ** Rounding to the numbers of the machine *)

(** The exponent of a positive rational: the [e] with [2^e <= q < 2^(e+1)]. *)
Definition floor_log2 (q : Q) : Z :=
  let e := (Z.log2 (Qnum q) - Z.log2 (Z.pos (Qden q)))%Z in
  if Qle_bool (2 ^ e) q then e else (e - 1)%Z.

(** The integer nearest to a rational, a tie going to the even one. *)
Definition round_half_even (q : Q) : Z :=
  let f := Qfloor q in
  match (q - inject_Z f ?= 1 # 2)%Q with
  | Lt => f
  | Gt => (f + 1)%Z
  | Eq => if Z.even f then f else (f + 1)%Z
  end.

(** A positive rational rounded to the nearest number of a binary format
    with [prec] bits of precision and exponents from [emin] to [emax]: to
    the nearest multiple of the unit in the last place of its binade (of
    the smallest binade, for a subnormal), and to [Infinity] when that
    reaches [2^(emax+1)].  The result is a fraction in lowest terms. *)
Definition nearest (prec emin : Z) (q : Q) : Q :=
  let e := floor_log2 q in
  let ulp := (2 ^ (Z.max e emin - (prec - 1)))%Q in
  (inject_Z (round_half_even (q / ulp)) * ulp)%Q.

Definition round_positive (prec emin emax : Z) (q : Q) : number :=
  let v := nearest prec emin q in
  if Qle_bool (2 ^ (emax + 1)) v then PosInfinity else Num (Qred v).

Definition round_to (prec emin emax : Z) (q : Q) : number :=
  match sign q with
  | Eq => Num 0
  | Gt => round_positive prec emin emax q
  | Lt => match round_positive prec emin emax (- q) with
          | Num v => Num (Qred (- v))
          | _ => NegInfinity
          end
  end.

(** The binary64 and the binary32 number nearest to a rational. *)
Definition double (q : Q) : number := round_to 53 (-1022) 1023 q.
Definition fround (q : Q) : number := round_to 24 (-126) 127 q.

(** A result rounded by [r] when it is finite. *)
Definition rounded (r : Q -> number) (a : number) : number :=
  match a with
  | Num q => r q
  | _ => a
  end.

(** [a + b], [a * b] and [a / b] as the machine computes them. *)
Definition add64 (a b : number) : number := rounded double (add a b).
Definition mul64 (a b : number) : number := rounded double (mul a b).
Definition div64 (a b : number) : number := rounded double (div a b).

(** A rational that is a binary64 number: rounding keeps its value. *)
Definition is_double (q : Q) : Prop :=
  exists v, double q = Num v /\ (v == q)%Q.

(** [a > b]. *)
Definition gt (a b : number) : bool := lt b a.

(** [a <= b] among the numbers that are not NaN. *)
Definition leq (a b : number) : Prop :=
  match a, b with
  | Num x, Num y => (x <= y)%Q
  | NegInfinity, (Num _ | PosInfinity | NegInfinity) => True
  | (Num _ | PosInfinity), PosInfinity => True
  | _, _ => False
  end.

(** The integer part of a finite number (rounding towards zero). *)
Definition trunc (q : Q) : Z := Z.quot (Qnum q) (Z.pos (Qden q)).

(** [ToUint32], [ToUint16], [ToUint8] and [ToInt16]: the integer part modulo
    [2^32], [2^16] or [2^8]; NaN and the infinities give 0. *)
Definition ToUint8 (a : number) : Z :=
  match a with
  | Num q => trunc q mod 2 ^ 8
  | _ => 0
  end%Z.

Definition ToUint32 (a : number) : Z :=
  match a with
  | Num q => trunc q mod 2 ^ 32
  | _ => 0
  end%Z.

Definition ToUint16 (a : number) : Z :=
  match a with
  | Num q => trunc q mod 2 ^ 16
  | _ => 0
  end%Z.

Definition ToInt16 (a : number) : Z :=
  let u := ToUint16 a in
  (if 2 ^ 15 <=? u then u - 2 ^ 16 else u)%Z.

(** [ToNumber] of the result of an indexed read: [undefined] gives NaN. *)
Definition ToNumber (v : option number) : number :=
  match v with
  | Some x => x
  | None => NaN
  end.

(** ** Completions: a call returns a value or throws *)

Inductive exception : Type :=
| Error (message : string)
| RangeError
| TypeError.

Inductive completion (A : Type) : Type :=
| Normal (a : A)
| Throw (e : exception).
Arguments Normal {A} a.
Arguments Throw {A} e.

Definition bind {A B : Type} (c : completion A) (k : A -> completion B)
  : completion B :=
  match c with
  | Normal a => k a
  | Throw e => Throw e
  end.

(** ** Typed arrays and data views *)

(** A [Float32Array]: its elements, in order. *)
Abbreviation Float32Array := (list number).

(** [new Float32Array(n)] for a length that is an integer already. *)
Definition Float32Array_new (n : nat) : Float32Array := replicate n (Num 0).

(** [new Float32Array(x)] for a number [x]: [ToIndex] takes the integer
    part, NaN counting as 0, and refuses a negative or infinite length. *)
Definition Float32Array_of_length (x : number) : completion Float32Array :=
  match x with
  | Num q => if (trunc q <? 0)%Z then Throw RangeError
             else Normal (Float32Array_new (Z.to_nat (trunc q)))
  | NaN => Normal (Float32Array_new 0)
  | _ => Throw RangeError
  end.

(** [a[i] = v] on a typed array: a store past the end is ignored, and
    [undefined] is stored as NaN. *)
Definition store (a : Float32Array) (i : nat) (v : option number)
  : Float32Array :=
  <[i := ToNumber v]> a.

(** [a[i] = x] on a [Float32Array], for a computed number [x]: the element
    is [x] rounded to binary32. *)
Definition store32 (a : Float32Array) (i : nat) (x : number) : Float32Array :=
  <[i := rounded fround x]> a.

(** A [DataView] over a fresh [ArrayBuffer]: its bytes, each in [0, 256). *)
Abbreviation DataView := (list Z).

Definition DataView_new (byteLength : nat) : DataView := replicate byteLength 0%Z.

(** Byte [k] of an integer (two's complement for a negative one). *)
Definition byte_of (k : nat) (v : Z) : Z :=
  Z.land (Z.shiftr v (8 * Z.of_nat k)) 255.

(** The setters: a write that does not fit in the view throws a
    [RangeError]; multi-byte values are written little-endian (the calls of
    this program all pass [true]). *)
Definition setUint8 (view : DataView) (byteOffset : nat) (value : number)
  : completion DataView :=
  if decide (byteOffset + 1 <= length view) then
    Normal (<[byteOffset := byte_of 0 (ToUint8 value)]> view)
  else Throw RangeError.

Definition setUint16 (view : DataView) (byteOffset : nat) (value : number)
  : completion DataView :=
  if decide (byteOffset + 2 <= length view) then
    let v := ToUint16 value in
    Normal (<[byteOffset + 1 := byte_of 1 v]> (<[byteOffset := byte_of 0 v]> view))
  else Throw RangeError.

Definition setInt16 (view : DataView) (byteOffset : nat) (value : number)
  : completion DataView :=
  if decide (byteOffset + 2 <= length view) then
    let v := ToInt16 value in
    Normal (<[byteOffset + 1 := byte_of 1 v]> (<[byteOffset := byte_of 0 v]> view))
  else Throw RangeError.

Definition setUint32 (view : DataView) (byteOffset : nat) (value : number)
  : completion DataView :=
  if decide (byteOffset + 4 <= length view) then
    let v := ToUint32 value in
    Normal (<[byteOffset + 3 := byte_of 3 v]>
           (<[byteOffset + 2 := byte_of 2 v]>
           (<[byteOffset + 1 := byte_of 1 v]>
           (<[byteOffset := byte_of 0 v]> view))))
  else Throw RangeError.

(** The getters, little-endian, used to parse a header back. *)
Definition getUint16 (view : DataView) (byteOffset : nat) : completion Z :=
  match view !! byteOffset, view !! (byteOffset + 1) with
  | Some b0, Some b1 => Normal (b0 + 256 * b1)%Z
  | _, _ => Throw RangeError
  end.

Definition getInt16 (view : DataView) (byteOffset : nat) : completion Z :=
  match getUint16 view byteOffset with
  | Normal u => Normal (if 32768 <=? u then u - 65536 else u)%Z
  | Throw e => Throw e
  end.

Definition getUint32 (view : DataView) (byteOffset : nat) : completion Z :=
  match view !! byteOffset, view !! (byteOffset + 1),
        view !! (byteOffset + 2), view !! (byteOffset + 3) with
  | Some b0, Some b1, Some b2, Some b3 =>
      Normal (b0 + 256 * b1 + 65536 * b2 + 16777216 * b3)%Z
  | _, _, _, _ => Throw RangeError
  end.

(** [str.charCodeAt(i)] for each [i]: the code units of an ASCII string. *)
Fixpoint charCodes (str : string) : list Z :=
  match str with
  | EmptyString => []
  | String c rest => Z.of_N (N_of_ascii c) :: charCodes rest
  end.

End JS.

Notation "'let*' x ':=' c 'in' k" := (JS.bind c (fun x => k))
  (at level 10, x name, c at level 100, k at level 200).

(* ===================================================================== *)
(** * The export worker: [src/workers/recorder.worker.ts] *)
(* ===================================================================== *)

Module IConfig.
Record t : Type := { sampleRate : Q; numChannels : Z }.
End IConfig.

Module Worker.
Import JS.

(** The worker's module-level variables.  A sample rate is a finite number;
    [numChannels] is an integer. *)
Record globals : Type := {
  recLength : nat;
  recBuffers : list (list Float32Array);
  sampleRate : Q;
  numChannels : Z
}.

(** A worker function: it runs on the globals, leaves them in a new state,
    and returns or throws. *)
Definition W (A : Type) : Type := globals -> globals * completion A.

(** [a[i] = v] on a plain array, for [i] not past its length (the loops
    below count [i] up from 0, so nothing else occurs): an element is
    replaced, and the element at [a.length] is appended. *)
Definition assign {A : Type} (a : list A) (i : nat) (v : A) : list A :=
  if decide (i < length a) then <[i := v]> a else a ++ [v].

(** [for (channel = 0; channel < numChannels; channel++) recBuffers[channel] = []] *)
Definition initBuffers : W unit := fun g =>
  ({| recLength := recLength g;
      recBuffers := foldl (fun bufs channel => assign bufs channel [])
                          (recBuffers g) (seq 0 (Z.to_nat (numChannels g)));
      sampleRate := sampleRate g;
      numChannels := numChannels g |}, Normal tt).

Definition init (config : IConfig.t) : W unit := fun g =>
  initBuffers {| recLength := recLength g;
                 recBuffers := recBuffers g;
                 sampleRate := IConfig.sampleRate config;
                 numChannels := IConfig.numChannels config |}.

Definition clear : W unit := fun g =>
  initBuffers {| recLength := 0;
                 recBuffers := [];
                 sampleRate := sampleRate g;
                 numChannels := numChannels g |}.

(** [interleave]: the loop runs while [index < length] ([len] here, the sum
    of the two lengths), writing two elements a turn.  A read past the end
    of a channel is [undefined]. *)
Equations interleave_loop (inputL inputR result : Float32Array)
    (len index inputIndex : nat) : Float32Array
    by wf (len - index) Peano.lt :=
  interleave_loop inputL inputR result len index inputIndex
    with decide (index < len) := {
    | left _ =>
        interleave_loop inputL inputR
          (store (store result index (inputL !! inputIndex))
                 (index + 1) (inputR !! inputIndex))
          len (index + 2) (inputIndex + 1);
    | right _ => result }.
Next Obligation. lia. Qed.

Definition interleave (inputL inputR : Float32Array) : completion Float32Array :=
  let len := length inputL + length inputR in
  let result := Float32Array_new len in
  Normal (interleave_loop inputL inputR result len 0 0).

(** [floatTo16BitPCM]: one sample a turn, [offset] advancing by 2. *)
Fixpoint floatTo16BitPCM (output : DataView) (offset : nat)
    (input : Float32Array) : completion DataView :=
  match input with
  | [] => Normal output
  | x :: input' =>
      let s := Math_max (int (-1)) (Math_min (int 1) x) in
      let* output :=
        setInt16 output offset
          (if lt s (int 0) then mul s (int 32768) else mul s (int 32767)) in
      floatTo16BitPCM output (offset + 2) input'
  end.

(** [writeString]: [str] is what is left of the string from index [i] on. *)
Fixpoint writeString_from (i : nat) (view : DataView) (offset : nat)
    (str : string) : completion DataView :=
  match str with
  | EmptyString => Normal view
  | String c str' =>
      let* view := setUint8 view (offset + i) (int (Z.of_N (N_of_ascii c))) in
      writeString_from (S i) view offset str'
  end.

Definition writeString (view : DataView) (offset : nat) (str : string)
  : completion DataView :=
  writeString_from 0 view offset str.

(** [buffer[i]] for an integer [i]: [undefined] outside the array. *)
Definition element (buffer : Float32Array) (i : Z) : option number :=
  if (i <? 0)%Z then None else buffer !! Z.to_nat i.

(** The inner loop of [downsampleBuffer], from the integer [i] on:
    [for (; i < nextOffsetBuffer && i < buffer.length; i++)
       { accum += buffer[i]; count++ }].
    The sum is rounded at every turn; [nextOffsetBuffer] is the result of
    [Math.round], an integer or an infinity. *)
Equations sum_block (buffer : Float32Array) (nextOffsetBuffer : number) (i : Z)
    (accum : number) (count : Z) : number * Z
    by wf (Z.to_nat (Z.of_nat (length buffer) - i)) Peano.lt :=
  sum_block buffer nextOffsetBuffer i accum count
    with decide (lt (int i) nextOffsetBuffer = true
                 /\ (i < Z.of_nat (length buffer))%Z) := {
    | left _ =>
        sum_block buffer nextOffsetBuffer (i + 1)
          (add64 accum (ToNumber (element buffer i))) (count + 1);
    | right _ => (accum, count) }.
Next Obligation. lia. Qed.

(** One output sample, [accum / count] over the block from [offsetBuffer]
    up to [nextOffsetBuffer].  [offsetBuffer] is 0 or an earlier
    [nextOffsetBuffer]: an integer or an infinity.  From [Infinity] the test
    [i < nextOffsetBuffer] fails at once, and the sample is [0 / 0].  From
    [-Infinity] it fails at once when [nextOffsetBuffer] is [-Infinity] too;
    otherwise the loop of the source would not end, which cannot be
    written here: lemma [loop_offsets_not_negative] shows that
    [downsampleBuffer] never comes to an offset of [-Infinity]. *)
Definition average_block (buffer : Float32Array)
    (offsetBuffer nextOffsetBuffer : number) : number :=
  let '(accum, count) :=
    match offsetBuffer with
    | Num q => sum_block buffer nextOffsetBuffer (trunc q) (int 0) 0
    | _ => (int 0, 0%Z)
    end in
  div64 accum (int count).

(** [Math.round((offsetResult + 1) * sampleRateRatio)], for [offsetResult + 1 = n]. *)
Definition boundary (sampleRateRatio : Q) (n : Z) : number :=
  Math_round (mul64 (int n) (Num sampleRateRatio)).

(** The outer loop of [downsampleBuffer], for a finite ratio:
    [while (offsetResult < result.length)] *)
Equations downsample_loop (buffer : Float32Array) (sampleRateRatio : Q)
    (result : Float32Array) (offsetResult : nat) (offsetBuffer : number)
    : Float32Array
    by wf (length result - offsetResult) Peano.lt :=
  downsample_loop buffer sampleRateRatio result offsetResult offsetBuffer
    with decide (offsetResult < length result) := {
    | left _ =>
        downsample_loop buffer sampleRateRatio
          (store32 result offsetResult
             (average_block buffer offsetBuffer
                (boundary sampleRateRatio (Z.of_nat offsetResult + 1))))
          (offsetResult + 1)
          (boundary sampleRateRatio (Z.of_nat offsetResult + 1));
    | right _ => result }.
Next Obligation. unfold store32. rewrite length_insert. lia. Qed.

Definition upsampling : string :=
  "downsampling rate show be smaller than original sample rate".

(** [downsampleBuffer].  The ratio [sampleRate / rate] is rounded, and so is
    the quotient [buffer.length / sampleRateRatio] before [Math.round].  The
    ratio is infinite when [rate] is 0 or the quotient overflows; the new
    length is then 0 and the loop does not run (lemma
    [infinite_ratio_no_turn]), so the loop is modelled for a finite ratio. *)
Definition downsampleBuffer (buffer : Float32Array) (rate : Q)
  : W Float32Array := fun g =>
  (g,
   if Qeq_bool rate (sampleRate g) then Normal buffer
   else if negb (Qle_bool rate (sampleRate g)) then Throw (Error upsampling)
   else
     let sampleRateRatio := div64 (Num (sampleRate g)) (Num rate) in
     let newLength :=
       Math_round (div64 (int (Z.of_nat (length buffer))) sampleRateRatio) in
     let* result := Float32Array_of_length newLength in
     match sampleRateRatio with
     | Num ratio => Normal (downsample_loop buffer ratio result 0 (int 0))
     | _ => Normal result
     end).

(** [encodeWAV]: a 44-byte header, then the samples as 16-bit PCM. *)
Definition encodeWAV (samples : Float32Array) (rate : Q) : W DataView := fun g =>
  (g,
   let view := DataView_new (44 + length samples * 2) in
   let* view := writeString view 0 "RIFF" in
   let* view := setUint32 view 4 (int (36 + Z.of_nat (length samples) * 2)) in
   let* view := writeString view 8 "WAVE" in
   let* view := writeString view 12 "fmt " in
   let* view := setUint32 view 16 (int 16) in
   let* view := setUint16 view 20 (int 1) in
   let* view := setUint16 view 22 (int (numChannels g)) in
   let* view := setUint32 view 24 (Num rate) in
   let* view := setUint32 view 28 (mul (mul (Num rate) (int (numChannels g))) (int 2)) in
   let* view := setUint16 view 32 (mul (int (numChannels g)) (int 2)) in
   let* view := setUint16 view 34 (int 16) in
   let* view := writeString view 36 "data" in
   let* view := setUint32 view 40 (int (Z.of_nat (length samples) * 2)) in
   floatTo16BitPCM view 44 samples).

(** [target.set(source, offset)] on typed arrays: the elements of [source]
    are copied over those of [target] from [offset] on; a source that does
    not fit throws a [RangeError]. *)
Definition Float32Array_set (target source : Float32Array) (offset : nat)
  : completion Float32Array :=
  if decide (offset + length source <= length target) then
    Normal (take offset target ++ source ++ drop (offset + length source) target)
  else Throw RangeError.

(** [mergeBuffers], from the chunks that are left on:
    [result.set(recBuffers[i], offset); offset += recBuffers[i].length] *)
Fixpoint mergeBuffers_from (recBuffers : list Float32Array)
    (result : Float32Array) (offset : nat) : completion Float32Array :=
  match recBuffers with
  | [] => Normal result
  | chunk :: recBuffers' =>
      let* result := Float32Array_set result chunk offset in
      mergeBuffers_from recBuffers' result (offset + length chunk)
  end.

Definition mergeBuffers (recBuffers : list Float32Array) (recLength : nat)
  : completion Float32Array :=
  mergeBuffers_from recBuffers (Float32Array_new recLength) 0.

(** The loop of [record] over the channels that are left:
    [recBuffers[channel].push(inputBuffer[channel])].  A channel with no
    buffer makes [push] throw a [TypeError]; what was pushed before stays.
    A channel past the end of [inputBuffer] reads [undefined], which the
    source pushes as a chunk: the buffers here hold arrays only, and the
    model goes no further ([None]). *)
Fixpoint record_from (inputBuffer : list Float32Array) (channels : list nat)
    (recBuffers : list (list Float32Array))
  : option (list (list Float32Array) * completion unit) :=
  match channels with
  | [] => Some (recBuffers, Normal tt)
  | channel :: channels' =>
      match recBuffers !! channel with
      | None => Some (recBuffers, Throw TypeError)
      | Some chunks =>
          match inputBuffer !! channel with
          | None => None
          | Some chunk =>
              record_from inputBuffer channels'
                (<[channel := chunks ++ [chunk]]> recBuffers)
          end
      end
  end.

(** [record]: the loop, then [recLength += inputBuffer[0].length], which
    throws a [TypeError] when [inputBuffer] is empty. *)
Definition record (inputBuffer : list Float32Array) (g : globals)
  : option (globals * completion unit) :=
  match record_from inputBuffer (seq 0 (Z.to_nat (numChannels g)))
          (recBuffers g) with
  | None => None
  | Some (buffers, Throw e) =>
      Some ({| recLength := recLength g; recBuffers := buffers;
               sampleRate := sampleRate g; numChannels := numChannels g |},
            Throw e)
  | Some (buffers, Normal _) =>
      match inputBuffer !! 0 with
      | None =>
          Some ({| recLength := recLength g; recBuffers := buffers;
                   sampleRate := sampleRate g; numChannels := numChannels g |},
                Throw TypeError)
      | Some chunk =>
          Some ({| recLength := recLength g + length chunk;
                   recBuffers := buffers;
                   sampleRate := sampleRate g; numChannels := numChannels g |},
                Normal tt)
      end
  end.

(** The loop that [exportWAV] and [getBuffer] share, over the channels that
    are left: [buffers.push(mergeBuffers(recBuffers[channel], recLength))].
    A channel with no buffer makes [mergeBuffers] throw a [TypeError] at
    [recBuffers.length]. *)
Fixpoint merge_channels (channels : list nat) (g : globals)
  : completion (list Float32Array) :=
  match channels with
  | [] => Normal []
  | channel :: channels' =>
      let* merged :=
        match recBuffers g !! channel with
        | None => Throw TypeError
        | Some chunks => mergeBuffers chunks (recLength g)
        end in
      let* buffers := merge_channels channels' g in
      Normal (merged :: buffers)
  end.

(** What the worker posts back: the blob of an export (the bytes of its
    view and its type), or the merged buffers. *)
Inductive posted : Type :=
| posted_blob (bytes : DataView) (type : string)
| posted_buffers (data : list Float32Array).

(** [exportWAV], for a payload [{ type, rate }] whose rate may be left out
    and is then the sample rate.  With two channels the merged buffers are
    interleaved; otherwise the first one is taken, and is [undefined] when
    there is no channel: [downsampleBuffer] then hands it on or throws as
    for an array, and the first read of a length throws a [TypeError]. *)
Definition exportWAV (type : string) (rate : option Q) : W posted := fun g =>
  (g,
   let rate := match rate with Some rate => rate | None => sampleRate g end in
   let* buffers := merge_channels (seq 0 (Z.to_nat (numChannels g))) g in
   let* interleaved :=
     if (numChannels g =? 2)%Z then
       match buffers !! 0, buffers !! 1 with
       | Some inputL, Some inputR =>
           let* result := interleave inputL inputR in Normal (Some result)
       | _, _ => Throw TypeError
       end
     else Normal (buffers !! 0) in
   match interleaved with
   | Some interleaved =>
       let* downsampledBuffer := snd (downsampleBuffer interleaved rate g) in
       let* dataview := snd (encodeWAV downsampledBuffer rate g) in
       Normal (posted_blob dataview type)
   | None =>
       if Qeq_bool rate (sampleRate g) then Throw TypeError
       else if negb (Qle_bool rate (sampleRate g)) then Throw (Error upsampling)
       else Throw TypeError
   end).

Definition getBuffer : W posted := fun g =>
  (g,
   let* buffers := merge_channels (seq 0 (Z.to_nat (numChannels g))) g in
   Normal (posted_buffers buffers)).

End Worker.

(* ===================================================================== *)
(** * The recording session: [src/recorder.ts] *)
(* ===================================================================== *)

Module IOptionsMaybe.
Record t : Type := {
  mono : option bool;
  quietThresholdTime : option Q;
  volumeThreshold : option Q;
  sampleRate : option Q
}.
End IOptionsMaybe.

Module IOptions.
Record t : Type := {
  mono : bool;
  quietThresholdTime : Q;
  volumeThreshold : Q;
  sampleRate : option Q
}.
End IOptions.

Module Rec.
Import JS.

(** [a || b] for an optional boolean and for an optional number [a]:
    [undefined], [false] and [0] are falsy. *)
Definition or_boolean (a : option bool) (b : bool) : bool :=
  match a with
  | Some true => true
  | _ => b
  end.

Definition or_number (a : option Q) (b : Q) : Q :=
  match a with
  | Some q => if Qeq_bool q 0 then b else q
  | None => b
  end.

(** What the session reads from its [AudioContext] during a call. *)
Record AudioContext : Type := {
  currentTime : Q;
  sampleRate : Q
}.

(** A message to the worker, [{ command, payload }]. *)
Inductive payload : Type :=
| config (c : IConfig.t)
| buffer (channels : list Float32Array)
| export (type : string) (rate : option Q)
| none.

Record message : Type := { command : string; data : payload }.

(** What the session does to its worker. *)
Inductive worker_call : Type :=
| postMessage (m : message)
| terminate.

(** An [audioprocess] event: the two channels of its input buffer, and the
    frequency data the analyser holds when the handler runs. *)
Record AudioProcessingEvent : Type := {
  channelData0 : Float32Array;
  channelData1 : Float32Array;
  floatFrequencyData : Float32Array
}.

(** The fields of a [Recorder].  [stream] is the number of audio tracks of
    its media stream; [worker] lists the calls made on the worker and
    [dispatched] the events dispatched, the oldest first. *)
Record Recorder : Type := {
  recording : bool;
  ready : bool;
  bufferLen : nat;
  options : IOptions.t;
  quietTime : Q;
  maxVolume : number;
  analyserData : Float32Array;
  analyserNode : bool;
  stream : nat;
  worker : list worker_call;
  dispatched : list string
}.

Definition set_recording (b : bool) (r : Recorder) : Recorder :=
  {| recording := b; ready := ready r; bufferLen := bufferLen r;
     options := options r; quietTime := quietTime r; maxVolume := maxVolume r;
     analyserData := analyserData r; analyserNode := analyserNode r;
     stream := stream r; worker := worker r; dispatched := dispatched r |}.

Definition set_ready (b : bool) (r : Recorder) : Recorder :=
  {| recording := recording r; ready := b; bufferLen := bufferLen r;
     options := options r; quietTime := quietTime r; maxVolume := maxVolume r;
     analyserData := analyserData r; analyserNode := analyserNode r;
     stream := stream r; worker := worker r; dispatched := dispatched r |}.

Definition set_quietTime (t : Q) (r : Recorder) : Recorder :=
  {| recording := recording r; ready := ready r; bufferLen := bufferLen r;
     options := options r; quietTime := t; maxVolume := maxVolume r;
     analyserData := analyserData r; analyserNode := analyserNode r;
     stream := stream r; worker := worker r; dispatched := dispatched r |}.

Definition set_maxVolume (v : number) (r : Recorder) : Recorder :=
  {| recording := recording r; ready := ready r; bufferLen := bufferLen r;
     options := options r; quietTime := quietTime r; maxVolume := v;
     analyserData := analyserData r; analyserNode := analyserNode r;
     stream := stream r; worker := worker r; dispatched := dispatched r |}.

Definition set_analyser (node : bool) (a : Float32Array) (r : Recorder) : Recorder :=
  {| recording := recording r; ready := ready r; bufferLen := bufferLen r;
     options := options r; quietTime := quietTime r; maxVolume := maxVolume r;
     analyserData := a; analyserNode := node;
     stream := stream r; worker := worker r; dispatched := dispatched r |}.

(** [this.worker.postMessage(m)] and [this.worker.terminate()]. *)
Definition call_worker (c : worker_call) (r : Recorder) : Recorder :=
  {| recording := recording r; ready := ready r; bufferLen := bufferLen r;
     options := options r; quietTime := quietTime r; maxVolume := maxVolume r;
     analyserData := analyserData r; analyserNode := analyserNode r;
     stream := stream r; worker := worker r ++ [c]; dispatched := dispatched r |}.

(** [this.dispatchEvent(new CustomEvent(type))]. *)
Definition dispatchEvent (type : string) (r : Recorder) : Recorder :=
  {| recording := recording r; ready := ready r; bufferLen := bufferLen r;
     options := options r; quietTime := quietTime r; maxVolume := maxVolume r;
     analyserData := analyserData r; analyserNode := analyserNode r;
     stream := stream r; worker := worker r; dispatched := dispatched r ++ [type] |}.

Definition constructor (stream : nat) (options : IOptionsMaybe.t) : Recorder :=
  {| recording := false;
     ready := false;
     bufferLen := 4096;
     quietTime := 0;
     maxVolume := int 99;
     worker := [];
     analyserData := [];
     options :=
       {| IOptions.mono := or_boolean (IOptionsMaybe.mono options) true;
          IOptions.quietThresholdTime :=
            or_number (IOptionsMaybe.quietThresholdTime options) 5;
          IOptions.volumeThreshold :=
            or_number (IOptionsMaybe.volumeThreshold options) (-60);
          IOptions.sampleRate := IOptionsMaybe.sampleRate options |};
     analyserNode := false;
     stream := stream;
     dispatched := [] |}.

(** [setup]: the audio graph is built (of it, the analyser and its
    [frequencyBinCount = 2048 / 2] data array are kept), the worker is sent
    its configuration, and the session is ready. *)
Definition setup (context : AudioContext) (r : Recorder) : completion Recorder :=
  let r := set_analyser true (Float32Array_new 1024) r in
  let config :=
    {| IConfig.sampleRate := sampleRate context;
       IConfig.numChannels :=
         if IOptions.mono (options r) then 1%Z else Z.of_nat (stream r) |} in
  let r := call_worker (postMessage {| command := "init"; data := Rec.config config |}) r in
  let r := set_ready true r in
  let r := set_quietTime (currentTime context) r in
  Normal (dispatchEvent "ready" r).

Definition start (context : AudioContext) (r : Recorder) : completion Recorder :=
  let* r := if negb (ready r) then setup context r else Normal r in
  let r := dispatchEvent "start" r in
  Normal (set_recording true r).

(** [exportWAV(type = 'audio/wav', rate = this.options.sampleRate)]. *)
Definition exportWAV (r : Recorder) : completion Recorder :=
  Normal (call_worker
    (postMessage {| command := "exportWAV";
                    data := export "audio/wav" (IOptions.sampleRate (options r)) |}) r).

Definition stop (r : Recorder) : completion Recorder :=
  let r := set_recording false r in
  exportWAV r.

Definition reset (r : Recorder) : completion Recorder :=
  let r := set_recording false r in
  let r := call_worker (postMessage {| command := "clear"; data := none |}) r in
  Normal (dispatchEvent "reset" r).

(** [kill]: the tracks are stopped and the nodes disconnected (not kept
    here), the worker is terminated. *)
Definition kill (r : Recorder) : completion Recorder :=
  let r := call_worker terminate r in
  Normal (dispatchEvent "end" r).

Definition abort (r : Recorder) : completion Recorder :=
  let r := dispatchEvent "stop" r in
  kill r.

Definition getBuffer (r : Recorder) : completion Recorder :=
  Normal (call_worker (postMessage {| command := "getBuffer"; data := none |}) r).

(** [onWorkerMessage], on the [command] of the message received. *)
Definition onWorkerMessage (command : string) (r : Recorder) : completion Recorder :=
  if String.eqb command "exportWAV" then
    let r := dispatchEvent "data" r in
    kill r
  else Normal r.

Definition isQuiet (context : AudioContext) (r : Recorder) : completion Recorder :=
  let now := currentTime context in
  let delta := double (now - quietTime r) in
  let isMicQuiet := lt (maxVolume r) (Num (IOptions.volumeThreshold (options r))) in
  let* r :=
    if gt delta (Num (IOptions.quietThresholdTime (options r))) && isMicQuiet
    then stop r else Normal r in
  if negb isMicQuiet then Normal (set_quietTime (currentTime context) r)
  else Normal r.

Definition onAudioProcess (context : AudioContext) (ev : AudioProcessingEvent)
    (r : Recorder) : completion Recorder :=
  if negb (recording r) then Normal r
  else
    let r := dispatchEvent "audioprocess" r in
    let r := call_worker
      (postMessage {| command := "record";
                      data := buffer [channelData0 ev; channelData1 ev] |}) r in
    let r := if analyserNode r
             then set_analyser true (floatFrequencyData ev) r else r in
    let r := set_maxVolume (Math_max_spread (analyserData r)) r in
    isQuiet context r.

(** What can happen to a session: a call of its interface, or an event
    delivered to one of its handlers. *)
Inductive action : Type :=
| do_start (context : AudioContext)
| do_stop
| do_reset
| do_abort
| do_getBuffer
| on_message (command : string)
| on_audioprocess (context : AudioContext) (ev : AudioProcessingEvent).

Definition perform (a : action) (r : Recorder) : completion Recorder :=
  match a with
  | do_start context => start context r
  | do_stop => stop r
  | do_reset => reset r
  | do_abort => abort r
  | do_getBuffer => getBuffer r
  | on_message command => onWorkerMessage command r
  | on_audioprocess context ev => onAudioProcess context ev r
  end.

(** A history: the actions in order, stopping at the first that throws. *)
Fixpoint run (actions : list action) (r : Recorder) : completion Recorder :=
  match actions with
  | [] => Normal r
  | a :: actions' => let* r := perform a r in run actions' r
  end.

(** The [init] configurations and the number of [exportWAV] requests among
    the calls made on the worker. *)
Definition configurations (calls : list worker_call) : list IConfig.t :=
  omap (fun c => match c with
                 | postMessage {| command := _; data := config c |} => Some c
                 | _ => None
                 end) calls.

Definition is_export (c : worker_call) : bool :=
  match c with
  | postMessage m => String.eqb (command m) "exportWAV"
  | terminate => false
  end.

Definition exports (r : Recorder) : nat :=
  length (List.filter is_export (worker r)).

End Rec.

(* ===================================================================== *)
(** * The WAV format, and what the proofs say of the encoder *)
(* ===================================================================== *)

Module Wav.
Import JS Worker.

(** The little-endian bytes of a 32-bit and of a 16-bit field holding [v]
    (of [v] modulo [2^32] or [2^16], which has the same low bytes). *)
Definition uint32_le (v : Z) : list Z :=
  [v mod 256; (v / 256) mod 256; (v / 65536) mod 256; (v / 16777216) mod 256]%Z.

Definition uint16_le (v : Z) : list Z :=
  [v mod 256; (v / 256) mod 256]%Z.

(** [view] with [bytes] in place of what it held from [offset] on. *)
Definition splice (view : list Z) (offset : nat) (bytes : list Z) : list Z :=
  take offset view ++ bytes ++ drop (offset + length bytes) view.

(** The clamped and scaled sample that [floatTo16BitPCM] hands to
    [setInt16], as a 16-bit integer. *)
Definition pcm16 (x : number) : Z :=
  let s := Math_max (int (-1)) (Math_min (int 1) x) in
  ToInt16 (if lt s (int 0) then mul s (int 32768) else mul s (int 32767)).

Definition pcm_bytes (input : Float32Array) : list Z :=
  flat_map (fun x => [byte_of 0 (pcm16 x); byte_of 1 (pcm16 x)]) input.

(** The bytes that [setUint32] and [setUint16] write for a number. *)
Definition le32 (v : number) : list Z :=
  [byte_of 0 (ToUint32 v); byte_of 1 (ToUint32 v);
   byte_of 2 (ToUint32 v); byte_of 3 (ToUint32 v)].

Definition le16 (v : number) : list Z :=
  [byte_of 0 (ToUint16 v); byte_of 1 (ToUint16 v)].

(** The header as [encodeWAV] writes it, field by field. *)
Definition header_bytes (n : nat) (rate : Q) (c : Z) : list Z :=
  charCodes "RIFF" ++ le32 (int (36 + Z.of_nat n * 2))
  ++ charCodes "WAVE"
  ++ charCodes "fmt " ++ le32 (int 16) ++ le16 (int 1) ++ le16 (int c)
  ++ le32 (Num rate) ++ le32 (mul (mul (Num rate) (int c)) (int 2))
  ++ le16 (mul (int c) (int 2)) ++ le16 (int 16)
  ++ charCodes "data" ++ le32 (int (Z.of_nat n * 2)).

(** The 44 bytes of the header for [n] samples, an integer rate [r] and [c]
    channels, as the format has them. *)
Definition wav_header (n : nat) (r c : Z) : list Z :=
  [82; 73; 70; 70]%Z ++ uint32_le (36 + 2 * Z.of_nat n)
  ++ [87; 65; 86; 69]%Z
  ++ [102; 109; 116; 32]%Z ++ uint32_le 16 ++ uint16_le 1 ++ uint16_le c
  ++ uint32_le r ++ uint32_le (r * c * 2) ++ uint16_le (c * 2) ++ uint16_le 16
  ++ [100; 97; 116; 97]%Z ++ uint32_le (2 * Z.of_nat n).

(** A sample clamped to [-1, 1]. *)
Definition clamp (q : Q) : Q :=
  (if Qlt_le_dec q (-1) then -1 else if Qlt_le_dec 1 q then 1 else q)%Q.

(** The 16-bit integer of a sample: the clamped sample times 32768 when it
    is negative and times 32767 when it is not, the fraction dropped.  An
    infinite sample clamps like a finite one; NaN is not clamped and is
    written as 0. *)
Definition sample16 (x : number) : Z :=
  match x with
  | Num q =>
      let s := clamp q in
      if Qlt_le_dec s 0 then Qceiling (s * 32768)%Q else Qfloor (s * 32767)%Q
  | PosInfinity => 32767
  | NegInfinity => -32768
  | NaN => 0
  end%Z.

(** A buffer of fifty million samples of silence (a quarter of an hour at
    48000 Hz), for an example. *)
Definition long_silence : Float32Array :=
  replicate (Z.to_nat 50000000) (int 0).

(** A finite sample between two bounds. *)
Definition between (lo hi : Q) (x : number) : Prop :=
  match x with
  | Num q => (lo <= q <= hi)%Q
  | _ => False
  end.

End Wav.

(* ===================================================================== *)
(** * Sessions: what the proofs say of the recorder *)
(* ===================================================================== *)

Module Session.
Import JS Rec.

(** What holds of a session however it was used: the [mono] option is set,
    every configuration sent to the worker has one channel, and a session
    that records has been set up. *)
Record sound (r : Recorder) : Prop := {
  sound_mono : IOptions.mono (options r) = true;
  sound_configurations :
    Forall (fun c => IConfig.numChannels c = 1%Z) (configurations (worker r));
  sound_ready : recording r = true -> ready r = true;
  sound_analyser : ready r = true -> analyserNode r = true
}.

(** Whether a call returned a session that is recording. *)
Definition returns_recording (c : completion Recorder) : bool :=
  match c with
  | Normal r => recording r
  | Throw _ => false
  end.

(** The peak level of an observation, and whether the microphone counts as
    quiet for the session: the peak is below the volume threshold. *)
Definition peak (ev : AudioProcessingEvent) : number :=
  Math_max_spread (floatFrequencyData ev).

Definition isMicQuiet (r : Recorder) (ev : AudioProcessingEvent) : bool :=
  lt (peak ev) (Num (IOptions.volumeThreshold (options r))).

(** The time since the quiet timestamp as the session computes it at
    [context]: the difference of the two times, rounded. *)
Definition elapsed (r : Recorder) (context : AudioContext) : number :=
  double (currentTime context - quietTime r).

(** Whether the quiet time has run out at [context]: the time since the
    quiet timestamp is above the threshold. *)
Definition overdue (r : Recorder) (context : AudioContext) : bool :=
  gt (elapsed r context) (Num (IOptions.quietThresholdTime (options r))).

(** A series of observations, one [audioprocess] event each. *)
Definition observe (observations : list (AudioContext * AudioProcessingEvent))
    (r : Recorder) : completion Recorder :=
  run (map (fun o => on_audioprocess (fst o) (snd o)) observations) r.

(** A session that records since time 0 with the default options. *)
Definition recording_session : Recorder :=
  {| recording := true; ready := true; bufferLen := 4096;
     options := {| IOptions.mono := true;
                   IOptions.quietThresholdTime := 5;
                   IOptions.volumeThreshold := -60;
                   IOptions.sampleRate := None |};
     quietTime := 0; maxVolume := int 99;
     analyserData := Float32Array_new 4; analyserNode := true;
     stream := 1; worker := []; dispatched := [] |}.

Definition at_time (t : Q) : AudioContext :=
  {| currentTime := t; sampleRate := 48000 |}.

(** An event of silence: every frequency bin at -Infinity. *)
Definition silence : AudioProcessingEvent :=
  {| channelData0 := [int 0; int 0]; channelData1 := [int 0; int 0];
     floatFrequencyData := [NegInfinity; NegInfinity; NegInfinity; NegInfinity] |}.

End Session.

(* ===================================================================== *)
(** * The session and its worker together *)
(* ===================================================================== *)

Module System.
Import JS Rec.

(** [ctx.onmessage], on a message of the session: the [switch] on its
    command.  A handler that throws leaves an uncaught error, and the globals
    as they were when it threw; an unknown command does nothing.  A message
    whose payload has not the shape its command reads is not modelled
    ([None]), nor is a [record] that pushes [undefined]. *)
Definition onmessage (m : message) (g : Worker.globals)
  : option (Worker.globals * completion (list Worker.posted)) :=
  if String.eqb (command m) "init" then
    match data m with
    | config c =>
        let '(g, done) := Worker.init c g in
        Some (g, let* _ := done in Normal [])
    | _ => None
    end
  else if String.eqb (command m) "record" then
    match data m with
    | buffer inputBuffer =>
        match Worker.record inputBuffer g with
        | Some (g, done) => Some (g, let* _ := done in Normal [])
        | None => None
        end
    | _ => None
    end
  else if String.eqb (command m) "exportWAV" then
    match data m with
    | export type rate =>
        let '(g, reply) := Worker.exportWAV type rate g in
        Some (g, let* reply := reply in Normal [reply])
    | _ => None
    end
  else if String.eqb (command m) "getBuffer" then
    let '(g, reply) := Worker.getBuffer g in
    Some (g, let* reply := reply in Normal [reply])
  else if String.eqb (command m) "clear" then
    let '(g, done) := Worker.clear g in
    Some (g, let* _ := done in Normal [])
  else Some (g, Normal []).

(** The worker takes the messages in the order they were posted; an
    uncaught error does not stop it.  The outcome of each message is kept. *)
Fixpoint deliver (messages : list message) (g : Worker.globals)
  : option (Worker.globals * list (completion (list Worker.posted))) :=
  match messages with
  | [] => Some (g, [])
  | m :: messages' =>
      match onmessage m g with
      | None => None
      | Some (g, outcome) =>
          match deliver messages' g with
          | None => None
          | Some (g, outcomes) => Some (g, outcome :: outcomes)
          end
      end
  end.

(** The messages the session posts: [init] with a configuration, [record]
    with the channels of an input buffer, [exportWAV] with a type and a
    rate, [getBuffer] and [clear]. *)
Definition init_message (c : IConfig.t) : message :=
  {| command := "init"; data := config c |}.

Definition record_message (inputBuffer : list Float32Array) : message :=
  {| command := "record"; data := buffer inputBuffer |}.

Definition exportWAV_message (type : string) (rate : option Q) : message :=
  {| command := "exportWAV"; data := export type rate |}.

Definition getBuffer_message : message :=
  {| command := "getBuffer"; data := none |}.

Definition clear_message : message :=
  {| command := "clear"; data := none |}.

(** What the worker receives of the calls made on it: the messages posted
    before it is terminated.  A message posted to a terminated worker is
    lost. *)
Fixpoint received (calls : list worker_call) : list message :=
  match calls with
  | [] => []
  | postMessage m :: calls' => m :: received calls'
  | terminate :: _ => []
  end.

(** The input buffer that [onAudioProcess] sends for an event. *)
Definition inputBuffer_of (ev : AudioProcessingEvent) : list Float32Array :=
  [channelData0 ev; channelData1 ev].

(** The handlers of a series of [audioprocess] events. *)
Definition audioprocess (blocks : list (AudioContext * AudioProcessingEvent))
  : list action :=
  map (fun o => on_audioprocess (fst o) (snd o)) blocks.

(** Whether an action is the arrival of the worker's [exportWAV] reply, and
    the number of [data] events a session has dispatched. *)
Definition is_export_reply (a : action) : bool :=
  match a with
  | on_message command => String.eqb command "exportWAV"
  | _ => false
  end.

Definition data_events (r : Recorder) : nat :=
  length (List.filter (String.eqb "data") (dispatched r)).

(** The setup has run exactly when the session is ready: the session has
    then sent one configuration, and none before. *)
Definition configured (r : Recorder) : Prop :=
  length (configurations (worker r)) = if ready r then 1 else 0.

(** The samples of one channel in a series of inputs of [record], in the
    order of the inputs. *)
Definition recorded (channel : nat) (inputs : list (list Float32Array))
  : Float32Array :=
  concat (omap (fun inputBuffer : list Float32Array => inputBuffer !! channel) inputs).

(** The worker holds the recording of [inputs]: each channel in use has a
    buffer whose chunks make up the samples recorded for it, and
    [recLength] counts them. *)
Definition holds (g : Worker.globals) (inputs : list (list Float32Array)) : Prop :=
  forall channel, channel < Z.to_nat (Worker.numChannels g) ->
    length (recorded channel inputs) = Worker.recLength g /\
    exists chunks,
      Worker.recBuffers g !! channel = Some chunks /\
      concat chunks = recorded channel inputs.

(** Two channels frame by frame: left sample, right sample. *)
Definition frames (inputL inputR : Float32Array) : Float32Array :=
  concat (zip_with (fun x y => [x; y]) inputL inputR).

(** The rate of an export: the one of the payload, or the sample rate of
    the worker when the payload has none. *)
Definition export_rate (rate : option Q) (g : Worker.globals) : Q :=
  match rate with
  | Some rate => rate
  | None => Worker.sampleRate g
  end.

(** An input of [record] that has its first channel, and whose first [n]
    channels all have the length of the first. *)
Definition aligned (n : nat) (inputBuffer : list Float32Array) : Prop :=
  exists first,
    inputBuffer !! 0 = Some first /\
    forall channel, channel < n ->
      exists chunk, inputBuffer !! channel = Some chunk /\
                    length chunk = length first.

(** A worker that holds nothing, [recLength = 0] and [recBuffers = []], as
    when its module is loaded.  Its sample rate and channel count are then
    [undefined], which a state here cannot say: what is stated of a worker
    that holds nothing is stated of one that gets [init] first, which sets
    the two before anything reads them. *)
Definition fresh (g : Worker.globals) : Prop :=
  Worker.recLength g = 0 /\ Worker.recBuffers g = [].

(** For examples: a worker that holds nothing, after an [init] for no
    channel at 44100 Hz; a constructor given no option; a loud block. *)
Definition idle_worker : Worker.globals :=
  {| Worker.recLength := 0; Worker.recBuffers := [];
     Worker.sampleRate := 44100; Worker.numChannels := 0 |}.

Definition no_options : IOptionsMaybe.t :=
  {| IOptionsMaybe.mono := None;
     IOptionsMaybe.quietThresholdTime := None;
     IOptionsMaybe.volumeThreshold := None;
     IOptionsMaybe.sampleRate := None |}.

Definition loud : AudioProcessingEvent :=
  {| channelData0 := [Num (1 # 2); int (-1)];
     channelData1 := [int 0; int 1];
     floatFrequencyData := [int (-40); int (-75); NegInfinity; int (-90)] |}.

(** Two takes of three samples a channel, for examples: the inputs as the
    session sends them, two channels each, and a worker with one channel
    and one with two that have recorded them. *)
Definition take_inputs : list (list Float32Array) :=
  [[[Num (1 # 2); int (-1)]; [int 0; int 1]]; [[Num (1 # 4)]; [Num (-1 # 4)]]].

Definition mono_take : Worker.globals :=
  {| Worker.recLength := 3;
     Worker.recBuffers := [[[Num (1 # 2); int (-1)]; [Num (1 # 4)]]];
     Worker.sampleRate := 48000;
     Worker.numChannels := 1 |}.

Definition stereo_take : Worker.globals :=
  {| Worker.recLength := 3;
     Worker.recBuffers := [[[Num (1 # 2); int (-1)]; [Num (1 # 4)]];
                           [[int 0; int 1]; [Num (-1 # 4)]]];
     Worker.sampleRate := 48000;
     Worker.numChannels := 2 |}.

End System.

(* ===================================================================== *)
(** * Properties of the worker *)
(* ===================================================================== *)

Module InterleaveFacts.
Import JS Worker.

Lemma length_store (a : Float32Array) (i : nat) (v : option number) :
  length (store a i v) = length a.
Proof. unfold store. apply length_insert. Qed.

Lemma lookup_store_eq (a : Float32Array) (i : nat) (v : option number) :
  i < length a -> store a i v !! i = Some (ToNumber v).
Proof. intros Hi. unfold store. by apply list_lookup_insert_eq. Qed.

Lemma lookup_store_ne (a : Float32Array) (i j : nat) (v : option number) :
  i <> j -> store a i v !! j = a !! j.
Proof. intros Hij. unfold store. by apply list_lookup_insert_ne. Qed.

Lemma interleave_loop_spec (inputL inputR result : Float32Array) (len index inputIndex : nat) :
  index = 2 * inputIndex -> length result = len ->
  let res := interleave_loop inputL inputR result len index inputIndex in
  length res = len /\
  (forall j, j < index -> res !! j = result !! j) /\
  (forall i, inputIndex <= i -> 2 * i < len ->
     res !! (2 * i) = Some (ToNumber (inputL !! i))) /\
  (forall i, inputIndex <= i -> 2 * i + 1 < len ->
     res !! (2 * i + 1) = Some (ToNumber (inputR !! i))).
Proof.
  funelim (interleave_loop inputL inputR result len index inputIndex).
  all: intros Hidx Hlen; cbn zeta.
  - destruct H as (IHlen & IHlow & IHL & IHR);
      [lia | by rewrite !length_store |].
    split; [exact IHlen |].
    split; [| split].
    + intros j Hj. rewrite IHlow by lia.
      rewrite !lookup_store_ne by lia. reflexivity.
    + intros i Hi H2i.
      destruct (decide (i = inputIndex)) as [-> | Hne].
      * replace (2 * inputIndex) with index by lia.
        rewrite IHlow by lia.
        rewrite lookup_store_ne by lia.
        apply lookup_store_eq. lia.
      * apply IHL; lia.
    + intros i Hi H2i.
      destruct (decide (i = inputIndex)) as [-> | Hne].
      * replace (2 * inputIndex + 1) with (index + 1) by lia.
        rewrite IHlow by lia.
        apply lookup_store_eq. rewrite length_store. lia.
      * apply IHR; lia.
  - split; [exact Hlen |].
    split; [reflexivity |].
    split; intros i Hi H2i; lia.
Qed.

Lemma interleave_returns (inputL inputR : Float32Array) :
  exists result,
    interleave inputL inputR = Normal result /\
    length result = length inputL + length inputR /\
    (forall i, 2 * i < length result ->
       result !! (2 * i) = Some (ToNumber (inputL !! i))) /\
    (forall i, 2 * i + 1 < length result ->
       result !! (2 * i + 1) = Some (ToNumber (inputR !! i))).
Proof.
  unfold interleave. eexists. split; [reflexivity |].
  destruct (interleave_loop_spec inputL inputR
              (Float32Array_new (length inputL + length inputR))
              (length inputL + length inputR) 0 0)
    as (Hlen & _ & HL & HR).
  - reflexivity.
  - unfold Float32Array_new. apply length_replicate.
  - cbn zeta in *. rewrite Hlen.
    split; [reflexivity |].
    split; intros i Hi; [apply HL | apply HR]; lia.
Qed.

(** C9.  For channel arrays of one length [n], [interleave] returns an
    array of length [2 n] whose element [2 i] is [inputL[i]] and whose
    element [2 i + 1] is [inputR[i]], for every [i < n]. *)
Theorem interleave_equal_lengths (inputL inputR : Float32Array) (n : nat) :
  length inputL = n -> length inputR = n ->
  exists result,
    interleave inputL inputR = Normal result /\
    length result = 2 * n /\
    forall i, i < n ->
      result !! (2 * i) = inputL !! i /\ result !! (2 * i + 1) = inputR !! i.
Proof.
  intros HL HR.
  destruct (interleave_returns inputL inputR) as (result & Hret & Hlen & Heven & Hodd).
  exists result. split; [exact Hret |].
  split; [lia |].
  intros i Hi.
  rewrite Heven, Hodd by lia.
  destruct (lookup_lt_is_Some_2 inputL i) as [x Hx]; [lia |].
  destruct (lookup_lt_is_Some_2 inputR i) as [y Hy]; [lia |].
  rewrite Hx, Hy. split; reflexivity.
Qed.

Lemma interleave_equal_lengths_witness :
  exists result,
    interleave [int 1; int 2] [int 3; int 4] = Normal result /\
    length result = 2 * 2 /\
    forall i, i < 2 ->
      result !! (2 * i) = [int 1; int 2] !! i /\
      result !! (2 * i + 1) = [int 3; int 4] !! i.
Proof.
  exact (interleave_equal_lengths [int 1; int 2] [int 3; int 4] 2 eq_refl eq_refl).
Defined.

(** C4, as the code has it.  For channel arrays of different lengths
    [interleave] does not fail: it returns an array of length
    [|inputL| + |inputR|] whose element [2 i] is [inputL[i]] and whose element
    [2 i + 1] is [inputR[i]], a read past the end of a channel being stored as
    NaN. *)
Theorem interleave_unequal_lengths (inputL inputR : Float32Array) :
  length inputL <> length inputR ->
  exists result,
    interleave inputL inputR = Normal result /\
    length result = length inputL + length inputR /\
    (forall i, 2 * i < length result ->
       result !! (2 * i) = Some (ToNumber (inputL !! i))) /\
    (forall i, 2 * i + 1 < length result ->
       result !! (2 * i + 1) = Some (ToNumber (inputR !! i))).
Proof.
  intros _. apply interleave_returns.
Qed.

Lemma interleave_unequal_lengths_witness :
  exists result,
    interleave [int 1; int 2; int 3] [int 4] = Normal result /\
    length result = 3 + 1 /\
    (forall i, 2 * i < length result ->
       result !! (2 * i) = Some (ToNumber ([int 1; int 2; int 3] !! i))) /\
    (forall i, 2 * i + 1 < length result ->
       result !! (2 * i + 1) = Some (ToNumber ([int 4] !! i))).
Proof.
  apply (interleave_unequal_lengths [int 1; int 2; int 3] [int 4]).
  simpl. lia.
Defined.

(** C4, as the specification states it, does not hold: on a left channel of
    one sample and an empty right channel [interleave] returns the one
    sample, and on three samples against one it returns four elements, the
    last one NaN; so channels of different lengths do not make it throw. *)
Lemma interleave_length_mismatch_returns :
  length [int 1] <> length (@nil number) /\
  interleave [int 1] [] = Normal [int 1] /\
  interleave [int 1; int 2; int 3] [int 4] = Normal [int 1; int 4; int 2; NaN] /\
  ~ (forall inputL inputR : Float32Array,
       length inputL <> length inputR ->
       exists e, interleave inputL inputR = Throw e).
Proof.
  split; [simpl; lia |].
  split; [reflexivity |].
  split; [reflexivity |].
  intros Hthrows.
  destruct (Hthrows [int 1] []) as [e He]; [simpl; lia |].
  discriminate He.
Qed.

End InterleaveFacts.

(* ===================================================================== *)
(** * Properties of the encoder *)
(* ===================================================================== *)

Module EncodeFacts.
Import JS Worker Wav.

(** ** Bytes of an integer *)

Lemma byte_of_div (k : nat) (v : Z) :
  byte_of k v = ((v / 2 ^ (8 * Z.of_nat k)) mod 256)%Z.
Proof.
  unfold byte_of.
  rewrite Z.shiftr_div_pow2 by lia.
  change 255%Z with (Z.ones 8).
  rewrite Z.land_ones by lia.
  reflexivity.
Qed.

Lemma byte_of_mod (k : nat) (bits : Z) (v : Z) :
  (8 * Z.of_nat k + 8 <= bits)%Z ->
  byte_of k (v mod 2 ^ bits) = byte_of k v.
Proof.
  intros Hk. unfold byte_of.
  apply Z.bits_inj'. intros i Hi.
  rewrite !Z.land_spec, !Z.shiftr_spec by lia.
  destruct (Z.ltb_spec i 8) as [Hlow | Hhigh].
  - rewrite Z.mod_pow2_bits_low by lia. reflexivity.
  - change 255%Z with (Z.ones 8).
    rewrite Z.ones_spec_high by lia.
    rewrite !andb_false_r. reflexivity.
Qed.

Lemma byte_of_0 (v : Z) : byte_of 0 v = (v mod 256)%Z.
Proof. rewrite byte_of_div. change (2 ^ (8 * Z.of_nat 0))%Z with 1%Z. by rewrite Z.div_1_r. Qed.

Lemma byte_of_1 (v : Z) : byte_of 1 v = ((v / 256) mod 256)%Z.
Proof. by rewrite byte_of_div. Qed.

Lemma byte_of_2 (v : Z) : byte_of 2 v = ((v / 65536) mod 256)%Z.
Proof. by rewrite byte_of_div. Qed.

Lemma byte_of_3 (v : Z) : byte_of 3 v = ((v / 16777216) mod 256)%Z.
Proof. by rewrite byte_of_div. Qed.

Lemma trunc_int (z : Z) : trunc (inject_Z z) = z.
Proof. unfold trunc. simpl. apply Z.quot_1_r. Qed.

Lemma uint32_bytes (v : Z) :
  [byte_of 0 (ToUint32 (int v)); byte_of 1 (ToUint32 (int v));
   byte_of 2 (ToUint32 (int v)); byte_of 3 (ToUint32 (int v))] = uint32_le v.
Proof.
  unfold ToUint32, int, uint32_le. rewrite trunc_int.
  rewrite !byte_of_mod by lia.
  rewrite byte_of_0, byte_of_1, ?byte_of_2, ?byte_of_3.
  reflexivity.
Qed.

Lemma uint16_bytes (v : Z) :
  [byte_of 0 (ToUint16 (int v)); byte_of 1 (ToUint16 (int v))] = uint16_le v.
Proof.
  unfold ToUint16, int, uint16_le. rewrite trunc_int.
  rewrite !byte_of_mod by lia.
  rewrite byte_of_0, byte_of_1, ?byte_of_2, ?byte_of_3.
  reflexivity.
Qed.

Lemma int16_bytes (v : Z) :
  (- 32768 <= v <= 32767)%Z ->
  [byte_of 0 v; byte_of 1 v] = uint16_le v.
Proof.
  intros _. unfold uint16_le. rewrite byte_of_0, byte_of_1. reflexivity.
Qed.

(** Reading a field back. *)
Lemma lookup_after (front l : list Z) (k : nat) :
  (front ++ l) !! (length front + k) = l !! k.
Proof. rewrite lookup_app_r by lia. f_equal. lia. Qed.

Lemma lookup_at (front l : list Z) : (front ++ l) !! length front = l !! 0.
Proof. rewrite lookup_app_r by lia. f_equal. lia. Qed.

Lemma uint32_le_sum (v : Z) :
  (v mod 256 + 256 * ((v / 256) mod 256) + 65536 * ((v / 65536) mod 256)
   + 16777216 * ((v / 16777216) mod 256) = v mod 2 ^ 32)%Z.
Proof.
  change (2 ^ 32)%Z with 4294967296%Z.
  assert (H1 : (v / 65536 = v / 256 / 256)%Z)
    by (rewrite Z.div_div by lia; reflexivity).
  assert (H2 : (v / 16777216 = v / 65536 / 256)%Z)
    by (rewrite Z.div_div by lia; reflexivity).
  assert (H3 : (v / 4294967296 = v / 16777216 / 256)%Z)
    by (rewrite Z.div_div by lia; reflexivity).
  pose proof (Z.div_mod v 256 ltac:(lia)).
  pose proof (Z.div_mod (v / 256) 256 ltac:(lia)).
  pose proof (Z.div_mod (v / 65536) 256 ltac:(lia)).
  pose proof (Z.div_mod (v / 16777216) 256 ltac:(lia)).
  pose proof (Z.div_mod v 4294967296 ltac:(lia)).
  lia.
Qed.

Lemma uint16_le_sum (v : Z) :
  (v mod 256 + 256 * ((v / 256) mod 256) = v mod 2 ^ 16)%Z.
Proof.
  change (2 ^ 16)%Z with 65536%Z.
  assert (H1 : (v / 65536 = v / 256 / 256)%Z)
    by (rewrite Z.div_div by lia; reflexivity).
  pose proof (Z.div_mod v 256 ltac:(lia)).
  pose proof (Z.div_mod (v / 256) 256 ltac:(lia)).
  pose proof (Z.div_mod v 65536 ltac:(lia)).
  lia.
Qed.

Lemma read_uint32_le (v : Z) (rest : list Z) (front : list Z) (offset : nat) :
  length front = offset ->
  getUint32 (front ++ uint32_le v ++ rest) offset = Normal (v mod 2 ^ 32)%Z.
Proof.
  intros <-. unfold getUint32.
  rewrite lookup_at, !lookup_after.
  cbn [uint32_le lookup list_lookup app].
  f_equal. apply uint32_le_sum.
Qed.

Lemma read_uint16_le (v : Z) (rest : list Z) (front : list Z) (offset : nat) :
  length front = offset ->
  getUint16 (front ++ uint16_le v ++ rest) offset = Normal (v mod 2 ^ 16)%Z.
Proof.
  intros <-. unfold getUint16.
  rewrite lookup_at, !lookup_after.
  cbn [uint16_le lookup list_lookup app].
  f_equal. apply uint16_le_sum.
Qed.

Lemma read_int16_le (v : Z) (rest : list Z) (front : list Z) (offset : nat) :
  (- 32768 <= v <= 32767)%Z ->
  length front = offset ->
  getInt16 (front ++ uint16_le v ++ rest) offset = Normal v.
Proof.
  intros Hv Hfront. unfold getInt16.
  rewrite (read_uint16_le v rest front offset Hfront).
  f_equal. change (2 ^ 16)%Z with 65536%Z.
  pose proof (Z.div_mod v 65536 ltac:(lia)).
  pose proof (Z.mod_pos_bound v 65536 ltac:(lia)).
  destruct (Z.leb_spec 32768 (v mod 65536)); lia.
Qed.


(** ** A write replaces the bytes it covers *)

Lemma split_at (view : list Z) (offset size : nat) :
  offset + size <= length view ->
  exists front old rest,
    view = front ++ old ++ rest /\
    length front = offset /\
    length old = size /\
    take offset view = front /\
    drop (offset + size) view = rest.
Proof.
  intros Hfit.
  exists (take offset view), (take size (drop offset view)),
         (drop (offset + size) view).
  split; [| split; [| split; [| split; reflexivity]]].
  - rewrite <- drop_drop, (take_drop size), take_drop. reflexivity.
  - rewrite length_take. lia.
  - rewrite length_take, length_drop. lia.
Qed.

Lemma setUint8_at (front rest : list Z) (b0 : Z) (v : number) :
  setUint8 (front ++ b0 :: rest) (length front) v =
  Normal (front ++ [byte_of 0 (ToUint8 v)] ++ rest).
Proof.
  unfold setUint8.
  destruct (decide _) as [_ | Hno];
    [| exfalso; apply Hno; rewrite length_app; simpl; lia].
  f_equal.
  rewrite (insert_app_r_alt _ _ (length front)) by lia.
  replace (length front - length front) with 0 by lia.
  reflexivity.
Qed.

Lemma setUint16_at (front rest : list Z) (b0 b1 : Z) (v : number) :
  setUint16 (front ++ b0 :: b1 :: rest) (length front) v =
  Normal (front ++ [byte_of 0 (ToUint16 v); byte_of 1 (ToUint16 v)] ++ rest).
Proof.
  unfold setUint16.
  destruct (decide _) as [_ | Hno];
    [| exfalso; apply Hno; rewrite length_app; simpl; lia].
  f_equal.
  rewrite (insert_app_r_alt _ _ (length front)) by lia.
  rewrite (insert_app_r_alt _ _ (length front + 1)) by lia.
  replace (length front - length front) with 0 by lia.
  replace (length front + 1 - length front) with 1 by lia.
  reflexivity.
Qed.

Lemma setInt16_at (front rest : list Z) (b0 b1 : Z) (v : number) :
  setInt16 (front ++ b0 :: b1 :: rest) (length front) v =
  Normal (front ++ [byte_of 0 (ToInt16 v); byte_of 1 (ToInt16 v)] ++ rest).
Proof.
  unfold setInt16.
  destruct (decide _) as [_ | Hno];
    [| exfalso; apply Hno; rewrite length_app; simpl; lia].
  f_equal.
  rewrite (insert_app_r_alt _ _ (length front)) by lia.
  rewrite (insert_app_r_alt _ _ (length front + 1)) by lia.
  replace (length front - length front) with 0 by lia.
  replace (length front + 1 - length front) with 1 by lia.
  reflexivity.
Qed.

Lemma setUint32_at (front rest : list Z) (b0 b1 b2 b3 : Z) (v : number) :
  setUint32 (front ++ b0 :: b1 :: b2 :: b3 :: rest) (length front) v =
  Normal (front ++ [byte_of 0 (ToUint32 v); byte_of 1 (ToUint32 v);
                    byte_of 2 (ToUint32 v); byte_of 3 (ToUint32 v)] ++ rest).
Proof.
  unfold setUint32.
  destruct (decide _) as [_ | Hno];
    [| exfalso; apply Hno; rewrite length_app; simpl; lia].
  f_equal.
  rewrite (insert_app_r_alt _ _ (length front)) by lia.
  rewrite (insert_app_r_alt _ _ (length front + 1)) by lia.
  rewrite (insert_app_r_alt _ _ (length front + 2)) by lia.
  rewrite (insert_app_r_alt _ _ (length front + 3)) by lia.
  replace (length front - length front) with 0 by lia.
  replace (length front + 1 - length front) with 1 by lia.
  replace (length front + 2 - length front) with 2 by lia.
  replace (length front + 3 - length front) with 3 by lia.
  reflexivity.
Qed.

Lemma setUint16_splice (view : list Z) (offset : nat) (v : number) :
  offset + 2 <= length view ->
  setUint16 view offset v =
  Normal (splice view offset [byte_of 0 (ToUint16 v); byte_of 1 (ToUint16 v)]).
Proof.
  intros Hfit. unfold splice. cbn [length].
  destruct (split_at view offset 2 Hfit)
    as (front & old & rest & Hview & Hfront & Hold & -> & ->).
  destruct old as [| b0 [| b1 [| ? ?]]]; try discriminate Hold.
  subst view offset. apply setUint16_at.
Qed.

Lemma setUint32_splice (view : list Z) (offset : nat) (v : number) :
  offset + 4 <= length view ->
  setUint32 view offset v =
  Normal (splice view offset
            [byte_of 0 (ToUint32 v); byte_of 1 (ToUint32 v);
             byte_of 2 (ToUint32 v); byte_of 3 (ToUint32 v)]).
Proof.
  intros Hfit. unfold splice. cbn [length].
  destruct (split_at view offset 4 Hfit)
    as (front & old & rest & Hview & Hfront & Hold & -> & ->).
  destruct old as [| b0 [| b1 [| b2 [| b3 [| ? ?]]]]]; try discriminate Hold.
  subst view offset. apply setUint32_at.
Qed.

Lemma char_code_byte (c : ascii) :
  byte_of 0 (ToUint8 (int (Z.of_N (N_of_ascii c)))) = Z.of_N (N_of_ascii c).
Proof.
  unfold ToUint8, int. rewrite trunc_int.
  rewrite byte_of_mod by lia.
  rewrite byte_of_0.
  pose proof (N_ascii_bounded c).
  apply Z.mod_small. lia.
Qed.

Lemma writeString_from_at (str : string) :
  forall (i : nat) (front old rest : list Z) (offset : nat),
    length front = offset + i ->
    length old = String.length str ->
    writeString_from i (front ++ old ++ rest) offset str =
    Normal (front ++ charCodes str ++ rest).
Proof.
  induction str as [| c str IH]; intros i front old rest offset Hfront Hold.
  - destruct old; [| discriminate]. reflexivity.
  - destruct old as [| b0 old]; [discriminate |].
    cbn [writeString_from charCodes].
    rewrite <- Hfront. cbn [app].
    rewrite setUint8_at, char_code_byte. cbn [bind].
    rewrite (app_assoc front).
    rewrite (IH (S i) (front ++ [Z.of_N (N_of_ascii c)]) old rest offset).
    + rewrite <- app_assoc. reflexivity.
    + rewrite length_app. cbn [length]. lia.
    + cbn [String.length length] in Hold. lia.
Qed.

Lemma length_charCodes (str : string) :
  length (charCodes str) = String.length str.
Proof. induction str; cbn [charCodes String.length length]; congruence. Qed.

Lemma writeString_splice (view : list Z) (offset : nat) (str : string) :
  offset + String.length str <= length view ->
  writeString view offset str = Normal (splice view offset (charCodes str)).
Proof.
  intros Hfit. unfold splice, writeString. rewrite length_charCodes.
  destruct (split_at view offset (String.length str) Hfit)
    as (front & old & rest & Hview & Hfront & Hold & -> & ->).
  subst view.
  apply writeString_from_at; [lia | exact Hold].
Qed.

(** ** The PCM data *)

Lemma floatTo16BitPCM_at (input : Float32Array) :
  forall (front rest : list Z),
    length rest = 2 * length input ->
    floatTo16BitPCM (front ++ rest) (length front) input =
    Normal (front ++ pcm_bytes input).
Proof.
  induction input as [| x input IH]; intros front rest Hrest.
  - destruct rest; [| discriminate]. reflexivity.
  - destruct rest as [| b0 [| b1 rest]]; cbn [length] in Hrest; try lia.
    cbn [floatTo16BitPCM]. cbv zeta.
    rewrite setInt16_at. cbn [bind].
    specialize (IH (front ++ [byte_of 0 (pcm16 x); byte_of 1 (pcm16 x)]) rest).
    rewrite length_app in IH. cbn [length] in IH.
    rewrite <- app_assoc in IH.
    unfold pcm16 in IH |- *. cbn zeta in IH |- *.
    rewrite IH by lia.
    unfold pcm_bytes. cbn [flat_map]. rewrite <- app_assoc. reflexivity.
Qed.

Lemma floatTo16BitPCM_splice (view : list Z) (offset : nat) (input : Float32Array) :
  length view = offset + 2 * length input ->
  floatTo16BitPCM view offset input = Normal (take offset view ++ pcm_bytes input).
Proof.
  intros Hlen.
  destruct (split_at view offset (2 * length input))
    as (front & old & rest & Hview & Hfront & Hold & -> & Hrest); [lia |].
  assert (rest = []) as ->.
  { apply length_zero_iff_nil. rewrite <- Hrest, length_drop. lia. }
  rewrite app_nil_r in Hview. subst view offset.
  by apply floatTo16BitPCM_at.
Qed.

Lemma length_pcm_bytes (input : Float32Array) :
  length (pcm_bytes input) = 2 * length input.
Proof.
  unfold pcm_bytes.
  induction input as [| x input IH]; cbn [flat_map length app]; lia.
Qed.

Lemma lookup_pcm_bytes (input : Float32Array) (i : nat) (x : number) :
  input !! i = Some x ->
  exists front rest,
    pcm_bytes input = front ++ [byte_of 0 (pcm16 x); byte_of 1 (pcm16 x)] ++ rest /\
    length front = 2 * i.
Proof.
  revert i. induction input as [| y input IH]; intros i Hi; [discriminate |].
  destruct i as [| i].
  - injection Hi as ->. exists [], (pcm_bytes input). split; reflexivity.
  - destruct (IH i Hi) as (front & rest & Heq & Hlen).
    exists ([byte_of 0 (pcm16 y); byte_of 1 (pcm16 y)] ++ front), rest.
    split.
    + unfold pcm_bytes in *. cbn [flat_map]. rewrite Heq.
      rewrite <- !app_assoc. reflexivity.
    + rewrite length_app. cbn [length]. lia.
Qed.


(** ** The header *)

Ltac write_field :=
  first [ rewrite writeString_splice by (cbn [length String.length]; lia)
        | rewrite setUint32_splice by (cbn [length]; lia)
        | rewrite setUint16_splice by (cbn [length]; lia) ];
  cbn [bind splice firstn skipn app length charCodes Nat.add];
  rewrite ?drop_0.

Lemma encodeWAV_bytes (samples : Float32Array) (rate : Q) (g : globals) :
  encodeWAV samples rate g =
  (g, Normal (header_bytes (length samples) rate (numChannels g)
              ++ pcm_bytes samples)).
Proof.
  unfold encodeWAV. f_equal.
  unfold DataView_new. rewrite replicate_add.
  assert (Hrest : length (replicate (length samples * 2) 0%Z) = 2 * length samples)
    by (rewrite length_replicate; lia).
  revert Hrest. generalize (replicate (length samples * 2) 0%Z) as rest.
  intros rest Hrest.
  cbn [replicate app].
  do 13 write_field.
  rewrite floatTo16BitPCM_splice by (cbn [length]; lia).
  reflexivity.
Qed.

Lemma length_header_bytes (n : nat) (rate : Q) (c : Z) :
  length (header_bytes n rate c) = 44.
Proof. reflexivity. Qed.

Lemma header_bytes_integer_rate (n : nat) (r c : Z) :
  header_bytes n (inject_Z r) c = wav_header n r c.
Proof.
  unfold header_bytes, le32, le16.
  change (mul (mul (Num (inject_Z r)) (int c)) (int 2)) with (int (r * c * 2)).
  change (mul (int c) (int 2)) with (int (c * 2)).
  change (Num (inject_Z r)) with (int r).
  rewrite !uint32_bytes, !uint16_bytes.
  replace (Z.of_nat n * 2)%Z with (2 * Z.of_nat n)%Z by lia.
  reflexivity.
Qed.

(** ** The sample conversion *)

Lemma trunc_floor (p : Q) : (0 <= p)%Q -> trunc p = Qfloor p.
Proof.
  destruct p as [a b]. unfold Qle, trunc, Qfloor. cbn [Qnum Qden].
  intros Ha. apply Z.quot_div_nonneg; lia.
Qed.

Lemma trunc_ceiling (p : Q) : (p <= 0)%Q -> trunc p = Qceiling p.
Proof.
  destruct p as [a b]. unfold Qle, trunc, Qceiling, Qfloor, Qopp.
  cbn [Qnum Qden]. intros Ha.
  rewrite <- (Z.opp_involutive a) at 1.
  rewrite Z.quot_opp_l by lia.
  rewrite Z.quot_div_nonneg by lia.
  reflexivity.
Qed.

Lemma ToInt16_small (p : Q) :
  (-32768 <= trunc p <= 32767)%Z -> ToInt16 (Num p) = trunc p.
Proof.
  intros Hp. unfold ToInt16, ToUint16.
  change (2 ^ 16)%Z with 65536%Z. change (2 ^ 15)%Z with 32768%Z.
  pose proof (Z.div_mod (trunc p) 65536 ltac:(lia)).
  pose proof (Z.mod_pos_bound (trunc p) 65536 ltac:(lia)).
  destruct (Z.leb_spec 32768 (trunc p mod 65536)); lia.
Qed.

Lemma lt_Num (a b : Q) : lt (Num a) (Num b) = true <-> (a < b)%Q.
Proof.
  cbn [lt]. rewrite negb_true_iff.
  split.
  - intros Hle. apply Qnot_le_lt. intros Hba.
    apply Qle_bool_iff in Hba. congruence.
  - intros Hlt. destruct (Qle_bool b a) eqn:Hle; [| reflexivity].
    apply Qle_bool_iff in Hle. exfalso. apply (Qlt_not_le _ _ Hlt Hle).
Qed.

Lemma lt_Num_false (a b : Q) : lt (Num a) (Num b) = false <-> (b <= a)%Q.
Proof.
  cbn [lt]. rewrite negb_false_iff. apply Qle_bool_iff.
Qed.

Lemma clamp_finite (q : Q) :
  exists s, Math_max (int (-1)) (Math_min (int 1) (Num q)) = Num s /\ (s == clamp q)%Q.
Proof.
  unfold clamp, Math_min, Math_max, int.
  destruct (lt (Num (inject_Z 1)) (Num q)) eqn:Hhigh.
  - apply lt_Num in Hhigh.
    replace (lt (Num (inject_Z (-1))) (Num (inject_Z 1))) with true
      by reflexivity.
    exists (inject_Z 1). split; [reflexivity |].
    destruct (Qlt_le_dec q (-1)) as [Hlow | _];
      [unfold inject_Z in *; lra |].
    destruct (Qlt_le_dec 1 q) as [_ | Hno]; [reflexivity |].
    unfold inject_Z in *; lra.
  - apply lt_Num_false in Hhigh.
    destruct (lt (Num (inject_Z (-1))) (Num q)) eqn:Hlow.
    + apply lt_Num in Hlow. exists q. split; [reflexivity |].
      destruct (Qlt_le_dec q (-1)) as [Hno | _];
        [unfold inject_Z in *; lra |].
      destruct (Qlt_le_dec 1 q) as [Hno | _];
        [unfold inject_Z in *; lra | reflexivity].
    + apply lt_Num_false in Hlow. exists (inject_Z (-1)).
      split; [reflexivity |].
      destruct (Qlt_le_dec q (-1)) as [_ | Hge]; [reflexivity |].
      destruct (Qlt_le_dec 1 q) as [Hno | _];
        unfold inject_Z in *; lra.
Qed.

Lemma clamp_range (q : Q) : (-1 <= clamp q <= 1)%Q.
Proof.
  unfold clamp.
  destruct (Qlt_le_dec q (-1)); [lra |].
  destruct (Qlt_le_dec 1 q); lra.
Qed.

Lemma sample16_range (x : number) : (-32768 <= sample16 x <= 32767)%Z.
Proof.
  destruct x as [q | | |]; cbn [sample16]; try lia.
  cbv zeta. pose proof (clamp_range q) as [Hlow Hhigh].
  destruct (Qlt_le_dec (clamp q) 0) as [Hneg | Hpos].
  - split.
    + apply Z.le_trans with (Qceiling (inject_Z (-32768)));
        [by rewrite Qceiling_Z |].
      apply Qceiling_resp_le. unfold inject_Z. lra.
    + apply Z.le_trans with (Qceiling (inject_Z 0));
        [| rewrite Qceiling_Z; lia].
      apply Qceiling_resp_le. unfold inject_Z. lra.
  - split.
    + apply Z.le_trans with (Qfloor (inject_Z 0));
        [rewrite Qfloor_Z; lia |].
      apply Qfloor_resp_le. unfold inject_Z. lra.
    + apply Z.le_trans with (Qfloor (inject_Z 32767));
        [| by rewrite Qfloor_Z].
      apply Qfloor_resp_le. unfold inject_Z. lra.
Qed.

Lemma pcm16_sample16 (x : number) : pcm16 x = sample16 x.
Proof.
  destruct x as [q | | |]; try reflexivity.
  pose proof (sample16_range (Num q)) as Hrange.
  unfold pcm16. cbv zeta.
  destruct (clamp_finite q) as (s & -> & Hs).
  cbn [sample16] in *. cbv zeta in *. unfold int.
  destruct (lt (Num s) (Num (inject_Z 0))) eqn:Hneg.
  - apply lt_Num in Hneg.
    destruct (Qlt_le_dec (clamp q) 0) as [_ | Hno];
      [| unfold inject_Z in *; lra].
    cbn [mul].
    assert (Hprod : (s * inject_Z 32768 == clamp q * 32768)%Q)
      by (rewrite Hs; reflexivity).
    rewrite <- (Qceiling_comp _ _ Hprod) in *.
    rewrite ToInt16_small; rewrite trunc_ceiling; try reflexivity;
      try exact Hrange; unfold inject_Z in *; lra.
  - apply lt_Num_false in Hneg.
    destruct (Qlt_le_dec (clamp q) 0) as [Hno | _];
      [unfold inject_Z in *; lra |].
    cbn [mul].
    assert (Hprod : (s * inject_Z 32767 == clamp q * 32767)%Q)
      by (rewrite Hs; reflexivity).
    rewrite <- (Qfloor_comp _ _ Hprod) in *.
    rewrite ToInt16_small; rewrite trunc_floor; try reflexivity;
      try exact Hrange; unfold inject_Z in *; lra.
Qed.


Lemma pcm_bytes_sample16 (input : Float32Array) :
  pcm_bytes input = flat_map (fun x => uint16_le (sample16 x)) input.
Proof.
  unfold pcm_bytes.
  induction input as [| x input IH]; [reflexivity |].
  cbn [flat_map]. rewrite IH. f_equal.
  rewrite pcm16_sample16.
  apply int16_bytes, sample16_range.
Qed.

Example sample16_boundaries :
  sample16 (int 1) = 32767%Z /\ sample16 (int (-1)) = (-32768)%Z /\
  sample16 (Num (1 # 2)) = 16383%Z /\ sample16 (Num (- (1 # 2))) = (-16384)%Z /\
  sample16 (int 3) = 32767%Z /\ sample16 (int (-3)) = (-32768)%Z /\
  sample16 (int 0) = 0%Z.
Proof. repeat split; reflexivity. Qed.

(** C1.  For every sample sequence, integer rate [r] and channel count
    [numChannels], [encodeWAV] returns [44 + 2 |samples|] bytes: the 44 bytes
    of [wav_header] ("RIFF", uint32 [36 + 2 |samples|], "WAVE", "fmt ", uint32
    16, uint16 1, uint16 [numChannels], uint32 [r], uint32 [r * numChannels *
    2], uint16 [numChannels * 2], uint16 16, "data", uint32 [2 |samples|],
    little-endian), then the samples as 16-bit little-endian PCM.  Parsing the
    fields back gives the length, channel count and rate written: modulo the
    size of the field, and exactly when they fit it. *)
Theorem encodeWAV_header (samples : Float32Array) (r : Z) (g : globals) :
  exists view,
    encodeWAV samples (inject_Z r) g = (g, Normal view) /\
    length view = 44 + 2 * length samples /\
    take 44 view = wav_header (length samples) r (numChannels g) /\
    drop 44 view = flat_map (fun x => uint16_le (sample16 x)) samples /\
    getUint32 view 4 =
      Normal ((36 + 2 * Z.of_nat (length samples)) mod 2 ^ 32)%Z /\
    getUint16 view 22 = Normal (numChannels g mod 2 ^ 16)%Z /\
    getUint32 view 24 = Normal (r mod 2 ^ 32)%Z /\
    getUint32 view 40 = Normal ((2 * Z.of_nat (length samples)) mod 2 ^ 32)%Z /\
    ((0 <= r < 2 ^ 32)%Z -> getUint32 view 24 = Normal r) /\
    ((0 <= numChannels g < 2 ^ 16)%Z ->
       getUint16 view 22 = Normal (numChannels g)) /\
    ((2 * Z.of_nat (length samples) < 2 ^ 32)%Z ->
       getUint32 view 40 = Normal (2 * Z.of_nat (length samples))%Z).
Proof.
  eexists. split; [apply encodeWAV_bytes |].
  rewrite header_bytes_integer_rate.
  assert (Hlen : length (wav_header (length samples) r (numChannels g)) = 44)
    by reflexivity.
  assert (H4 : getUint32 (wav_header (length samples) r (numChannels g)
                          ++ pcm_bytes samples) 4 =
               Normal ((36 + 2 * Z.of_nat (length samples)) mod 2 ^ 32)%Z).
  { unfold getUint32, wav_header, uint32_le, uint16_le.
    cbn [app lookup list_lookup Nat.add]. f_equal. apply uint32_le_sum. }
  assert (H22 : getUint16 (wav_header (length samples) r (numChannels g)
                           ++ pcm_bytes samples) 22 =
                Normal (numChannels g mod 2 ^ 16)%Z).
  { unfold getUint16, wav_header, uint32_le, uint16_le.
    cbn [app lookup list_lookup Nat.add]. f_equal. apply uint16_le_sum. }
  assert (H24 : getUint32 (wav_header (length samples) r (numChannels g)
                           ++ pcm_bytes samples) 24 =
                Normal (r mod 2 ^ 32)%Z).
  { unfold getUint32, wav_header, uint32_le, uint16_le.
    cbn [app lookup list_lookup Nat.add]. f_equal. apply uint32_le_sum. }
  assert (H40 : getUint32 (wav_header (length samples) r (numChannels g)
                           ++ pcm_bytes samples) 40 =
                Normal ((2 * Z.of_nat (length samples)) mod 2 ^ 32)%Z).
  { unfold getUint32, wav_header, uint32_le, uint16_le.
    cbn [app lookup list_lookup Nat.add]. f_equal. apply uint32_le_sum. }
  split; [rewrite length_app, Hlen, length_pcm_bytes; reflexivity |].
  split; [by rewrite take_app_length' |].
  split; [rewrite drop_app_length' by done; apply pcm_bytes_sample16 |].
  split; [exact H4 |].
  split; [exact H22 |].
  split; [exact H24 |].
  split; [exact H40 |].
  split; [| split].
  - intros Hr. rewrite H24. f_equal. apply Z.mod_small. exact Hr.
  - intros Hc. rewrite H22. f_equal. apply Z.mod_small. exact Hc.
  - intros Hn. rewrite H40. f_equal. apply Z.mod_small. lia.
Qed.

(** The header of two samples at 44100 Hz on one channel, byte by byte. *)
Example encodeWAV_known_samples :
  encodeWAV [Num (1 # 2); int (-1)] 44100
    {| recLength := 2; recBuffers := [[[Num (1 # 2); int (-1)]]];
       sampleRate := 44100; numChannels := 1 |}
  = ({| recLength := 2; recBuffers := [[[Num (1 # 2); int (-1)]]];
        sampleRate := 44100; numChannels := 1 |},
     Normal [82; 73; 70; 70; 40; 0; 0; 0; 87; 65; 86; 69;
             102; 109; 116; 32; 16; 0; 0; 0; 1; 0; 1; 0;
             68; 172; 0; 0; 136; 88; 1; 0; 2; 0; 16; 0;
             100; 97; 116; 97; 4; 0; 0; 0;
             255; 63; 0; 128]%Z).
Proof. reflexivity. Qed.

(** C2.  The sample at every position [i] of every encoded buffer is
    written at bytes [44 + 2 i] and [44 + 2 i + 1] as the little-endian
    signed 16-bit integer [sample16 x]: [x] clamped to [-1, 1], times 32768
    when the clamped value is negative and times 32767 when it is not. *)
Theorem floatTo16BitPCM_scaling (samples : Float32Array) (rate : Q)
    (g : globals) (i : nat) (x : number) :
  samples !! i = Some x ->
  exists view,
    encodeWAV samples rate g = (g, Normal view) /\
    getInt16 view (44 + 2 * i) = Normal (sample16 x) /\
    view !! (44 + 2 * i) = Some (sample16 x mod 256)%Z /\
    view !! (44 + 2 * i + 1) = Some ((sample16 x / 256) mod 256)%Z /\
    (-32768 <= sample16 x <= 32767)%Z.
Proof.
  intros Hx.
  eexists. split; [apply encodeWAV_bytes |].
  pose proof (sample16_range x) as Hrange.
  destruct (lookup_pcm_bytes samples i x Hx) as (front & rest & Hpcm & Hfront).
  rewrite Hpcm, pcm16_sample16, (int16_bytes _ Hrange).
  rewrite (app_assoc (header_bytes _ _ _)).
  assert (Hoffset : length (header_bytes (length samples) rate (numChannels g)
                            ++ front) = 44 + 2 * i)
    by (rewrite length_app, length_header_bytes; lia).
  split; [| split; [| split]].
  - by apply read_int16_le.
  - rewrite <- Hoffset, lookup_at. reflexivity.
  - rewrite <- Hoffset, lookup_after. reflexivity.
  - exact Hrange.
Qed.

Lemma floatTo16BitPCM_scaling_witness :
  exists view,
    encodeWAV [Num (1 # 2); int (-1)] 44100
      {| recLength := 2; recBuffers := []; sampleRate := 44100;
         numChannels := 1 |}
    = ({| recLength := 2; recBuffers := []; sampleRate := 44100;
          numChannels := 1 |}, Normal view) /\
    getInt16 view (44 + 2 * 1) = Normal (sample16 (int (-1))) /\
    view !! (44 + 2 * 1) = Some (sample16 (int (-1)) mod 256)%Z /\
    view !! (44 + 2 * 1 + 1) = Some ((sample16 (int (-1)) / 256) mod 256)%Z /\
    (-32768 <= sample16 (int (-1)) <= 32767)%Z.
Proof.
  apply (floatTo16BitPCM_scaling [Num (1 # 2); int (-1)] 44100 _ 1 (int (-1))).
  reflexivity.
Defined.

End EncodeFacts.

(* ===================================================================== *)
(** * Properties of rounding *)
(* ===================================================================== *)

Module RoundingFacts.
Import JS.
#[local] Open Scope Q_scope.

(** ** Powers of 2 *)

Lemma pow2_pos (z : Z) : (0 < 2 ^ z)%Q.
Proof. apply Qpower_0_lt. reflexivity. Qed.

Lemma pow2_add (a b : Z) : (2 ^ (a + b) == 2 ^ a * 2 ^ b)%Q.
Proof. apply Qpower_plus. discriminate. Qed.

Lemma pow2_le (a b : Z) : (a <= b)%Z -> (2 ^ a <= 2 ^ b)%Q.
Proof. intros Hab. apply Qpower_le_compat_l; [exact Hab | discriminate]. Qed.

Lemma pow2_lt_inv (a b : Z) : (2 ^ a < 2 ^ b)%Q -> (a < b)%Z.
Proof. intros Hab. apply (Qpower_lt_compat_l_inv 2); [exact Hab | reflexivity]. Qed.

Lemma pow2_inject (n : Z) : (0 <= n)%Z -> (inject_Z (2 ^ n) == 2 ^ n)%Q.
Proof. intros Hn. by rewrite Zpower_Qpower. Qed.

Lemma pow2_succ (a : Z) : (2 ^ (a + 1) == 2 * 2 ^ a)%Q.
Proof. rewrite pow2_add. change (2 ^ 1)%Q with 2%Q. ring. Qed.

(** ** The exponent *)

Lemma floor_log2_spec (q : Q) :
  (0 < q)%Q ->
  (2 ^ floor_log2 q <= q < 2 ^ (floor_log2 q + 1))%Q.
Proof.
  intros Hq. destruct q as [n d]. unfold floor_log2. cbn [Qnum Qden].
  assert (Hn : (0 < n)%Z) by (unfold Qlt in Hq; cbn in Hq; lia).
  set (ln := Z.log2 n). set (ld := Z.log2 (Z.pos d)).
  set (e := (ln - ld)%Z).
  destruct (Z.log2_spec n Hn) as [Hn1 Hn2]. fold ln in Hn1, Hn2.
  destruct (Z.log2_spec (Z.pos d) ltac:(lia)) as [Hd1 Hd2]. fold ld in Hd1, Hd2.
  assert (Hln : (0 <= ln)%Z) by apply Z.log2_nonneg.
  assert (Hld : (0 <= ld)%Z) by apply Z.log2_nonneg.
  pose proof (pow2_pos ld) as HA.
  assert (HqD : ((n # d) * inject_Z (Z.pos d) == inject_Z n)%Q).
  { unfold Qeq, Qmult, inject_Z. cbn. lia. }
  assert (HD1 : (2 ^ ld <= inject_Z (Z.pos d))%Q).
  { rewrite <- pow2_inject by exact Hld. by rewrite <- Zle_Qle. }
  assert (HD2 : (inject_Z (Z.pos d) < 2 * 2 ^ ld)%Q).
  { rewrite <- pow2_succ, <- pow2_inject by lia. rewrite <- Zlt_Qlt.
    replace (ld + 1)%Z with (Z.succ ld) by lia. exact Hd2. }
  assert (HN1 : (2 ^ ln <= inject_Z n)%Q).
  { rewrite <- pow2_inject by exact Hln. by rewrite <- Zle_Qle. }
  assert (HN2 : (inject_Z n < 2 * 2 ^ ln)%Q).
  { rewrite <- pow2_succ, <- pow2_inject by lia. rewrite <- Zlt_Qlt.
    replace (ln + 1)%Z with (Z.succ ln) by lia. exact Hn2. }
  assert (He : (2 ^ ln == 2 ^ e * 2 ^ ld)%Q).
  { rewrite <- pow2_add. unfold e. by replace (ln - ld + ld)%Z with ln by lia. }
  assert (Hupper : ((n # d) < 2 * 2 ^ e)%Q).
  { apply (Qmult_lt_r _ _ (2 ^ ld) HA).
    apply Qle_lt_trans with ((n # d) * inject_Z (Z.pos d)).
    - apply Qmult_le_l; [exact Hq | exact HD1].
    - rewrite HqD. rewrite <- Qmult_assoc, <- He. exact HN2. }
  assert (Hlower : (2 ^ e < 2 * (n # d))%Q).
  { apply (Qmult_lt_r _ _ (2 ^ ld) HA). rewrite <- He.
    apply Qle_lt_trans with (inject_Z n); [exact HN1 |].
    rewrite <- HqD.
    assert (Hr : 2 * (n # d) * 2 ^ ld == (n # d) * (2 * 2 ^ ld)) by ring.
    rewrite Hr.
    apply Qmult_lt_l; [exact Hq | exact HD2]. }
  destruct (Qle_bool (2 ^ e) (n # d)) eqn:Htest.
  - apply Qle_bool_iff in Htest. split; [exact Htest |].
    rewrite pow2_succ. exact Hupper.
  - assert (Hbelow : ((n # d) < 2 ^ e)%Q).
    { apply Qnot_le_lt. intros Hle. apply Qle_bool_iff in Hle. congruence. }
    replace (e - 1 + 1)%Z with e by lia.
    split; [| exact Hbelow].
    assert (Hhalf : (2 ^ e == 2 * 2 ^ (e - 1))%Q).
    { rewrite <- pow2_succ. by replace (e - 1 + 1)%Z with e by lia. }
    rewrite Hhalf in Hlower. lra.
Qed.

Lemma floor_log2_monotone (q1 q2 : Q) :
  (0 < q1)%Q -> (q1 <= q2)%Q -> (floor_log2 q1 <= floor_log2 q2)%Z.
Proof.
  intros Hq1 Hle.
  destruct (floor_log2_spec q1 Hq1) as [Hlow _].
  destruct (floor_log2_spec q2 ltac:(lra)) as [_ Hhigh].
  cut (floor_log2 q1 < floor_log2 q2 + 1)%Z; [lia |].
  apply pow2_lt_inv. lra.
Qed.

(** ** Rounding to an integer *)

Lemma round_half_even_floor (s : Q) :
  (round_half_even s = Qfloor s /\ (s - inject_Z (Qfloor s) <= 1 # 2)%Q) \/
  (round_half_even s = (Qfloor s + 1)%Z /\ (1 # 2 <= s - inject_Z (Qfloor s))%Q).
Proof.
  unfold round_half_even. cbv zeta.
  destruct (Qcompare_spec (s - inject_Z (Qfloor s)) (1 # 2)) as [Heq | Hlt | Hgt].
  - destruct (Z.even (Qfloor s)); [left | right]; split; try reflexivity;
      rewrite Heq; apply Qle_refl.
  - left. split; [reflexivity | lra].
  - right. split; [reflexivity | lra].
Qed.

Lemma round_half_even_lower (s : Q) (a : Z) :
  (inject_Z a <= s)%Q -> (a <= round_half_even s)%Z.
Proof.
  intros Ha. apply Qfloor_resp_le in Ha. rewrite Qfloor_Z in Ha.
  destruct (round_half_even_floor s) as [[-> _] | [-> _]]; lia.
Qed.

Lemma round_half_even_upper (s : Q) (b : Z) :
  (s <= inject_Z b)%Q -> (round_half_even s <= b)%Z.
Proof.
  intros Hb. pose proof (Qfloor_le s) as Hfloor.
  destruct (round_half_even_floor s) as [[-> _] | [-> Hhalf]].
  - rewrite Zle_Qle. lra.
  - cut (Qfloor s < b)%Z; [lia |]. rewrite Zlt_Qlt. lra.
Qed.

Lemma round_half_even_integer (z : Z) : round_half_even (inject_Z z) = z.
Proof.
  apply Z.le_antisymm.
  - apply round_half_even_upper, Qle_refl.
  - apply round_half_even_lower, Qle_refl.
Qed.

Lemma round_half_even_monotone (s1 s2 : Q) :
  (s1 <= s2)%Q -> (round_half_even s1 <= round_half_even s2)%Z.
Proof.
  intros Hle. pose proof (Qfloor_resp_le _ _ Hle) as Hfloor.
  destruct (Z.eq_dec (Qfloor s1) (Qfloor s2)) as [Hsame | Hne].
  - unfold round_half_even. cbv zeta. rewrite Hsame.
    destruct (Qcompare_spec (s1 - inject_Z (Qfloor s2)) (1 # 2)),
             (Qcompare_spec (s2 - inject_Z (Qfloor s2)) (1 # 2));
      try lia; try lra; destruct (Z.even (Qfloor s2)); lia.
  - destruct (round_half_even_floor s1) as [[-> _] | [-> _]],
             (round_half_even_floor s2) as [[-> _] | [-> _]]; lia.
Qed.

#[local] Instance round_half_even_comp : Proper (Qeq ==> eq) round_half_even.
Proof.
  intros s1 s2 Heq. apply Z.le_antisymm;
    apply round_half_even_monotone; rewrite Heq; apply Qle_refl.
Qed.


(** ** Rounding to a format *)

Section Format.

Variables prec emin : Z.
Hypothesis prec_positive : (1 <= prec)%Z.

(** The unit in the last place, and what [nearest] is in its terms. *)
Lemma nearest_unfold (q : Q) :
  nearest prec emin q
  = inject_Z (round_half_even
                (q / 2 ^ (Z.max (floor_log2 q) emin - (prec - 1))))
    * 2 ^ (Z.max (floor_log2 q) emin - (prec - 1)).
Proof. reflexivity. Qed.

Lemma scaled (q : Q) (u : Z) : q / 2 ^ u * 2 ^ u == q.
Proof. field. pose proof (pow2_pos u). lra. Qed.

Lemma nearest_nonneg (q : Q) : 0 < q -> 0 <= nearest prec emin q.
Proof.
  intros Hq. rewrite nearest_unfold.
  set (u := (Z.max (floor_log2 q) emin - (prec - 1))%Z).
  pose proof (pow2_pos u) as HU.
  apply Qmult_le_0_compat; [| lra].
  rewrite <- (Zle_Qle 0). apply round_half_even_lower.
  change (inject_Z 0) with 0. apply Qle_shift_div_l; lra.
Qed.

Lemma nearest_upper (q : Q) :
  0 < q -> nearest prec emin q <= 2 ^ (Z.max (floor_log2 q) emin + 1).
Proof.
  intros Hq. rewrite nearest_unfold.
  set (k := Z.max (floor_log2 q) emin).
  set (u := (k - (prec - 1))%Z).
  pose proof (pow2_pos u) as HU.
  destruct (floor_log2_spec q Hq) as [_ Hhigh].
  assert (Hk : 2 ^ (floor_log2 q + 1) <= 2 ^ (k + 1)) by (apply pow2_le; lia).
  assert (Hsplit : 2 ^ (k + 1) == inject_Z (2 ^ prec) * 2 ^ u).
  { rewrite pow2_inject by lia. rewrite <- pow2_add.
    unfold u. by replace (prec + (k - (prec - 1)))%Z with (k + 1)%Z by lia. }
  rewrite Hsplit. apply Qmult_le_r; [exact HU |].
  rewrite <- Zle_Qle. apply round_half_even_upper.
  apply Qle_shift_div_r; [exact HU |]. rewrite <- Hsplit. lra.
Qed.

Lemma nearest_lower (q : Q) :
  0 < q -> (emin <= floor_log2 q)%Z -> 2 ^ floor_log2 q <= nearest prec emin q.
Proof.
  intros Hq Hnormal. rewrite nearest_unfold.
  rewrite Z.max_l by exact Hnormal.
  set (e := floor_log2 q).
  set (u := (e - (prec - 1))%Z).
  pose proof (pow2_pos u) as HU.
  destruct (floor_log2_spec q Hq) as [Hlow _]. fold e in Hlow.
  assert (Hsplit : 2 ^ e == inject_Z (2 ^ (prec - 1)) * 2 ^ u).
  { rewrite pow2_inject by lia. rewrite <- pow2_add.
    unfold u. by replace (prec - 1 + (e - (prec - 1)))%Z with e by lia. }
  rewrite Hsplit. apply Qmult_le_r; [exact HU |].
  rewrite <- Zle_Qle. apply round_half_even_lower.
  apply Qle_shift_div_l; [exact HU |]. rewrite <- Hsplit. exact Hlow.
Qed.

(** Rounding keeps the order. *)
Lemma nearest_monotone (q1 q2 : Q) :
  0 < q1 -> q1 <= q2 -> nearest prec emin q1 <= nearest prec emin q2.
Proof.
  intros Hq1 Hle.
  assert (Hq2 : 0 < q2) by lra.
  pose proof (floor_log2_monotone q1 q2 Hq1 Hle) as He.
  destruct (Z.eq_dec (Z.max (floor_log2 q1) emin) (Z.max (floor_log2 q2) emin))
    as [Hsame | Hne].
  - rewrite !nearest_unfold, Hsame.
    set (u := (Z.max (floor_log2 q2) emin - (prec - 1))%Z).
    pose proof (pow2_pos u) as HU.
    apply Qmult_le_r; [exact HU |].
    rewrite <- Zle_Qle. apply round_half_even_monotone.
    apply Qmult_le_r with (2 ^ u); [exact HU |].
    rewrite !scaled. exact Hle.
  - apply Qle_trans with (2 ^ (Z.max (floor_log2 q1) emin + 1));
      [by apply nearest_upper |].
    apply Qle_trans with (2 ^ floor_log2 q2);
      [apply pow2_le; lia | apply nearest_lower; [exact Hq2 | lia]].
Qed.

Lemma nearest_comp (q1 q2 : Q) :
  0 < q1 -> q1 == q2 -> nearest prec emin q1 == nearest prec emin q2.
Proof.
  intros Hq1 Heq. apply Qle_antisym; apply nearest_monotone; lra.
Qed.

(** An integer below [2^prec] is a number of the format. *)
Lemma nearest_integer (z : Z) :
  (emin <= 0)%Z -> (0 < z < 2 ^ prec)%Z ->
  nearest prec emin (inject_Z z) == inject_Z z.
Proof.
  intros Hemin [Hpos Hbelow].
  assert (Hq : 0 < inject_Z z) by (rewrite <- (Zlt_Qlt 0); exact Hpos).
  destruct (floor_log2_spec _ Hq) as [Hlow _].
  assert (He : (floor_log2 (inject_Z z) < prec)%Z).
  { apply pow2_lt_inv. apply Qle_lt_trans with (inject_Z z); [exact Hlow |].
    rewrite <- pow2_inject by lia. by rewrite <- Zlt_Qlt. }
  rewrite nearest_unfold.
  set (u := (Z.max (floor_log2 (inject_Z z)) emin - (prec - 1))%Z).
  assert (Hu : (u <= 0)%Z) by lia.
  pose proof (pow2_pos u) as HU.
  assert (Hscale : inject_Z z / 2 ^ u == inject_Z (z * 2 ^ (- u))).
  { rewrite inject_Z_mult, pow2_inject by lia.
    rewrite Qpower_opp. field. lra. }
  rewrite Hscale, round_half_even_integer, <- Hscale.
  apply scaled.
Qed.

End Format.


Lemma sign_spec (q : Q) : CompareSpec (q == 0) (q < 0) (0 < q) (sign q).
Proof.
  destruct q as [n d]. unfold sign, Qeq, Qlt. cbn [Qnum Qden].
  destruct (Z.compare_spec n 0); constructor; lia.
Qed.

Lemma leq_Num (x y : Q) : leq (Num x) (Num y) <-> x <= y.
Proof. reflexivity. Qed.

Lemma leq_trans (a b c : number) : leq a b -> leq b c -> leq a c.
Proof.
  destruct a, b, c; cbn [leq]; try tauto. apply Qle_trans.
Qed.

Lemma Qred_integer (z : Z) : Qred (inject_Z z) = inject_Z z.
Proof.
  pose proof (Qred_correct (inject_Z z)) as Heq.
  pose proof (gcd_Qred (inject_Z z)) as Hgcd.
  destruct (Qred (inject_Z z)) as [a b].
  unfold Qeq, inject_Z in *. cbn [Qnum Qden] in *.
  assert (Ha : a = (z * Z.pos b)%Z) by lia.
  rewrite Ha, Z.gcd_comm, (Z.mul_comm z), Z.gcd_mul_diag_l in Hgcd by lia.
  assert (b = 1%positive) as -> by lia.
  f_equal. lia.
Qed.

Section Bounded.

Variables prec emin emax : Z.
Hypothesis prec_positive : (1 <= prec)%Z.

Lemma round_positive_monotone (q1 q2 : Q) :
  0 < q1 -> q1 <= q2 ->
  leq (round_positive prec emin emax q1) (round_positive prec emin emax q2).
Proof.
  intros Hq1 Hle. unfold round_positive. cbv zeta.
  pose proof (nearest_monotone prec emin prec_positive q1 q2 Hq1 Hle) as Hv.
  destruct (Qle_bool (2 ^ (emax + 1)) (nearest prec emin q1)) eqn:Hover1.
  - apply Qle_bool_iff in Hover1.
    rewrite (proj2 (Qle_bool_iff _ _)) by lra. exact I.
  - destruct (Qle_bool (2 ^ (emax + 1)) (nearest prec emin q2)); [exact I |].
    apply leq_Num, Qred_le. exact Hv.
Qed.

Lemma round_positive_nonneg (q : Q) :
  0 < q -> leq (Num 0) (round_positive prec emin emax q).
Proof.
  intros Hq. unfold round_positive. cbv zeta.
  destruct (Qle_bool _ _); [exact I |].
  apply leq_Num. rewrite Qred_correct. by apply nearest_nonneg.
Qed.

Lemma round_to_positive (q : Q) :
  0 < q -> round_to prec emin emax q = round_positive prec emin emax q.
Proof.
  intros Hq. unfold round_to. destruct (sign_spec q); [lra | lra | reflexivity].
Qed.

Lemma round_to_zero (q : Q) : q == 0 -> round_to prec emin emax q = Num 0.
Proof.
  intros Hq. unfold round_to. destruct (sign_spec q); [reflexivity | lra | lra].
Qed.

Lemma round_to_negative (q : Q) :
  q < 0 ->
  round_to prec emin emax q
  = match round_positive prec emin emax (- q) with
    | Num v => Num (Qred (- v))
    | _ => NegInfinity
    end.
Proof.
  intros Hq. unfold round_to. destruct (sign_spec q); [lra | reflexivity | lra].
Qed.

(** Rounding keeps the order and the sign. *)
Lemma round_to_monotone (q1 q2 : Q) :
  q1 <= q2 -> leq (round_to prec emin emax q1) (round_to prec emin emax q2).
Proof.
  intros Hle.
  destruct (Qlt_le_dec q1 0) as [Hneg1 | Hnonneg1].
  - rewrite (round_to_negative q1 Hneg1).
    destruct (Qlt_le_dec q2 0) as [Hneg2 | Hnonneg2].
    + rewrite (round_to_negative q2 Hneg2).
      pose proof (round_positive_monotone (- q2) (- q1) ltac:(lra) ltac:(lra))
        as Hmono.
      pose proof (round_positive_nonneg (- q2) ltac:(lra)) as Hsign.
      destruct (round_positive prec emin emax (- q2)) as [v2 | | |],
               (round_positive prec emin emax (- q1)) as [v1 | | |];
        cbn [leq] in *; try tauto.
      rewrite !Qred_correct. lra.
    + pose proof (round_positive_nonneg (- q1) ltac:(lra)) as Hsign1.
      assert (Hsign2 : leq (Num 0) (round_to prec emin emax q2)).
      { destruct (Qeq_dec q2 0) as [Hzero | Hnonzero].
        - rewrite (round_to_zero q2 Hzero). apply Qle_refl.
        - rewrite round_to_positive by lra. apply round_positive_nonneg. lra. }
      destruct (round_positive prec emin emax (- q1)) as [v1 | | |],
               (round_to prec emin emax q2) as [v2 | | |];
        cbn [leq] in *; try tauto.
      rewrite Qred_correct. lra.
  - destruct (Qeq_dec q1 0) as [Hzero | Hnonzero].
    + rewrite (round_to_zero q1 Hzero).
      destruct (Qeq_dec q2 0) as [Hzero2 | Hnonzero2].
      * rewrite (round_to_zero q2 Hzero2). apply Qle_refl.
      * rewrite round_to_positive by lra. apply round_positive_nonneg. lra.
    + rewrite !round_to_positive by lra.
      apply round_positive_monotone; lra.
Qed.

(** An integer below [2^prec] in size is rounded to itself. *)
Lemma round_to_integer (z : Z) :
  (emin <= 0)%Z -> (prec <= emax + 1)%Z -> (Z.abs z < 2 ^ prec)%Z ->
  round_to prec emin emax (inject_Z z) = Num (inject_Z z).
Proof.
  intros Hemin Hemax Hz.
  assert (Hfits : forall n : Z, (0 < n < 2 ^ prec)%Z ->
            round_positive prec emin emax (inject_Z n) = Num (inject_Z n)).
  { intros n Hn. unfold round_positive. cbv zeta.
    pose proof (nearest_integer prec emin prec_positive n Hemin Hn) as Hnear.
    destruct (Qle_bool (2 ^ (emax + 1)) (nearest prec emin (inject_Z n)))
      eqn:Hover.
    - apply Qle_bool_iff in Hover. rewrite Hnear in Hover.
      assert (Hn' : inject_Z n < 2 ^ prec).
      { rewrite <- pow2_inject by lia. rewrite <- Zlt_Qlt. lia. }
      pose proof (pow2_le prec (emax + 1) Hemax). lra.
    - f_equal. rewrite (Qred_complete _ _ Hnear). apply Qred_integer. }
  destruct (Z.compare_spec z 0) as [-> | Hneg | Hpos].
  - reflexivity.
  - rewrite round_to_negative by (rewrite <- (Zlt_Qlt _ 0); exact Hneg).
    rewrite <- inject_Z_opp, Hfits by lia.
    f_equal. rewrite <- inject_Z_opp, Z.opp_involutive.
    apply Qred_integer.
  - rewrite round_to_positive by (rewrite <- (Zlt_Qlt 0); exact Hpos).
    apply Hfits. lia.
Qed.

End Bounded.

(** ** The two formats of the machine *)

Lemma double_monotone (q1 q2 : Q) : q1 <= q2 -> leq (double q1) (double q2).
Proof. apply round_to_monotone. lia. Qed.

Lemma fround_monotone (q1 q2 : Q) : q1 <= q2 -> leq (fround q1) (fround q2).
Proof. apply round_to_monotone. lia. Qed.

Lemma double_integer (z : Z) :
  (Z.abs z < 2 ^ 53)%Z -> double (inject_Z z) = Num (inject_Z z).
Proof. apply round_to_integer; lia. Qed.

Lemma fround_integer (z : Z) :
  (Z.abs z < 2 ^ 24)%Z -> fround (inject_Z z) = Num (inject_Z z).
Proof. apply round_to_integer; lia. Qed.

(** A rounded operation keeps the order of its exact results. *)
Lemma rounded_monotone (r : Q -> number) (a b : number) :
  (forall q1 q2, q1 <= q2 -> leq (r q1) (r q2)) ->
  (forall q, leq (Num q) (r q) \/ leq (r q) (Num q)) ->
  leq a b -> leq (rounded r a) (rounded r b).
Proof.
  intros Hmono Hreal Hle.
  destruct a as [x | | |], b as [y | | |]; cbn [leq rounded] in *; try tauto.
  - by apply Hmono.
  - destruct (Hreal x) as [H | H]; destruct (r x); cbn [leq] in *; tauto.
  - destruct (Hreal y) as [H | H]; destruct (r y); cbn [leq] in *; tauto.
Qed.

Lemma round_monotone (x y : Q) : x <= y -> (round x <= round y)%Z.
Proof. intros Hle. unfold round. apply Qfloor_resp_le. lra. Qed.

Lemma Math_round_monotone (a b : number) :
  leq a b -> leq (Math_round a) (Math_round b).
Proof.
  destruct a as [x | | |], b as [y | | |]; cbn [leq Math_round]; try tauto.
  intros Hle. unfold int. cbn [leq]. rewrite <- Zle_Qle. by apply round_monotone.
Qed.

Lemma round_integer (z : Z) : round (inject_Z z) = z.
Proof.
  unfold round. apply Z.le_antisymm.
  - cut (Qfloor (inject_Z z + (1 # 2)) < z + 1)%Z; [lia |].
    pose proof (Qfloor_le (inject_Z z + (1 # 2))).
    rewrite Zlt_Qlt, inject_Z_plus. change (inject_Z 1) with 1. lra.
  - rewrite <- (Qfloor_Z z) at 1. apply Qfloor_resp_le. lra.
Qed.

End RoundingFacts.

(* ===================================================================== *)
(** * Properties of the resampler *)
(* ===================================================================== *)

Module DownsampleFacts.
Import JS Worker.

Lemma Qeq_bool_true (a b : Q) : (a == b)%Q -> Qeq_bool a b = true.
Proof. apply Qeq_bool_iff. Qed.

Lemma Qeq_bool_false (a b : Q) : ~ (a == b)%Q -> Qeq_bool a b = false.
Proof.
  intros Hne. destruct (Qeq_bool a b) eqn:Heq; [| reflexivity].
  apply Qeq_bool_iff in Heq. contradiction.
Qed.

Lemma Qle_bool_false (a b : Q) : (b < a)%Q -> Qle_bool a b = false.
Proof.
  intros Hlt. destruct (Qle_bool a b) eqn:Hle; [| reflexivity].
  apply Qle_bool_iff in Hle. exfalso. apply (Qlt_not_le _ _ Hlt Hle).
Qed.

Lemma Qle_bool_true (a b : Q) : (a <= b)%Q -> Qle_bool a b = true.
Proof. apply Qle_bool_iff. Qed.

(** C8.  When the target rate equals the worker's sample rate,
    [downsampleBuffer] returns its input as it is, and leaves the globals
    alone. *)
Theorem downsampleBuffer_same_rate (buffer : Float32Array) (rate : Q) (g : globals) :
  (rate == sampleRate g)%Q ->
  downsampleBuffer buffer rate g = (g, Normal buffer).
Proof.
  intros Hsame. unfold downsampleBuffer.
  rewrite (Qeq_bool_true _ _ Hsame). reflexivity.
Qed.

Lemma downsampleBuffer_same_rate_witness :
  downsampleBuffer [int 1; int 2; int 3] 48000
    {| recLength := 3; recBuffers := [[[int 1; int 2; int 3]]];
       sampleRate := 48000; numChannels := 1 |}
  = ({| recLength := 3; recBuffers := [[[int 1; int 2; int 3]]];
        sampleRate := 48000; numChannels := 1 |},
     Normal [int 1; int 2; int 3]).
Proof.
  apply (downsampleBuffer_same_rate [int 1; int 2; int 3] 48000).
  reflexivity.
Defined.

(** C7.  When the target rate is above the worker's sample rate,
    [downsampleBuffer] throws the error of an unsupported rate, whatever the
    input, and the globals (the buffered chunks among them) are as before. *)
Theorem downsampleBuffer_upsampling (buffer : Float32Array) (rate : Q) (g : globals) :
  (sampleRate g < rate)%Q ->
  downsampleBuffer buffer rate g = (g, Throw (Error upsampling)).
Proof.
  intros Hup. unfold downsampleBuffer.
  rewrite Qeq_bool_false by (intros Heq; rewrite Heq in Hup; apply (Qlt_irrefl _ Hup)).
  rewrite (Qle_bool_false _ _ Hup). reflexivity.
Qed.

Lemma downsampleBuffer_upsampling_witness :
  downsampleBuffer [int 1; int 2; int 3] 48000
    {| recLength := 3; recBuffers := [[[int 1; int 2; int 3]]];
       sampleRate := 44100; numChannels := 1 |}
  = ({| recLength := 3; recBuffers := [[[int 1; int 2; int 3]]];
        sampleRate := 44100; numChannels := 1 |},
     Throw (Error upsampling)).
Proof.
  apply (downsampleBuffer_upsampling [int 1; int 2; int 3] 48000).
  reflexivity.
Defined.

(** ** The blocks of the averaging loop *)

Lemma sum_block_empty (buffer : Float32Array) (nextOffsetBuffer : number)
    (i : Z) (accum : number) (count : Z) :
  lt (int i) nextOffsetBuffer = false \/ (Z.of_nat (length buffer) <= i)%Z ->
  sum_block buffer nextOffsetBuffer i accum count = (accum, count).
Proof.
  intros Hempty.
  funelim (sum_block buffer nextOffsetBuffer i accum count);
    [| reflexivity].
  destruct a as [Hbelow Hinside]. destruct Hempty; [congruence | lia].
Qed.

(** An empty block averages to [0 / 0], which is NaN. *)
Lemma average_block_empty (buffer : Float32Array) (z : Z)
    (nextOffsetBuffer : number) :
  lt (int z) nextOffsetBuffer = false
  \/ lt (int z) (int (Z.of_nat (length buffer))) = false ->
  average_block buffer (int z) nextOffsetBuffer = NaN.
Proof.
  intros Hempty. unfold average_block, int at 1.
  rewrite EncodeFacts.trunc_int, sum_block_empty; [reflexivity |].
  destruct Hempty as [Hnext | Hlength]; [by left | right].
  apply EncodeFacts.lt_Num_false in Hlength.
  by rewrite <- Zle_Qle in Hlength.
Qed.

Lemma average_block_beyond (buffer : Float32Array) (nextOffsetBuffer : number) :
  average_block buffer PosInfinity nextOffsetBuffer = NaN.
Proof. reflexivity. Qed.

Lemma length_store32 (a : Float32Array) (i : nat) (x : number) :
  length (store32 a i x) = length a.
Proof. unfold store32. apply length_insert. Qed.

Lemma downsample_loop_spec (buffer : Float32Array) (sampleRateRatio : Q)
    (result : Float32Array) (offsetResult : nat) (offsetBuffer : number) :
  offsetBuffer = boundary sampleRateRatio (Z.of_nat offsetResult) ->
  let res := downsample_loop buffer sampleRateRatio result offsetResult offsetBuffer in
  length res = length result /\
  (forall j, j < offsetResult -> res !! j = result !! j) /\
  (forall i, offsetResult <= i < length result ->
     res !! i =
     Some (rounded fround
             (average_block buffer
                (boundary sampleRateRatio (Z.of_nat i))
                (boundary sampleRateRatio (Z.of_nat i + 1))))).
Proof.
  funelim (downsample_loop buffer sampleRateRatio result offsetResult offsetBuffer).
  all: intros Hoffset; cbn zeta.
  - destruct H as (IHlen & IHlow & IHblocks).
    { rewrite Nat2Z.inj_add. reflexivity. }
    rewrite length_store32 in *.
    split; [exact IHlen |].
    split.
    + intros j Hj. rewrite IHlow by lia.
      unfold store32. apply list_lookup_insert_ne. lia.
    + intros i Hi.
      destruct (decide (i = offsetResult)) as [-> | Hne].
      * rewrite IHlow by lia.
        unfold store32. rewrite list_lookup_insert_eq by lia.
        rewrite Hoffset. reflexivity.
      * apply IHblocks. lia.
  - split; [reflexivity |].
    split; [reflexivity |].
    intros i Hi. lia.
Qed.

Lemma sign_zero (q : Q) : sign q = Eq -> (q == 0)%Q.
Proof.
  destruct q as [a b]. unfold sign, Qeq. cbn [Qnum Qden].
  intros Ha. apply Z.compare_eq in Ha. lia.
Qed.

Lemma sign_negative (q : Q) : sign q = Lt -> (q < 0)%Q.
Proof.
  destruct q as [a b]. unfold sign, Qlt. cbn [Qnum Qden].
  intros Ha. change (a < 0)%Z in Ha. lia.
Qed.

Lemma sign_positive (q : Q) : (0 < q)%Q -> sign q = Gt.
Proof.
  destruct q as [a b]. unfold Qlt, sign. cbn [Qnum Qden].
  intros Ha. apply Z.compare_gt_iff. lia.
Qed.

Lemma sign_gt (q : Q) : sign q = Gt -> (0 < q)%Q.
Proof.
  destruct q as [a b]. unfold sign, Qlt. cbn [Qnum Qden].
  intros Ha. apply Z.compare_gt_iff in Ha. lia.
Qed.

Lemma sign_of_zero (q : Q) : (q == 0)%Q -> sign q = Eq.
Proof.
  destruct q as [a b]. unfold Qeq, sign. cbn [Qnum Qden].
  intros Ha. apply Z.compare_eq_iff. lia.
Qed.

Lemma sign_of_negative (q : Q) : (q < 0)%Q -> sign q = Lt.
Proof.
  destruct q as [a b]. unfold Qlt, sign. cbn [Qnum Qden].
  intros Ha. apply Z.compare_lt_iff. lia.
Qed.

(** A rounded number is a number. *)
Lemma double_not_NaN (q : Q) : double q <> NaN.
Proof.
  unfold double, round_to, round_positive. cbv zeta.
  destruct (sign q); [discriminate | |]; repeat destruct (Qle_bool _ _);
    discriminate.
Qed.

(** The loop of [downsampleBuffer] is modelled for a finite ratio.  Past
    the two guards the ratio is a number; it is not finite when [rate] is 0
    or the quotient overflows: the new length is then
    [round (len / Infinity) = 0], and [while (offsetResult < result.length)]
    does not take a turn. *)
Lemma infinite_ratio_no_turn (buffer : Float32Array) (rate : Q) (g : globals) :
  (forall ratio, div64 (Num (sampleRate g)) (Num rate) <> Num ratio) ->
  (rate <= sampleRate g)%Q -> ~ (rate == sampleRate g)%Q ->
  (div64 (Num (sampleRate g)) (Num rate) = PosInfinity
   \/ div64 (Num (sampleRate g)) (Num rate) = NegInfinity) /\
  Float32Array_of_length
    (Math_round (div64 (int (Z.of_nat (length buffer)))
                   (div64 (Num (sampleRate g)) (Num rate)))) = Normal [] /\
  downsampleBuffer buffer rate g = (g, Normal []).
Proof.
  intros Hinfinite Hle Hne.
  assert (Hratio : div64 (Num (sampleRate g)) (Num rate) = PosInfinity
                   \/ div64 (Num (sampleRate g)) (Num rate) = NegInfinity).
  { destruct (div64 (Num (sampleRate g)) (Num rate)) as [ratio | | |] eqn:Hdiv;
      [exfalso; by eapply Hinfinite | by left | by right |].
    exfalso. revert Hdiv. unfold div64. cbn [div].
    destruct (sign rate) eqn:Hrate; cbn [rounded];
      try apply double_not_NaN.
    apply sign_zero in Hrate.
    destruct (sign (sampleRate g)) eqn:Hsr; try discriminate.
    apply sign_zero in Hsr. intros _. apply Hne. by rewrite Hrate, Hsr. }
  split; [exact Hratio |].
  assert (Hlength : Float32Array_of_length
            (Math_round (div64 (int (Z.of_nat (length buffer)))
                           (div64 (Num (sampleRate g)) (Num rate)))) = Normal []).
  { destruct Hratio as [-> | ->]; reflexivity. }
  split; [exact Hlength |].
  unfold downsampleBuffer. f_equal.
  rewrite (Qeq_bool_false _ _ Hne), (Qle_bool_true _ _ Hle). cbn [negb].
  cbv zeta. rewrite Hlength. cbn [bind].
  destruct Hratio as [-> | ->]; reflexivity.
Qed.

(** ** The ratio and the new length, as they are rounded *)

Lemma round_0 (ratio : Q) : boundary ratio 0 = int 0.
Proof.
  unfold boundary, mul64, int. cbn [mul rounded].
  assert (Hzero : (inject_Z 0 * ratio == 0)%Q) by ring.
  unfold double. rewrite RoundingFacts.round_to_zero by exact Hzero.
  reflexivity.
Qed.

Lemma ratio_above_1 (sampleRate rate : Q) :
  (0 < rate)%Q -> (rate < sampleRate)%Q -> (1 < sampleRate / rate)%Q.
Proof.
  intros Hpos Hlt. apply Qlt_shift_div_l; [exact Hpos |]. lra.
Qed.

(** Below the sample rate and above 0 the rounded ratio is at least 1, when
    the quotient does not overflow. *)
Lemma ratio_rounded (sampleRate rate : Q) :
  (0 < rate)%Q -> (rate < sampleRate)%Q ->
  div64 (Num sampleRate) (Num rate) = PosInfinity
  \/ exists ratio, div64 (Num sampleRate) (Num rate) = Num ratio /\ (1 <= ratio)%Q.
Proof.
  intros Hpos Hlt. unfold div64. cbn [div].
  rewrite (sign_positive rate Hpos). cbn [rounded].
  pose proof (ratio_above_1 _ _ Hpos Hlt) as Hratio.
  pose proof (RoundingFacts.double_monotone 1 (sampleRate / rate) ltac:(lra))
    as Hmono.
  change 1%Q with (inject_Z 1) in Hmono at 1.
  rewrite RoundingFacts.double_integer in Hmono by (cbn; lia).
  destruct (double (sampleRate / rate)) as [ratio | | |];
    cbn [leq] in Hmono; try tauto.
  right. exists ratio. split; [reflexivity | exact Hmono].
Qed.

(** For a ratio of at least 1 the new length is an integer from 0 to the
    length of the buffer. *)
Lemma newLength_rounded (len : Z) (ratio : Q) :
  (0 <= len < 2 ^ 53)%Z -> (1 <= ratio)%Q ->
  exists n, (0 <= n <= len)%Z /\
    Math_round (div64 (int len) (Num ratio)) = int n.
Proof.
  intros Hlen Hratio. unfold div64, int at 1. cbn [div].
  rewrite (sign_positive ratio) by lra. cbn [rounded].
  assert (Hlen' : (0 <= inject_Z len)%Q) by (rewrite <- (Zle_Qle 0); lia).
  assert (Hquot : (0 <= inject_Z len / ratio <= inject_Z len)%Q).
  { split.
    - apply Qle_shift_div_l; lra.
    - apply Qle_shift_div_r; [lra |]. nra. }
  pose proof (RoundingFacts.double_monotone _ _ (proj1 Hquot)) as Hlow.
  pose proof (RoundingFacts.double_monotone _ _ (proj2 Hquot)) as Hhigh.
  change 0%Q with (inject_Z 0) in Hlow at 1.
  rewrite RoundingFacts.double_integer in Hlow, Hhigh by lia.
  destruct (double (inject_Z len / ratio)) as [v | | |];
    cbn [leq] in Hlow, Hhigh; try tauto.
  exists (round v). split; [| reflexivity].
  split.
  - rewrite <- (RoundingFacts.round_integer 0).
    by apply RoundingFacts.round_monotone.
  - rewrite <- (RoundingFacts.round_integer len).
    by apply RoundingFacts.round_monotone.
Qed.

(** What [downsampleBuffer] returns once its ratio and its new length are
    known. *)
Lemma downsampleBuffer_loop (buffer : Float32Array) (rate : Q) (g : globals)
    (ratio : Q) (n : Z) :
  ~ (rate == sampleRate g)%Q -> (rate <= sampleRate g)%Q ->
  div64 (Num (sampleRate g)) (Num rate) = Num ratio ->
  Math_round (div64 (int (Z.of_nat (length buffer))) (Num ratio)) = int n ->
  (0 <= n)%Z ->
  downsampleBuffer buffer rate g
  = (g, Normal (downsample_loop buffer ratio
                  (Float32Array_new (Z.to_nat n)) 0 (int 0))).
Proof.
  intros Hne Hle Hratio Hlength Hn. unfold downsampleBuffer. f_equal.
  rewrite (Qeq_bool_false _ _ Hne), (Qle_bool_true _ _ Hle). cbn [negb].
  cbv zeta. rewrite Hratio, Hlength.
  unfold Float32Array_of_length, int. rewrite EncodeFacts.trunc_int.
  destruct (Z.ltb_spec n 0) as [Hneg | _]; [lia |].
  reflexivity.
Qed.

(** The elements of what the loop returns, from its first turn. *)
Lemma downsample_loop_elements (buffer : Float32Array) (ratio : Q) (n : nat) :
  let result := downsample_loop buffer ratio (Float32Array_new n) 0 (int 0) in
  length result = n /\
  forall i, i < n ->
    result !! i
    = Some (rounded fround
              (average_block buffer (boundary ratio (Z.of_nat i))
                 (boundary ratio (Z.of_nat i + 1)))).
Proof.
  destruct (downsample_loop_spec buffer ratio (Float32Array_new n) 0 (int 0))
    as (Hlen & _ & Hblocks).
  { symmetry. apply round_0. }
  cbn zeta in *.
  assert (Hnew : length (Float32Array_new n) = n) by apply length_replicate.
  rewrite Hnew in Hlen, Hblocks.
  split; [exact Hlen |].
  intros i Hi. apply Hblocks. lia.
Qed.

(** ** The offsets of the loop *)

(** For a ratio that is not negative the offsets are integers from 0 on, or
    [Infinity] when the product overflows. *)
Lemma boundary_not_negative (ratio : Q) (n : Z) :
  (0 <= ratio)%Q -> (0 <= n)%Z ->
  boundary ratio n = PosInfinity
  \/ exists z, (0 <= z)%Z /\ boundary ratio n = int z.
Proof.
  intros Hratio Hn.
  change (boundary ratio n) with (Math_round (double (inject_Z n * ratio))).
  assert (Hproduct : (0 <= inject_Z n * ratio)%Q).
  { apply Qmult_le_0_compat; [rewrite <- (Zle_Qle 0); exact Hn | exact Hratio]. }
  pose proof (RoundingFacts.double_monotone _ _ Hproduct) as Hmono.
  change 0%Q with (inject_Z 0) in Hmono at 1.
  rewrite RoundingFacts.double_integer in Hmono by (cbn; lia).
  destruct (double (inject_Z n * ratio)) as [v | | |];
    cbn [leq] in Hmono; try tauto.
  right. exists (round v). split; [| reflexivity].
  rewrite <- (RoundingFacts.round_integer 0).
  by apply RoundingFacts.round_monotone.
Qed.

(** The loop takes a turn only for a positive ratio, so that none of its
    offsets is [-Infinity]: every block is summed from an integer, or is
    empty from [Infinity]. *)
Lemma loop_offsets_not_negative (len : Z) (ratio : Q) (result : Float32Array) :
  (0 <= len)%Z ->
  Float32Array_of_length (Math_round (div64 (int len) (Num ratio)))
  = Normal result ->
  0 < length result ->
  (0 < ratio)%Q /\
  forall n, (0 <= n)%Z ->
    boundary ratio n = PosInfinity
    \/ exists z, (0 <= z)%Z /\ boundary ratio n = int z.
Proof.
  intros Hlen Hresult Hturn.
  assert (Hlen' : (0 <= inject_Z len)%Q) by (rewrite <- (Zle_Qle 0); lia).
  assert (Hpositive : (0 < ratio)%Q).
  { apply Qnot_le_lt. intros Hratio. revert Hresult.
    unfold div64, int at 1. cbn [div].
    destruct (sign ratio) eqn:Hsign.
    - destruct (sign (inject_Z len)); cbn [rounded Math_round Float32Array_of_length];
        try discriminate.
      intros [= <-]. cbn in Hturn. lia.
    - apply sign_negative in Hsign. cbn [rounded].
      assert (Hquot : (inject_Z len / ratio <= 0)%Q).
      { unfold Qdiv.
        assert (Hinv : (/ ratio < 0)%Q).
        { assert (H : (0 < / - ratio)%Q) by (apply Qinv_lt_0_compat; lra).
          assert (Heq : (/ - ratio == - / ratio)%Q) by (field; lra).
          rewrite Heq in H. lra. }
        nra. }
      pose proof (RoundingFacts.double_monotone _ _ Hquot) as Hmono.
      change 0%Q with (inject_Z 0) in Hmono.
      rewrite RoundingFacts.double_integer in Hmono by (cbn; lia).
      destruct (double (inject_Z len / ratio)) as [v | | |];
        cbn [leq] in Hmono; cbn [Math_round Float32Array_of_length];
        try discriminate; try tauto.
      unfold int, Float32Array_of_length. rewrite EncodeFacts.trunc_int.
      assert (Hround : (round v <= 0)%Z).
      { rewrite <- (RoundingFacts.round_integer 0).
        by apply RoundingFacts.round_monotone. }
      destruct (Z.ltb_spec (round v) 0); [discriminate |].
      intros [= <-]. unfold Float32Array_new in Hturn.
      rewrite length_replicate in Hturn. lia.
    - apply sign_gt in Hsign. lra. }
  split; [exact Hpositive |].
  intros n Hn. apply boundary_not_negative; [lra | exact Hn].
Qed.

(** ** Every output is the average of its block, empty or not *)

(** C6, as the code has it.  For a target rate that is positive and below
    the sample rate, and a buffer of a length that a number holds exactly,
    [downsampleBuffer] returns, and every output is [accum / count] over the
    block of its index, from one rounded offset to the next, stored as a
    binary32.  Nothing treats an empty block apart: there [count] is 0, the
    average is [0 / 0], and the output is NaN, not 0. *)
Theorem downsampleBuffer_blocks (buffer : Float32Array) (rate : Q) (g : globals) :
  (0 < rate)%Q -> (rate < sampleRate g)%Q ->
  (Z.of_nat (length buffer) < 2 ^ 53)%Z ->
  exists result,
    downsampleBuffer buffer rate g = (g, Normal result) /\
    length result <= length buffer /\
    forall i, i < length result ->
      exists ratio,
        div64 (Num (sampleRate g)) (Num rate) = Num ratio /\
        let offsetBuffer := boundary ratio (Z.of_nat i) in
        let nextOffsetBuffer := boundary ratio (Z.of_nat i + 1) in
        result !! i
        = Some (rounded fround
                  (average_block buffer offsetBuffer nextOffsetBuffer)) /\
        (lt offsetBuffer nextOffsetBuffer = false
         \/ lt offsetBuffer (int (Z.of_nat (length buffer))) = false ->
         average_block buffer offsetBuffer nextOffsetBuffer = NaN /\
         result !! i = Some NaN).
Proof.
  intros Hpos Hlt Hlength.
  assert (Hne : ~ (rate == sampleRate g)%Q)
    by (intros Heq; rewrite Heq in Hlt; apply (Qlt_irrefl _ Hlt)).
  destruct (ratio_rounded _ _ Hpos Hlt) as [Hinfinite | (ratio & Hratio & Hone)].
  - destruct (infinite_ratio_no_turn buffer rate g) as (_ & _ & Hrun);
      [intros ratio; rewrite Hinfinite; discriminate | lra | exact Hne |].
    exists []. split; [exact Hrun |]. split; [cbn; lia |].
    intros i Hi. cbn in Hi. lia.
  - destruct (newLength_rounded (Z.of_nat (length buffer)) ratio)
      as (n & Hn & Hround); [lia | exact Hone |].
    pose proof (downsampleBuffer_loop buffer rate g ratio n Hne ltac:(lra)
                  Hratio Hround ltac:(lia)) as Hrun.
    destruct (downsample_loop_elements buffer ratio (Z.to_nat n))
      as (Hlen & Helements).
    cbn zeta in Hlen, Helements.
    eexists. split; [exact Hrun |]. rewrite Hlen.
    split; [lia |].
    intros i Hi. exists ratio. split; [exact Hratio |]. cbn zeta.
    rewrite (Helements i Hi). split; [reflexivity |].
    intros Hempty.
    assert (Hnan : average_block buffer (boundary ratio (Z.of_nat i))
                     (boundary ratio (Z.of_nat i + 1)) = NaN).
    { destruct (boundary_not_negative ratio (Z.of_nat i)) as [-> | (z & _ & Hz)];
        [lra | lia | apply average_block_beyond |].
      rewrite Hz in *. by apply average_block_empty. }
    rewrite Hnan. split; reflexivity.
Qed.

Lemma downsampleBuffer_blocks_witness :
  exists result,
    downsampleBuffer [int 1; int 2; int 3; int 4; int 5] 24000
      {| recLength := 5; recBuffers := []; sampleRate := 48000;
         numChannels := 1 |}
    = ({| recLength := 5; recBuffers := []; sampleRate := 48000;
          numChannels := 1 |}, Normal result) /\
    length result <= length [int 1; int 2; int 3; int 4; int 5] /\
    forall i, i < length result ->
      exists ratio,
        div64 (Num 48000) (Num 24000) = Num ratio /\
        result !! i
        = Some (rounded fround
                  (average_block [int 1; int 2; int 3; int 4; int 5]
                     (boundary ratio (Z.of_nat i))
                     (boundary ratio (Z.of_nat i + 1)))) /\
        (lt (boundary ratio (Z.of_nat i)) (boundary ratio (Z.of_nat i + 1)) = false
         \/ lt (boundary ratio (Z.of_nat i))
              (int (Z.of_nat (length [int 1; int 2; int 3; int 4; int 5]))) = false ->
         average_block [int 1; int 2; int 3; int 4; int 5]
           (boundary ratio (Z.of_nat i)) (boundary ratio (Z.of_nat i + 1)) = NaN /\
         result !! i = Some NaN).
Proof.
  apply (downsampleBuffer_blocks [int 1; int 2; int 3; int 4; int 5] 24000
           {| recLength := 5; recBuffers := []; sampleRate := 48000;
              numChannels := 1 |}); [reflexivity | reflexivity | cbn; lia].
Defined.

Example downsampleBuffer_halved :
  snd (downsampleBuffer [int 1; int 2; int 3; int 4; int 5] 24000
         {| recLength := 5; recBuffers := []; sampleRate := 48000;
            numChannels := 1 |})
  = Normal [Num (3 # 2); Num (7 # 2); Num 5].
Proof. vm_compute. reflexivity. Qed.

(** What the machine's rounding does to the ratio and to the new length:
    240 samples from 48000 to 44100 Hz give 220 samples, where the exact
    quotient 220.5 would give 221; and an average is stored as a binary32,
    so that one sample of 1 among 31 is not written as [1 / 31]. *)
Example downsampleBuffer_rounds :
  (exists result,
     snd (downsampleBuffer (replicate 240 (int 0)) 44100
            {| recLength := 240; recBuffers := []; sampleRate := 48000;
               numChannels := 1 |}) = Normal result
     /\ length result = 220) /\
  round (240 / (48000 / 44100)) = 221%Z /\
  snd (downsampleBuffer (int 1 :: replicate 30 (int 0)) 1
         {| recLength := 31; recBuffers := []; sampleRate := 31;
            numChannels := 1 |})
  = Normal [Num (1082401 # 33554432)] /\
  Wav.sample16 (Num (1082401 # 33554432)) = 1056%Z /\
  Wav.sample16 (Num (1 # 31)) = 1057%Z.
Proof.
  split; [eexists; split; [vm_compute; reflexivity | reflexivity] |].
  repeat split; vm_compute; reflexivity.
Qed.

Lemma length_long_silence : Z.of_nat (length Wav.long_silence) = 50000000%Z.
Proof.
  unfold Wav.long_silence. rewrite length_replicate. apply Z2Nat.id. lia.
Qed.

(** C6, as the specification states it, does not hold: an empty block
    gives NaN, not 0, and a positive rate below the sample rate does not
    keep every block from being empty.  For fifty million samples at
    48000 Hz and a target rate of 47999.99952 Hz the rounded ratio is
    1.0000000100000002 and the new length is 50000000; the rounded product
    [49999999 * ratio] is 50000000, so that the block of the last index
    starts at the end of the buffer: it is empty and its output is NaN.
    (With a sample rate of -1 and a target rate of -2, which the guard lets
    pass, one sample is enough: the ratio is 1/2 and the second output
    averages the empty block from 1 to 1.) *)
Lemma downsampleBuffer_empty_block :
  ((0 < 3298534850342651 # 68719476736)%Q /\
   (3298534850342651 # 68719476736 < 48000)%Q /\
   div64 (Num 48000) (Num (3298534850342651 # 68719476736))
   = Num (4503599672406493 # 4503599627370496) /\
   boundary (4503599672406493 # 4503599627370496) 49999999 = int 50000000 /\
   boundary (4503599672406493 # 4503599627370496) 50000000 = int 50000001 /\
   Z.of_nat (length Wav.long_silence) = 50000000%Z /\
   exists result,
     downsampleBuffer Wav.long_silence (3298534850342651 # 68719476736)
       {| recLength := 0; recBuffers := []; sampleRate := 48000;
          numChannels := 1 |}
     = ({| recLength := 0; recBuffers := []; sampleRate := 48000;
           numChannels := 1 |}, Normal result) /\
     length result = Z.to_nat 50000000 /\
     result !! Z.to_nat 49999999 = Some NaN /\
     result !! Z.to_nat 49999999 <> Some (int 0)) /\
  (downsampleBuffer [int 1] (-2)
     {| recLength := 1; recBuffers := []; sampleRate := -1; numChannels := 1 |}
   = ({| recLength := 1; recBuffers := []; sampleRate := -1; numChannels := 1 |},
      Normal [int 1; NaN]) /\
   boundary (1 # 2) 1 = int 1 /\
   boundary (1 # 2) 2 = int 1 /\
   average_block [int 1] (int 1) (int 1) = NaN /\
   [int 1; NaN] !! 1 <> Some (int 0)).
Proof.
  split.
  - assert (Hratio : div64 (Num 48000) (Num (3298534850342651 # 68719476736))
                     = Num (4503599672406493 # 4503599627370496))
      by (vm_compute; reflexivity).
    assert (Hlast : boundary (4503599672406493 # 4503599627370496) 49999999
                    = int 50000000) by (vm_compute; reflexivity).
    assert (Hnext : boundary (4503599672406493 # 4503599627370496) 50000000
                    = int 50000001) by (vm_compute; reflexivity).
    assert (Hround : Math_round (div64 (int 50000000)
                                   (Num (4503599672406493 # 4503599627370496)))
                     = int 50000000) by (vm_compute; reflexivity).
    split; [reflexivity |]. split; [reflexivity |].
    split; [exact Hratio |]. split; [exact Hlast |]. split; [exact Hnext |].
    split; [exact length_long_silence |].
    pose proof (downsampleBuffer_loop Wav.long_silence
                  (3298534850342651 # 68719476736)
                  {| recLength := 0; recBuffers := []; sampleRate := 48000;
                     numChannels := 1 |}
                  (4503599672406493 # 4503599627370496) 50000000) as Hrun.
    cbn [sampleRate] in Hrun. rewrite length_long_silence in Hrun.
    specialize (Hrun ltac:(discriminate) ltac:(discriminate) Hratio Hround
                     ltac:(lia)).
    destruct (downsample_loop_elements Wav.long_silence
                (4503599672406493 # 4503599627370496) (Z.to_nat 50000000))
      as (Hlen & Helements).
    cbn zeta in Hlen, Helements.
    eexists. split; [exact Hrun |]. split; [exact Hlen |].
    assert (Hnan : downsample_loop Wav.long_silence
                     (4503599672406493 # 4503599627370496)
                     (Float32Array_new (Z.to_nat 50000000)) 0 (int 0)
                   !! Z.to_nat 49999999 = Some NaN).
    { rewrite Helements by lia.
      rewrite Z2Nat.id by lia. rewrite Hlast.
      rewrite average_block_empty; [reflexivity |].
      right. rewrite length_long_silence. reflexivity. }
    split; [exact Hnan |]. rewrite Hnan. discriminate.
  - split; [vm_compute; reflexivity |].
    split; [vm_compute; reflexivity |].
    split; [vm_compute; reflexivity |].
    split; [vm_compute; reflexivity |].
    discriminate.
Qed.

End DownsampleFacts.

(* ===================================================================== *)
(** * Properties of the recording session *)
(* ===================================================================== *)

Module RecorderFacts.
Import JS Rec Session.

(** ** The worker's log *)

Lemma exports_call_worker (c : worker_call) (r : Recorder) :
  exports (call_worker c r) =
  if is_export c then S (exports r) else exports r.
Proof.
  unfold exports, call_worker. cbn [worker].
  rewrite List.filter_app, length_app.
  cbn [List.filter].
  destruct (is_export c); cbn [length]; lia.
Qed.

Lemma configurations_app (calls calls' : list worker_call) :
  configurations (calls ++ calls') = configurations calls ++ configurations calls'.
Proof. apply omap_app. Qed.

(** ** Every call returns *)

Lemma constructor_sound (stream : nat) (options : IOptionsMaybe.t) :
  sound (constructor stream options).
Proof.
  split; cbn.
  - by destruct (IOptionsMaybe.mono options) as [[|] |].
  - constructor.
  - discriminate.
  - discriminate.
Qed.

(** The updates of a session that keep it sound. *)
Lemma sound_set_recording_false (r : Recorder) :
  sound r -> sound (set_recording false r).
Proof. intros [Hmono Hconfigs Hrec Hanalyser]. split; cbn; auto. discriminate. Qed.

Lemma sound_set_recording_true (r : Recorder) :
  sound r -> ready r = true -> sound (set_recording true r).
Proof. intros [Hmono Hconfigs Hrec Hanalyser] Hready. split; cbn; auto. Qed.

Lemma sound_set_quietTime (t : Q) (r : Recorder) :
  sound r -> sound (set_quietTime t r).
Proof. intros [Hmono Hconfigs Hrec Hanalyser]. split; cbn; auto. Qed.

Lemma sound_set_maxVolume (v : number) (r : Recorder) :
  sound r -> sound (set_maxVolume v r).
Proof. intros [Hmono Hconfigs Hrec Hanalyser]. split; cbn; auto. Qed.

Lemma sound_set_analyser (a : Float32Array) (r : Recorder) :
  sound r -> sound (set_analyser true a r).
Proof. intros [Hmono Hconfigs Hrec Hanalyser]. split; cbn; auto. Qed.

Lemma sound_dispatchEvent (type : string) (r : Recorder) :
  sound r -> sound (dispatchEvent type r).
Proof. intros [Hmono Hconfigs Hrec Hanalyser]. split; cbn; auto. Qed.

Lemma sound_call_worker (c : worker_call) (r : Recorder) :
  sound r ->
  Forall (fun c => IConfig.numChannels c = 1%Z) (configurations [c]) ->
  sound (call_worker c r).
Proof.
  intros [Hmono Hconfigs Hrec Hanalyser] Hc. split; cbn; auto.
  rewrite configurations_app. by apply Forall_app.
Qed.

Create HintDb sound.
#[local] Hint Resolve sound_set_recording_false sound_set_quietTime
  sound_set_maxVolume sound_set_analyser sound_dispatchEvent : sound.
#[local] Hint Extern 2 (sound (call_worker _ _)) =>
  apply sound_call_worker; [| by repeat constructor] : sound.

Lemma setup_sound (context : AudioContext) (r : Recorder) :
  sound r ->
  exists r', setup context r = Normal r' /\ sound r' /\ ready r' = true.
Proof.
  intros Hsound.
  eexists. split; [reflexivity |].
  split; [| reflexivity].
  apply sound_dispatchEvent, sound_set_quietTime.
  destruct Hsound as [Hmono Hconfigs Hrec Hanalyser].
  split; cbn; auto.
  rewrite configurations_app. apply Forall_app. split; [exact Hconfigs |].
  cbn. rewrite Hmono. by repeat constructor.
Qed.

Lemma start_sound (context : AudioContext) (r : Recorder) :
  sound r -> exists r', start context r = Normal r' /\ sound r'.
Proof.
  intros Hsound. unfold start.
  destruct (ready r) eqn:Hready; cbn [negb bind].
  - eexists. split; [reflexivity |].
    apply sound_set_recording_true; auto with sound.
  - destruct (setup_sound context r Hsound) as (r' & -> & Hsound' & Hready').
    eexists. split; [reflexivity |].
    apply sound_set_recording_true; auto with sound.
Qed.

Lemma stop_sound (r : Recorder) :
  sound r -> exists r', stop r = Normal r' /\ sound r'.
Proof.
  intros Hsound. eexists. split; [reflexivity |]. auto with sound.
Qed.

Lemma reset_sound (r : Recorder) :
  sound r -> exists r', reset r = Normal r' /\ sound r'.
Proof.
  intros Hsound. eexists. split; [reflexivity |]. auto with sound.
Qed.

Lemma kill_sound (r : Recorder) :
  sound r -> exists r', kill r = Normal r' /\ sound r'.
Proof.
  intros Hsound. eexists. split; [reflexivity |]. auto with sound.
Qed.

Lemma isQuiet_sound (context : AudioContext) (r : Recorder) :
  sound r -> exists r', isQuiet context r = Normal r' /\ sound r'.
Proof.
  intros Hsound. unfold isQuiet.
  destruct (gt _ _ && _); cbn [bind stop exportWAV];
    destruct (negb (lt _ _));
    (eexists; split; [reflexivity |]); auto 6 with sound.
Qed.

Lemma onAudioProcess_sound (context : AudioContext) (ev : AudioProcessingEvent)
    (r : Recorder) :
  sound r -> exists r', onAudioProcess context ev r = Normal r' /\ sound r'.
Proof.
  intros Hsound. unfold onAudioProcess.
  destruct (recording r); cbn [negb]; [| by exists r].
  apply isQuiet_sound, sound_set_maxVolume.
  destruct (analyserNode _); auto 6 with sound.
Qed.

Lemma perform_sound (a : action) (r : Recorder) :
  sound r -> exists r', perform a r = Normal r' /\ sound r'.
Proof.
  intros Hsound. destruct a as [context | | | | | command | context ev];
    cbn [perform].
  - by apply start_sound.
  - by apply stop_sound.
  - by apply reset_sound.
  - unfold abort. by apply kill_sound, sound_dispatchEvent.
  - eexists. split; [reflexivity |]. auto with sound.
  - unfold onWorkerMessage. destruct (String.eqb command "exportWAV").
    + by apply kill_sound, sound_dispatchEvent.
    + by exists r.
  - by apply onAudioProcess_sound.
Qed.

Lemma run_sound (actions : list action) :
  forall r, sound r -> exists r', run actions r = Normal r' /\ sound r'.
Proof.
  induction actions as [| a actions IH]; intros r Hsound.
  - by exists r.
  - cbn [run].
    destruct (perform_sound a r Hsound) as (r1 & -> & Hsound1).
    cbn [bind]. by apply IH.
Qed.


Lemma init_numChannels (c : IConfig.t) (g : Worker.globals) :
  Worker.numChannels (fst (Worker.init c g)) = IConfig.numChannels c /\
  Worker.sampleRate (fst (Worker.init c g)) = IConfig.sampleRate c.
Proof. split; reflexivity. Qed.

(** C10.  Whatever options the constructor is given, [{ mono: false }]
    included, the [mono] option of the session is [true]; it stays so
    through every history of the session, and every configuration the session
    sends to its worker has [numChannels = 1], which is what the worker's
    [init] then stores. *)
Theorem mono_is_always_true (stream : nat) (options : IOptionsMaybe.t)
    (actions : list action) :
  IOptions.mono (Rec.options (constructor stream options)) = true /\
  exists r,
    run actions (constructor stream options) = Normal r /\
    IOptions.mono (Rec.options r) = true /\
    Forall (fun c => IConfig.numChannels c = 1%Z /\
                     forall g, Worker.numChannels (fst (Worker.init c g)) = 1%Z)
           (configurations (worker r)).
Proof.
  split; [apply constructor_sound |].
  destruct (run_sound actions _ (constructor_sound stream options))
    as (r & Hrun & [Hmono Hconfigs _ _]).
  exists r. split; [exact Hrun |]. split; [exact Hmono |].
  eapply Forall_impl; [exact Hconfigs |].
  intros c Hc. split; [exact Hc |].
  intros g. by destruct (init_numChannels c g) as [-> _].
Qed.

(** A stream of two tracks, a session asked for [{ mono: false }]: the
    worker is configured for one channel. *)
Example mono_false_is_ignored :
  let options := {| IOptionsMaybe.mono := Some false;
                    IOptionsMaybe.quietThresholdTime := None;
                    IOptionsMaybe.volumeThreshold := None;
                    IOptionsMaybe.sampleRate := None |} in
  let context := {| currentTime := 0; sampleRate := 48000 |} in
  IOptions.mono (Rec.options (constructor 2 options)) = true /\
  exists r,
    start context (constructor 2 options) = Normal r /\
    configurations (worker r) =
      [{| IConfig.sampleRate := 48000; IConfig.numChannels := 1 |}].
Proof. split; [reflexivity |]. eexists. split; reflexivity. Qed.

(** C5, as the code has it.  [start] never fails.  From every state it
    returns with the session ready and recording, having dispatched
    [start]; from a state that is not ready it first runs [setup], which
    configures the worker, sets the quiet timestamp to the current time and
    dispatches [ready]. *)
Theorem start_always_returns (context : AudioContext) (r : Recorder) :
  exists r',
    start context r = Normal r' /\
    recording r' = true /\ ready r' = true /\
    (if ready r
     then worker r' = worker r /\
          dispatched r' = dispatched r ++ ["start"%string] /\
          quietTime r' = quietTime r
     else worker r' =
            worker r ++
            [postMessage
               {| command := "init"%string;
                  data := config
                    {| IConfig.sampleRate := sampleRate context;
                       IConfig.numChannels :=
                         if IOptions.mono (options r) then 1%Z
                         else Z.of_nat (stream r) |} |}] /\
          dispatched r' = (dispatched r ++ ["ready"%string]) ++ ["start"%string] /\
          quietTime r' = currentTime context).
Proof.
  unfold start.
  destruct (ready r) eqn:Hready; cbn [negb bind setup].
  - eexists. split; [reflexivity |]. cbn. by rewrite Hready.
  - eexists. split; [reflexivity |]. by cbn.
Qed.

(** C5, as the specification states it, does not hold: [start] returns,
    and leaves the session recording, from a session that was never set up,
    from one that is already recording, and from one that was stopped and not
    reset; nothing in it throws. *)
Lemma start_outside_ready :
  let options := {| IOptionsMaybe.mono := None;
                    IOptionsMaybe.quietThresholdTime := None;
                    IOptionsMaybe.volumeThreshold := None;
                    IOptionsMaybe.sampleRate := None |} in
  let context := {| currentTime := 0; sampleRate := 48000 |} in
  let fresh := constructor 1 options in
  ready fresh = false /\
  returns_recording (start context fresh) = true /\
  returns_recording (run [do_start context; do_start context] fresh) = true /\
  returns_recording (run [do_start context; do_stop; do_start context] fresh)
    = true /\
  ~ (forall r, ready r = false -> exists e, start context r = Throw e).
Proof.
  cbv zeta.
  split; [reflexivity |].
  split; [vm_compute; reflexivity |].
  split; [vm_compute; reflexivity |].
  split; [vm_compute; reflexivity |].
  intros Hthrows.
  destruct (Hthrows (constructor 1
              {| IOptionsMaybe.mono := None;
                 IOptionsMaybe.quietThresholdTime := None;
                 IOptionsMaybe.volumeThreshold := None;
                 IOptionsMaybe.sampleRate := None |}) eq_refl) as [e He].
  discriminate He.
Qed.


(** ** The silence monitor *)

Lemma ge_not_lt (a b : number) : ge a b = true -> lt a b = false.
Proof.
  destruct a, b; cbn [ge lt]; try discriminate; try reflexivity.
  intros ->. reflexivity.
Qed.

(** The session compares the time it computes. *)
Lemma overdue_elapsed (r : Recorder) (context : AudioContext) :
  overdue r context
  = gt (elapsed r context) (Num (IOptions.quietThresholdTime (options r))).
Proof. reflexivity. Qed.

(** The computed time is above a threshold of the machine only when the
    exact time is. *)
Lemma overdue_exact (r : Recorder) (context : AudioContext) :
  is_double (IOptions.quietThresholdTime (options r)) ->
  (currentTime context - quietTime r
   <= IOptions.quietThresholdTime (options r))%Q ->
  overdue r context = false.
Proof.
  intros (v & Hdouble & Hv) Hexact. unfold overdue, elapsed, gt.
  pose proof (RoundingFacts.double_monotone _ _ Hexact) as Hmono.
  rewrite Hdouble in Hmono.
  destruct (double (currentTime context - quietTime r)) as [d | | |];
    cbn [leq] in Hmono; try tauto; try reflexivity.
  apply EncodeFacts.lt_Num_false. lra.
Qed.

(** One observation while recording. *)
Lemma onAudioProcess_recording (context : AudioContext)
    (ev : AudioProcessingEvent) (r : Recorder) :
  recording r = true -> analyserNode r = true ->
  exists r',
    onAudioProcess context ev r = Normal r' /\
    options r' = options r /\ analyserNode r' = true /\
    recording r' = negb (overdue r context && isMicQuiet r ev) /\
    exports r' =
      (if overdue r context && isMicQuiet r ev then S (exports r) else exports r) /\
    quietTime r' =
      (if isMicQuiet r ev then quietTime r else currentTime context).
Proof.
  intros Hrecording Hanalyser.
  unfold onAudioProcess, isQuiet, overdue, elapsed, isMicQuiet, peak.
  rewrite Hrecording. cbn [negb].
  cbn [analyserNode call_worker dispatchEvent]. rewrite Hanalyser.
  cbn [set_analyser set_maxVolume analyserData maxVolume options quietTime].
  destruct (gt _ _); destruct (lt _ _);
    cbn [andb negb bind stop exportWAV];
    (eexists; split; [reflexivity |]);
    repeat split; try exact Hrecording;
    unfold exports; cbn [worker set_quietTime set_recording set_maxVolume
                         set_analyser call_worker dispatchEvent];
    rewrite ?List.filter_app, ?length_app; cbn; lia.
Qed.

(** An observation outside a recording is ignored. *)
Lemma onAudioProcess_idle (context : AudioContext)
    (ev : AudioProcessingEvent) (r : Recorder) :
  recording r = false -> onAudioProcess context ev r = Normal r.
Proof. intros Hidle. unfold onAudioProcess. by rewrite Hidle. Qed.

Lemma observe_idle (observations : list (AudioContext * AudioProcessingEvent))
    (r : Recorder) :
  recording r = false -> observe observations r = Normal r.
Proof.
  intros Hidle. unfold observe.
  induction observations as [| o observations IH]; [reflexivity |].
  cbn [map run perform]. rewrite (onAudioProcess_idle _ _ _ Hidle).
  exact IH.
Qed.


Lemma isMicQuiet_ext (r r' : Recorder) (ev : AudioProcessingEvent) :
  options r' = options r -> isMicQuiet r' ev = isMicQuiet r ev.
Proof. intros Hoptions. unfold isMicQuiet. by rewrite Hoptions. Qed.

Lemma overdue_ext (r r' : Recorder) (context : AudioContext) :
  options r' = options r -> quietTime r' = quietTime r ->
  overdue r' context = overdue r context.
Proof.
  intros Hoptions Hquiet. unfold overdue, elapsed. by rewrite Hoptions, Hquiet.
Qed.

(** A run of quiet observations while recording: the stop is requested at
    the first observation that finds the quiet time run out, and at no
    other. *)
Lemma observe_quiet (observations : list (AudioContext * AudioProcessingEvent)) :
  forall r : Recorder,
    recording r = true -> analyserNode r = true ->
    Forall (fun o => isMicQuiet r (snd o) = true) observations ->
    exists r',
      observe observations r = Normal r' /\
      (Exists (fun o => overdue r (fst o) = true) observations ->
         exports r' = S (exports r) /\ recording r' = false) /\
      (Forall (fun o => overdue r (fst o) = false) observations ->
         exports r' = exports r /\ recording r' = true /\
         quietTime r' = quietTime r).
Proof.
  induction observations as [| [context ev] observations IH];
    intros r Hrecording Hanalyser Hquiet.
  - exists r. split; [reflexivity |]. split.
    + intros Hexists. inversion Hexists.
    + intros _. by repeat split.
  - apply Forall_cons in Hquiet as [Hhead Hquiet]. cbn [snd] in Hhead.
    destruct (onAudioProcess_recording context ev r Hrecording Hanalyser)
      as (r1 & Hstep & Hoptions & Hanalyser1 & Hrecording1 & Hexports1 & Hquiet1).
    rewrite Hhead, andb_true_r in Hrecording1, Hexports1.
    rewrite Hhead in Hquiet1.
    unfold observe in *. cbn [map run perform fst snd]. rewrite Hstep.
    cbn [bind].
    destruct (overdue r context) eqn:Hoverdue; cbn [negb] in Hrecording1.
    + exists r1. split; [by apply observe_idle |].
      split; [by intros _ |].
      intros Hnone. apply Forall_cons in Hnone as [Hno _].
      cbn [fst] in Hno. congruence.
    + destruct (IH r1 Hrecording1 Hanalyser1) as (r' & Hrun & Hfires & Hnot).
      { eapply Forall_impl; [exact Hquiet |].
        intros o Ho. by rewrite (isMicQuiet_ext r r1). }
      exists r'. split; [exact Hrun |]. split.
      * intros Hexists. apply Exists_cons in Hexists as [Hnow | Hlater].
        { cbn [fst] in Hnow. congruence. }
        rewrite <- Hexports1. apply Hfires.
        eapply Exists_impl; [exact Hlater |].
        intros o Ho. by rewrite (overdue_ext r r1).
      * intros Hnone. apply Forall_cons in Hnone as [_ Hnone].
        rewrite <- Hexports1, <- Hquiet1. apply Hnot.
        eapply Forall_impl; [exact Hnone |].
        intros o Ho. by rewrite (overdue_ext r r1).
Qed.

(** C3.  While the session records, the time since the quiet timestamp
    being the difference of the two times as the session computes it:
    (a) an observation whose peak level is at or above the volume threshold
    sets the quiet timestamp to the current time and requests no stop;
    (b) an observation requests a stop only when its peak is below the
    threshold and the time since the quiet timestamp is strictly above the
    quiet threshold, and then it does; (c) a run of observations below the
    threshold, one of them later than the quiet threshold after the quiet
    timestamp, requests the stop exactly once, the session no longer records
    and whatever is observed after the run changes nothing; (d) after one
    observation at or above the threshold, at time [t0], observations below
    the threshold request no stop while they come within the quiet threshold
    of [t0], and exactly one once one of them comes later; (e) for a quiet
    threshold that is a number of the machine, no stop is requested while
    the exact time since the quiet timestamp is within the threshold. *)
Theorem silence_monitor (r : Recorder) :
  recording r = true -> analyserNode r = true ->
  let threshold := Num (IOptions.volumeThreshold (options r)) in
  let quietThresholdTime := IOptions.quietThresholdTime (options r) in
  (forall context ev,
     ge (peak ev) threshold = true ->
     exists r',
       onAudioProcess context ev r = Normal r' /\
       quietTime r' = currentTime context /\
       recording r' = true /\ exports r' = exports r) /\
  (forall context ev,
     exists r',
       onAudioProcess context ev r = Normal r' /\
       (exports r' <> exports r ->
          lt (peak ev) threshold = true /\
          gt (elapsed r context) (Num quietThresholdTime) = true) /\
       (lt (peak ev) threshold = true ->
        gt (elapsed r context) (Num quietThresholdTime) = true ->
          exports r' = S (exports r) /\ recording r' = false)) /\
  (forall observations,
     Forall (fun o => lt (peak (snd o)) threshold = true) observations ->
     Exists (fun o => gt (elapsed r (fst o)) (Num quietThresholdTime) = true)
            observations ->
     exists r',
       observe observations r = Normal r' /\
       exports r' = S (exports r) /\ recording r' = false /\
       forall later, observe (observations ++ later) r = Normal r') /\
  (forall context0 ev0 observations,
     ge (peak ev0) threshold = true ->
     Forall (fun o => lt (peak (snd o)) threshold = true) observations ->
     exists r0,
       onAudioProcess context0 ev0 r = Normal r0 /\
       (Forall (fun o => gt (double (currentTime (fst o) - currentTime context0))
                            (Num quietThresholdTime) = false) observations ->
          exists r', observe observations r0 = Normal r' /\
                     exports r' = exports r /\ recording r' = true) /\
       (Exists (fun o => gt (double (currentTime (fst o) - currentTime context0))
                            (Num quietThresholdTime) = true) observations ->
          exists r', observe observations r0 = Normal r' /\
                     exports r' = S (exports r) /\ recording r' = false)) /\
  (is_double quietThresholdTime ->
   forall context ev,
     (currentTime context - quietTime r <= quietThresholdTime)%Q ->
     exists r',
       onAudioProcess context ev r = Normal r' /\
       exports r' = exports r /\ recording r' = true).
Proof.
  intros Hrecording Hanalyser. cbv zeta.
  assert (Hloud : forall context ev,
             ge (peak ev) (Num (IOptions.volumeThreshold (options r))) = true ->
             exists r',
               onAudioProcess context ev r = Normal r' /\
               quietTime r' = currentTime context /\
               recording r' = true /\ exports r' = exports r /\
               options r' = options r /\ analyserNode r' = true).
  { intros context ev Hge. apply ge_not_lt in Hge.
    destruct (onAudioProcess_recording context ev r Hrecording Hanalyser)
      as (r' & Hstep & Hoptions & Hanalyser' & Hrecording' & Hexports & Hquiet).
    unfold isMicQuiet in *.
    rewrite Hge, andb_false_r in *.
    exists r'. by repeat split. }
  split; [| split; [| split; [| split]]].
  - intros context ev Hge.
    destruct (Hloud context ev Hge) as (r' & ? & ? & ? & ? & _).
    by exists r'.
  - intros context ev.
    destruct (onAudioProcess_recording context ev r Hrecording Hanalyser)
      as (r' & Hstep & _ & _ & Hrecording' & Hexports & _).
    exists r'. split; [exact Hstep |].
    unfold isMicQuiet in *. rewrite overdue_elapsed in *.
    split.
    + intros Hfired.
      destruct (gt (elapsed r context) _) eqn:Hoverdue;
        destruct (lt (peak ev) _); cbn [andb] in Hexports;
        try contradiction.
      split; reflexivity.
    + intros Hlt Hover.
      rewrite Hlt, Hover in *. by split.
  - intros observations Hquiet Hover.
    destruct (observe_quiet observations r Hrecording Hanalyser Hquiet)
      as (r' & Hrun & Hfires & _).
    destruct Hfires as [Hexports Hidle]; [exact Hover |].
    exists r'. repeat split; try assumption.
    intros later. unfold observe in *.
    rewrite map_app.
    clear - Hrun Hidle.
    revert r Hrun.
    induction (map _ observations) as [| a actions IH]; intros r Hrun.
    + injection Hrun as ->. cbn [app]. by apply (observe_idle later).
    + cbn [app run] in *.
      destruct (perform a r) as [r1 |]; [| discriminate].
      cbn [bind] in *. by apply IH.
  - intros context0 ev0 observations Hge Hquiet.
    destruct (Hloud context0 ev0 Hge)
      as (r0 & Hstep & Hquiet0 & Hrecording0 & Hexports0 & Hoptions0 & Hanalyser0).
    exists r0. split; [exact Hstep |].
    destruct (observe_quiet observations r0 Hrecording0 Hanalyser0)
      as (r' & Hrun & Hfires & Hnot).
    { eapply Forall_impl; [exact Hquiet |].
      intros o Ho. unfold isMicQuiet. by rewrite Hoptions0. }
    split.
    + intros Hwithin. exists r'. split; [exact Hrun |].
      destruct Hnot as (Hexports & Hrecording' & _).
      { eapply Forall_impl; [exact Hwithin |].
        intros o Ho. unfold overdue, elapsed. by rewrite Hoptions0, Hquiet0. }
      split; [congruence | exact Hrecording'].
    + intros Hlater. exists r'. split; [exact Hrun |].
      destruct Hfires as (Hexports & Hidle).
      { eapply Exists_impl; [exact Hlater |].
        intros o Ho. unfold overdue, elapsed. by rewrite Hoptions0, Hquiet0. }
      split; [congruence | exact Hidle].
  - intros Hthreshold context ev Hwithin.
    destruct (onAudioProcess_recording context ev r Hrecording Hanalyser)
      as (r' & Hstep & _ & _ & Hrecording' & Hexports & _).
    rewrite (overdue_exact r context Hthreshold Hwithin) in *.
    exists r'. by repeat split.
Qed.

(** The boundary is that of the computed time.  After a loud block at
    0.9999999999999999 s, a silent block at 6 s comes 5.0000000000000001 s
    later; the session computes 5, which is not above the threshold of 5,
    and keeps recording.  The silent block at 6.000000000000001 s stops
    it. *)
Example silence_monitor_boundary :
  let r := {| recording := true; ready := true; bufferLen := 4096;
              options := {| IOptions.mono := true;
                            IOptions.quietThresholdTime := 5;
                            IOptions.volumeThreshold := -60;
                            IOptions.sampleRate := None |};
              quietTime := 9007199254740991 # 9007199254740992;
              maxVolume := int 99;
              analyserData := Float32Array_new 4; analyserNode := true;
              stream := 1; worker := []; dispatched := [] |} in
  (5 < 6 - quietTime r)%Q /\
  elapsed r (at_time 6) = Num 5 /\
  returns_recording (onAudioProcess (at_time 6) silence r) = true /\
  elapsed r (at_time (6755399441055745 # 1125899906842624))
  = Num (5629499534213121 # 1125899906842624) /\
  returns_recording
    (onAudioProcess (at_time (6755399441055745 # 1125899906842624)) silence r)
  = false.
Proof. repeat split; vm_compute; reflexivity. Qed.

(** A session that records since time 0 with the default options, and four
    observations of silence, two seconds apart. *)
Lemma silence_monitor_witness :
  recording recording_session = true /\
  analyserNode recording_session = true /\
  exists r',
    observe [(at_time 2, silence); (at_time 4, silence);
             (at_time 6, silence); (at_time 8, silence)] recording_session
    = Normal r' /\
    exports r' = S (exports recording_session) /\ recording r' = false.
Proof.
  split; [reflexivity |]. split; [reflexivity |].
  destruct (silence_monitor recording_session eq_refl eq_refl)
    as (_ & _ & Hrun & _).
  destruct (Hrun [(at_time 2, silence); (at_time 4, silence);
                  (at_time 6, silence); (at_time 8, silence)])
    as (r' & Hobserve & Hexports & Hidle & _).
  - repeat constructor.
  - apply Exists_cons_tl, Exists_cons_tl, Exists_cons_hd. reflexivity.
  - exists r'. by repeat split.
Defined.

End RecorderFacts.

(* ===================================================================== *)
(** * Properties of the worker's buffers *)
(* ===================================================================== *)

Module BufferFacts.
Import JS Worker System.

(** [set] over the middle of an array replaces that middle. *)
Lemma Float32Array_set_middle (before old after source : Float32Array) :
  length old = length source ->
  Float32Array_set (before ++ old ++ after) source (length before)
  = Normal (before ++ source ++ after).
Proof.
  intros Hlen. unfold Float32Array_set.
  destruct (decide _) as [H | H].
  - rewrite take_app_length. rewrite <- Hlen.
    rewrite drop_app_add, drop_app_length. reflexivity.
  - rewrite !length_app in H. lia.
Qed.

(** The merging loop over the middle of an array that the chunks left fill
    exactly: they replace it, in order. *)
Lemma mergeBuffers_from_middle (chunks : list Float32Array) :
  forall before old after : Float32Array,
    length old = length (concat chunks) ->
    mergeBuffers_from chunks (before ++ old ++ after) (length before)
    = Normal (before ++ concat chunks ++ after).
Proof.
  induction chunks as [| chunk chunks IH]; intros before old after Hlen.
  - destruct old; [reflexivity | discriminate].
  - cbn [mergeBuffers_from concat] in *. rewrite length_app in Hlen.
    rewrite <- (take_drop (length chunk) old), <- (app_assoc _ _ after).
    rewrite Float32Array_set_middle by (rewrite length_take; lia).
    cbn [bind]. rewrite <- length_app, (app_assoc before chunk).
    rewrite IH by (rewrite length_drop; lia).
    rewrite <- !app_assoc. reflexivity.
Qed.

(** The merging loop throws as soon as a chunk reaches past the end. *)
Lemma mergeBuffers_from_overflows (chunks : list Float32Array) :
  forall (result : Float32Array) (offset : nat),
    length result < offset + length (concat chunks) ->
    offset <= length result ->
    mergeBuffers_from chunks result offset = Throw RangeError.
Proof.
  induction chunks as [| chunk chunks IH]; intros result offset Hover Hoffset.
  - cbn in Hover. lia.
  - cbn [mergeBuffers_from concat] in *. rewrite length_app in Hover.
    unfold Float32Array_set. destruct (decide _) as [H | H]; [| reflexivity].
    cbn [bind]. apply IH; rewrite !length_app, length_take, length_drop; lia.
Qed.

(** Chunks that add up to [recLength] are merged into their concatenation. *)
Lemma mergeBuffers_exact (chunks : list Float32Array) (recLength : nat) :
  length (concat chunks) = recLength ->
  mergeBuffers chunks recLength = Normal (concat chunks).
Proof.
  intros <-. unfold mergeBuffers, Float32Array_new.
  pose proof (mergeBuffers_from_middle chunks []
                (replicate (length (concat chunks)) (int 0)) []
                (length_replicate _ _)) as Hmerge.
  cbn [app length] in Hmerge. rewrite !app_nil_r in Hmerge. exact Hmerge.
Qed.

(** X1.  [mergeBuffers] on chunks that fit in [recLength] samples returns
    the chunks one after the other, in order, followed by zeros up to
    [recLength]: nothing is dropped, reordered or overwritten. *)
Theorem mergeBuffers_concatenates (chunks : list Float32Array) (recLength : nat) :
  length (concat chunks) <= recLength ->
  mergeBuffers chunks recLength
  = Normal (concat chunks
            ++ replicate (recLength - length (concat chunks)) (int 0)).
Proof.
  intros Hfit. unfold mergeBuffers, Float32Array_new.
  replace recLength
    with (length (concat chunks) + (recLength - length (concat chunks)))
    at 1 by lia.
  rewrite replicate_add.
  apply (mergeBuffers_from_middle chunks [] _ _).
  apply length_replicate.
Qed.

Lemma mergeBuffers_concatenates_witness :
  length (concat [[int 1; int 2]; [int 3]]) <= 5 /\
  mergeBuffers [[int 1; int 2]; [int 3]] 5
  = Normal (concat [[int 1; int 2]; [int 3]]
            ++ replicate (5 - length (concat [[int 1; int 2]; [int 3]])) (int 0)).
Proof.
  split; [cbn; lia |].
  apply (mergeBuffers_concatenates [[int 1; int 2]; [int 3]] 5). cbn. lia.
Defined.

(** X2.  [mergeBuffers] on chunks that hold more than [recLength] samples
    throws a [RangeError]: it never returns a truncated recording. *)
Theorem mergeBuffers_overflow (chunks : list Float32Array) (recLength : nat) :
  recLength < length (concat chunks) ->
  mergeBuffers chunks recLength = Throw RangeError.
Proof.
  intros Hover. unfold mergeBuffers, Float32Array_new.
  apply mergeBuffers_from_overflows; rewrite length_replicate; lia.
Qed.

Lemma mergeBuffers_overflow_witness :
  2 < length (concat [[int 1; int 2]; [int 3]]) /\
  mergeBuffers [[int 1; int 2]; [int 3]] 2 = Throw RangeError.
Proof.
  split; [cbn; lia |].
  apply (mergeBuffers_overflow [[int 1; int 2]; [int 3]] 2). cbn. lia.
Defined.


(** [initBuffers] leaves one empty buffer for each channel in use, and the
    buffers past them as they were. *)
Lemma initBuffers_buffers (n : nat) (buffers : list (list Float32Array)) :
  foldl (fun bufs channel => assign bufs channel []) buffers (seq 0 n)
  = replicate n [] ++ drop n buffers.
Proof.
  induction n as [| n IH].
  - rewrite drop_0. reflexivity.
  - rewrite seq_S, foldl_app, IH. cbn [foldl Nat.add]. unfold assign.
    rewrite length_app, length_replicate, length_drop.
    destruct (decide _) as [H | H].
    + rewrite insert_app_r_alt by (rewrite length_replicate; lia).
      rewrite length_replicate, Nat.sub_diag.
      destruct (drop n buffers) as [| b rest] eqn:Hdrop;
        [apply (f_equal length) in Hdrop; rewrite length_drop in Hdrop;
         cbn in Hdrop; lia |].
      cbn [insert list_insert].
      replace (drop (S n) buffers) with rest.
      * rewrite replicate_S_end, <- app_assoc. reflexivity.
      * replace (S n) with (n + 1) by lia.
        rewrite <- drop_drop, Hdrop. reflexivity.
    + rewrite !drop_ge by lia. rewrite !app_nil_r.
      rewrite replicate_S_end. reflexivity.
Qed.

Lemma recorded_app (channel : nat) (inputs : list (list Float32Array))
    (inputBuffer : list Float32Array) (chunk : Float32Array) :
  inputBuffer !! channel = Some chunk ->
  recorded channel (inputs ++ [inputBuffer]) = recorded channel inputs ++ chunk.
Proof.
  intros Hchunk. unfold recorded. rewrite omap_app, concat_app.
  cbn [omap list_omap]. rewrite Hchunk. cbn [concat]. rewrite app_nil_r. reflexivity.
Qed.

(** The loop of [record] over channels that all have a buffer and an input:
    each gets its input as a new last chunk, the others stay. *)
Lemma record_from_range (inputBuffer : list Float32Array) (k : nat) :
  forall (start : nat) (buffers : list (list Float32Array)),
    start + k <= length buffers ->
    (forall channel, start <= channel < start + k ->
       is_Some (inputBuffer !! channel)) ->
    exists buffers',
      record_from inputBuffer (seq start k) buffers = Some (buffers', Normal tt) /\
      length buffers' = length buffers /\
      forall channel,
        buffers' !! channel
        = if decide (start <= channel < start + k)
          then match buffers !! channel, inputBuffer !! channel with
               | Some chunks, Some chunk => Some (chunks ++ [chunk])
               | _, _ => None
               end
          else buffers !! channel.
Proof.
  induction k as [| k IH]; intros start buffers Hlen Hinput.
  - exists buffers. split; [reflexivity |]. split; [reflexivity |].
    intros channel. destruct (decide _) as [H | H]; [lia | reflexivity].
  - cbn [seq record_from].
    destruct (lookup_lt_is_Some_2 buffers start) as [chunks Hchunks]; [lia |].
    destruct (Hinput start) as [chunk Hchunk]; [lia |].
    rewrite Hchunks, Hchunk.
    destruct (IH (S start) (<[start := chunks ++ [chunk]]> buffers))
      as (buffers' & Hrun & Hlen' & Hlookup).
    + rewrite length_insert. lia.
    + intros channel Hchannel. apply Hinput. lia.
    + exists buffers'. split; [exact Hrun |].
      split; [rewrite Hlen', length_insert; reflexivity |].
      intros channel. rewrite Hlookup.
      destruct (decide (S start <= channel < S start + k)) as [Hin | Hout].
      * rewrite list_lookup_insert_ne by lia.
        destruct (decide _) as [_ | H]; [reflexivity | lia].
      * destruct (decide (channel = start)) as [-> | Hne].
        -- rewrite list_lookup_insert_eq by lia.
           destruct (decide _) as [_ | H]; [| lia].
           rewrite Hchunks, Hchunk. reflexivity.
        -- rewrite list_lookup_insert_ne by lia.
           destruct (decide _) as [H | _]; [lia | reflexivity].
Qed.

(** The channels in use all have a buffer. *)
Lemma holds_buffers (g : globals) (inputs : list (list Float32Array)) :
  holds g inputs -> Z.to_nat (numChannels g) <= length (recBuffers g).
Proof.
  intros Hholds.
  destruct (Z.to_nat (numChannels g)) as [| n] eqn:Hn; [lia |].
  destruct (Hholds n) as (_ & chunks & Hchunks & _); [lia |].
  apply lookup_lt_Some in Hchunks. lia.
Qed.

(** The loop of [exportWAV] and [getBuffer] on a worker that holds a
    recording: the recorded samples of each channel, in order. *)
Lemma merge_channels_holds (g : globals) (inputs : list (list Float32Array))
    (channels : list nat) :
  holds g inputs ->
  Forall (fun channel => channel < Z.to_nat (numChannels g)) channels ->
  merge_channels channels g
  = Normal (map (fun channel => recorded channel inputs) channels).
Proof.
  intros Hholds. induction 1 as [| channel channels Hchannel _ IH];
    [reflexivity |].
  cbn [merge_channels map].
  destruct (Hholds channel Hchannel) as (Hlen & chunks & -> & Hchunks).
  rewrite mergeBuffers_exact by (rewrite Hchunks; exact Hlen).
  cbn [bind]. rewrite Hchunks, IH. reflexivity.
Qed.

Lemma channels_in_use (n : nat) : Forall (fun channel => channel < n) (seq 0 n).
Proof. apply Forall_forall. intros channel Hin. apply elem_of_seq in Hin. lia. Qed.


(** ** What the worker holds *)

Lemma record_holds (g : globals) (inputs : list (list Float32Array))
    (inputBuffer : list Float32Array) :
  holds g inputs ->
  aligned (Z.to_nat (numChannels g)) inputBuffer ->
  exists g',
    record inputBuffer g = Some (g', Normal tt) /\
    holds g' (inputs ++ [inputBuffer]) /\
    numChannels g' = numChannels g /\ sampleRate g' = sampleRate g.
Proof.
  intros Hholds (first & Hfirst & Hchannels).
  destruct (record_from_range inputBuffer (Z.to_nat (numChannels g)) 0 (recBuffers g))
    as (buffers & Hrun & _ & Hlookup).
  { apply (holds_buffers g inputs Hholds). }
  { intros channel Hchannel.
    destruct (Hchannels channel) as (chunk & -> & _); [lia | by eexists]. }
  unfold record. rewrite Hrun, Hfirst.
  eexists. split; [reflexivity |].
  split; [| split; reflexivity].
  intros channel Hchannel. cbn [numChannels recLength recBuffers] in *.
  destruct (Hholds channel Hchannel) as (Hlen & chunks & Hchunks & Hconcat).
  destruct (Hchannels channel Hchannel) as (chunk & Hchunk & Hsame).
  rewrite (recorded_app _ _ _ _ Hchunk).
  split; [rewrite length_app; lia |].
  exists (chunks ++ [chunk]). split.
  - rewrite Hlookup. destruct (decide _) as [_ | H]; [| lia].
    rewrite Hchunks, Hchunk. reflexivity.
  - rewrite concat_app, Hconcat. cbn [concat]. rewrite app_nil_r. reflexivity.
Qed.

Lemma holds_empty (n : nat) (rate : Q) (channels : Z)
    (rest : list (list Float32Array)) :
  n = Z.to_nat channels ->
  holds {| recLength := 0; recBuffers := replicate n [] ++ rest;
           sampleRate := rate; numChannels := channels |} [].
Proof.
  intros Hn channel Hchannel. cbn [numChannels recLength recBuffers] in *.
  split; [reflexivity |].
  exists []. split; [| reflexivity].
  rewrite lookup_app_l by (rewrite length_replicate; lia).
  apply lookup_replicate_2. lia.
Qed.

Lemma clear_holds (g : globals) :
  exists g',
    clear g = (g', Normal tt) /\ holds g' [] /\
    numChannels g' = numChannels g /\ sampleRate g' = sampleRate g.
Proof.
  unfold clear, initBuffers. cbn [recLength recBuffers sampleRate numChannels].
  rewrite initBuffers_buffers.
  eexists. split; [reflexivity |].
  split; [by apply holds_empty | split; reflexivity].
Qed.

Lemma init_holds (c : IConfig.t) (g : globals) :
  fresh g ->
  exists g',
    init c g = (g', Normal tt) /\ holds g' [] /\
    numChannels g' = IConfig.numChannels c /\
    sampleRate g' = IConfig.sampleRate c.
Proof.
  intros [Hlength Hbuffers].
  unfold init, initBuffers. cbn [recLength recBuffers sampleRate numChannels].
  rewrite initBuffers_buffers, Hlength, Hbuffers.
  eexists. split; [reflexivity |].
  split; [by apply holds_empty | split; reflexivity].
Qed.

Lemma getBuffer_holds (g : globals) (inputs : list (list Float32Array)) :
  holds g inputs ->
  getBuffer g
  = (g, Normal (posted_buffers
                  (map (fun channel => recorded channel inputs)
                       (seq 0 (Z.to_nat (numChannels g)))))).
Proof.
  intros Hholds. unfold getBuffer.
  rewrite (merge_channels_holds g inputs) by (auto using channels_in_use).
  reflexivity.
Qed.

(** ** Messages *)

Lemma deliver_app (messages messages' : list Rec.message) :
  forall g g' outcomes,
    deliver messages g = Some (g', outcomes) ->
    deliver (messages ++ messages') g
    = match deliver messages' g' with
      | Some (g'', outcomes') => Some (g'', outcomes ++ outcomes')
      | None => None
      end.
Proof.
  induction messages as [| m messages IH]; intros g g' outcomes Hrun.
  - injection Hrun as <- <-. cbn [app]. by destruct (deliver messages' g) as [[] |].
  - cbn [app deliver] in *.
    destruct (onmessage m g) as [[g1 outcome] |]; [| discriminate].
    destruct (deliver messages g1) as [[g2 outcomes2] |] eqn:Hrest; [| discriminate].
    injection Hrun as <- <-.
    rewrite (IH _ _ _ Hrest).
    by destruct (deliver messages' g2) as [[] |].
Qed.

Lemma deliver_records (inputs' : list (list Float32Array)) :
  forall (g : globals) (inputs : list (list Float32Array)),
    holds g inputs ->
    Forall (aligned (Z.to_nat (numChannels g))) inputs' ->
    exists g',
      deliver (map record_message inputs') g
      = Some (g', replicate (length inputs') (Normal [])) /\
      holds g' (inputs ++ inputs') /\
      numChannels g' = numChannels g /\ sampleRate g' = sampleRate g.
Proof.
  induction inputs' as [| inputBuffer inputs' IH]; intros g inputs Hholds Haligned.
  - exists g. rewrite app_nil_r. split; [reflexivity |].
    split; [exact Hholds | split; reflexivity].
  - apply Forall_cons in Haligned as [Hfirst Hrest].
    destruct (record_holds g inputs inputBuffer Hholds Hfirst)
      as (g1 & Hrecord & Hholds1 & Hchannels1 & Hrate1).
    rewrite <- Hchannels1 in Hrest.
    destruct (IH g1 _ Hholds1 Hrest) as (g' & Hrun & Hholds' & Hchannels' & Hrate').
    exists g'. cbn [map deliver length replicate].
    unfold onmessage at 1. cbn [Rec.command Rec.data record_message String.eqb
                                  Ascii.eqb Bool.eqb].
    rewrite Hrecord, Hrun. cbn [bind].
    split; [reflexivity |].
    split; [rewrite <- app_assoc in Hholds'; exact Hholds' |].
    split; congruence.
Qed.

(** X3.  A worker that is cleared, then sent a series of inputs that each
    have every channel in use at one length, then asked for its buffers,
    posts for each channel exactly the samples recorded for it, in the order
    they came: whatever it held before is gone, and no message throws. *)
Theorem record_getBuffer_round_trip (g : globals) (inputs : list (list Float32Array)) :
  Forall (aligned (Z.to_nat (numChannels g))) inputs ->
  exists g',
    deliver (clear_message :: map record_message inputs ++ [getBuffer_message]) g
    = Some (g', Normal [] :: replicate (length inputs) (Normal [])
                ++ [Normal [posted_buffers
                              (map (fun channel => recorded channel inputs)
                                   (seq 0 (Z.to_nat (numChannels g))))]]).
Proof.
  intros Haligned.
  destruct (clear_holds g) as (g0 & Hclear & Hholds0 & Hchannels0 & Hrate0).
  rewrite <- Hchannels0 in Haligned.
  destruct (deliver_records inputs g0 [] Hholds0 Haligned)
    as (g1 & Hrun & Hholds1 & Hchannels1 & Hrate1).
  exists g1. cbn [deliver].
  unfold onmessage at 1. cbn [Rec.command Rec.data clear_message String.eqb
                                Ascii.eqb Bool.eqb].
  rewrite Hclear. cbn [bind].
  rewrite (deliver_app _ _ _ _ _ Hrun). cbn [deliver].
  unfold onmessage. cbn [Rec.command Rec.data getBuffer_message String.eqb
                           Ascii.eqb Bool.eqb].
  rewrite (getBuffer_holds g1 _ Hholds1). cbn [bind app].
  rewrite Hchannels1, Hchannels0. reflexivity.
Qed.

Lemma record_getBuffer_round_trip_witness :
  exists g',
    deliver (clear_message
             :: map record_message
                  [[[int 1; int 2]; [int 5; int 6]]; [[int 3]; [int 7]]]
             ++ [getBuffer_message])
      {| recLength := 9; recBuffers := [[[int 9]]]; sampleRate := 48000;
         numChannels := 2 |}
    = Some (g', Normal []
                :: replicate
                     (length [[[int 1; int 2]; [int 5; int 6]]; [[int 3]; [int 7]]])
                     (Normal [])
                ++ [Normal [posted_buffers
                              (map (fun channel =>
                                      recorded channel
                                        [[[int 1; int 2]; [int 5; int 6]];
                                         [[int 3]; [int 7]]])
                                   (seq 0 (Z.to_nat 2)))]]).
Proof.
  apply (record_getBuffer_round_trip
           {| recLength := 9; recBuffers := [[[int 9]]]; sampleRate := 48000;
              numChannels := 2 |}
           [[[int 1; int 2]; [int 5; int 6]]; [[int 3]; [int 7]]]).
  repeat constructor.
  - exists [int 1; int 2]. split; [reflexivity |].
    intros [| [| channel]] Hchannel; [by eexists | by eexists | cbn in Hchannel; lia].
  - exists [int 3]. split; [reflexivity |].
    intros [| [| channel]] Hchannel; [by eexists | by eexists | cbn in Hchannel; lia].
Defined.

(** X4.  [init] sets the configuration and empties the buffer of each
    channel in use, but keeps [recLength]: a worker that is configured
    again without being cleared answers [getBuffer] with [recLength] zeros
    for every channel, the length of the recording it no longer holds. *)
Theorem init_keeps_recLength (c : IConfig.t) (g : globals) :
  exists g',
    init c g = (g', Normal tt) /\
    recLength g' = recLength g /\
    numChannels g' = IConfig.numChannels c /\
    sampleRate g' = IConfig.sampleRate c /\
    getBuffer g'
    = (g', Normal (posted_buffers
                     (replicate (Z.to_nat (IConfig.numChannels c))
                                (replicate (recLength g) (int 0))))).
Proof.
  unfold init, initBuffers. cbn [recLength recBuffers sampleRate numChannels].
  rewrite initBuffers_buffers.
  eexists. split; [reflexivity |].
  do 3 (split; [reflexivity |]).
  unfold getBuffer. cbn [recLength recBuffers sampleRate numChannels].
  f_equal.
  set (g' := {| recLength := _ |}).
  assert (Hmerge : forall channels,
             Forall (fun channel => channel < Z.to_nat (IConfig.numChannels c)) channels ->
             merge_channels channels g'
             = Normal (map (fun _ => replicate (recLength g) (int 0)) channels)).
  { induction 1 as [| channel channels Hchannel _ IH]; [reflexivity |].
    cbn [merge_channels map]. subst g'. cbn [recBuffers recLength] in *.
    rewrite lookup_app_l by (rewrite length_replicate; lia).
    rewrite lookup_replicate_2 by lia.
    unfold mergeBuffers. cbn [mergeBuffers_from bind]. rewrite IH.
    reflexivity. }
  rewrite Hmerge by apply channels_in_use. cbn [bind].
  do 2 f_equal.
  generalize (Z.to_nat (IConfig.numChannels c)) as n. intros n.
  generalize 0 as start.
  induction n as [| n IH]; intros start; [reflexivity |].
  cbn [seq map replicate]. f_equal. apply IH.
Qed.

End BufferFacts.

(* ===================================================================== *)
(** * Properties of the export *)
(* ===================================================================== *)

Module ExportFacts.
Import JS Worker Wav System.

Lemma length_frames (inputL inputR : Float32Array) :
  length inputL = length inputR ->
  length (frames inputL inputR) = 2 * length inputL.
Proof.
  revert inputR. induction inputL as [| x inputL IH]; intros [| y inputR] Hlen;
    try discriminate; [reflexivity |].
  injection Hlen as Hlen. unfold frames in *. cbn [zip_with concat app length].
  rewrite IH by exact Hlen. lia.
Qed.

Lemma lookup_frames (inputL inputR : Float32Array) :
  length inputL = length inputR ->
  forall i,
    frames inputL inputR !! (2 * i) = inputL !! i /\
    frames inputL inputR !! (2 * i + 1) = inputR !! i.
Proof.
  revert inputR. induction inputL as [| x inputL IH]; intros [| y inputR] Hlen i;
    try discriminate.
  - split; reflexivity.
  - injection Hlen as Hlen. destruct i as [| i].
    + split; reflexivity.
    + replace (2 * S i) with (S (S (2 * i))) by lia.
      replace (S (S (2 * i)) + 1) with (S (S (2 * i + 1))) by lia.
      apply (IH inputR Hlen i).
Qed.

(** Channels of one length are interleaved frame by frame. *)
Lemma interleave_frames (inputL inputR : Float32Array) :
  length inputL = length inputR ->
  interleave inputL inputR = Normal (frames inputL inputR).
Proof.
  intros Hlen.
  destruct (InterleaveFacts.interleave_returns inputL inputR)
    as (result & -> & Hresult & Heven & Hodd).
  f_equal. apply list_eq. intros j.
  pose proof (length_frames inputL inputR Hlen) as Hframes.
  destruct (decide (j < length result)) as [Hj | Hj].
  - destruct (Nat.Even_or_Odd j) as [[i ->] | [i ->]].
    + rewrite Heven by exact Hj.
      destruct (lookup_frames inputL inputR Hlen i) as [-> _].
      destruct (lookup_lt_is_Some_2 inputL i) as [x ->]; [lia | reflexivity].
    + rewrite Hodd by exact Hj.
      destruct (lookup_frames inputL inputR Hlen i) as [_ ->].
      destruct (lookup_lt_is_Some_2 inputR i) as [y ->]; [lia | reflexivity].
  - rewrite !lookup_ge_None_2 by lia. reflexivity.
Qed.

(** The export of a worker that holds a recording and has a first channel
    and not two: the first channel alone, resampled and encoded. *)
Lemma exportWAV_single (g : globals) (inputs : list (list Float32Array))
    (type : string) (rate : option Q) :
  holds g inputs ->
  (1 <= numChannels g)%Z -> numChannels g <> 2%Z ->
  exportWAV type rate g
  = (g, let* samples :=
          snd (downsampleBuffer (recorded 0 inputs) (export_rate rate g) g) in
        Normal (posted_blob
                  (header_bytes (length samples) (export_rate rate g)
                                (numChannels g)
                   ++ pcm_bytes samples) type)).
Proof.
  intros Hholds Hfirst Hnot. unfold exportWAV. f_equal.
  rewrite (BufferFacts.merge_channels_holds g inputs)
    by (auto using BufferFacts.channels_in_use).
  cbn [bind]. destruct (Z.eqb_spec (numChannels g) 2) as [| _]; [contradiction |].
  cbn [bind].
  destruct (Z.to_nat (numChannels g)) as [| n] eqn:Hn; [lia |].
  cbn [seq map lookup list_lookup].
  fold (export_rate rate g).
  destruct (snd (downsampleBuffer _ _ g)) as [samples | e]; [| reflexivity].
  cbn [bind]. rewrite EncodeFacts.encodeWAV_bytes. reflexivity.
Qed.

(** The export of a worker that holds a recording on two channels: the two
    interleaved, then resampled and encoded. *)
Lemma exportWAV_pair (g : globals) (inputs : list (list Float32Array))
    (type : string) (rate : option Q) :
  holds g inputs ->
  numChannels g = 2%Z ->
  exportWAV type rate g
  = (g, let* samples :=
          snd (downsampleBuffer (frames (recorded 0 inputs) (recorded 1 inputs))
                                (export_rate rate g) g) in
        Normal (posted_blob
                  (header_bytes (length samples) (export_rate rate g) 2
                   ++ pcm_bytes samples) type)).
Proof.
  intros Hholds Htwo. unfold exportWAV. f_equal.
  rewrite (BufferFacts.merge_channels_holds g inputs)
    by (auto using BufferFacts.channels_in_use).
  destruct (Hholds 0) as (Hleft & _); [lia |].
  destruct (Hholds 1) as (Hright & _); [lia |].
  rewrite Htwo. change (Z.to_nat 2) with 2.
  cbn [bind Z.eqb Pos.eqb seq map lookup list_lookup].
  rewrite interleave_frames by congruence.
  cbn [bind]. fold (export_rate rate g).
  destruct (snd (downsampleBuffer _ _ g)) as [samples | e]; [| reflexivity].
  cbn [bind]. rewrite EncodeFacts.encodeWAV_bytes, Htwo. reflexivity.
Qed.



Lemma mono_take_holds : holds mono_take take_inputs.
Proof.
  intros [| channel] Hchannel; [| cbn in Hchannel; lia].
  split; [reflexivity |]. eexists. split; reflexivity.
Qed.

Lemma stereo_take_holds : holds stereo_take take_inputs.
Proof.
  intros [| [| channel]] Hchannel; [| | cbn in Hchannel; lia].
  all: split; [reflexivity |]; eexists; split; reflexivity.
Qed.


(** The rounding of the resampler reaches the file: one sample of 1 among
    31 at 31 Hz, exported at 1 Hz, is one average, stored as the binary32
    next to [1 / 31] and written as 1056, the bytes 32 and 4, where the
    exact quotient would give 1057. *)
Example exportWAV_rounds :
  exists bytes,
    snd (exportWAV "audio/wav" (Some 1%Q)
           {| recLength := 31;
              recBuffers := [[int 1 :: replicate 30 (int 0)]];
              sampleRate := 31; numChannels := 1 |})
    = Normal (posted_blob bytes "audio/wav") /\
    length bytes = 46 /\
    drop 44 bytes = [32%Z; 4%Z] /\
    (32 + 4 * 256 = 1056)%Z.
Proof.
  eexists. split; [vm_compute; reflexivity |]. repeat split.
Qed.

(** A sample of an encoded buffer, read back. *)
Lemma read_sample (header : list Z) (samples : Float32Array) (i : nat) (x : number) :
  length header = 44 ->
  samples !! i = Some x ->
  getInt16 (header ++ pcm_bytes samples) (44 + 2 * i) = Normal (sample16 x).
Proof.
  intros Hheader Hx.
  destruct (EncodeFacts.lookup_pcm_bytes samples i x Hx)
    as (front & rest & -> & Hfront).
  rewrite EncodeFacts.pcm16_sample16.
  rewrite (EncodeFacts.int16_bytes _ (EncodeFacts.sample16_range x)).
  rewrite (app_assoc header).
  apply EncodeFacts.read_int16_le; [apply EncodeFacts.sample16_range |].
  rewrite length_app. lia.
Qed.

(** X6.  With two channels and an export at the sample rate of the worker,
    the blob is a 44-byte header for two channels followed by one 4-byte
    frame for each sample recorded: the 16-bit integer of the first
    channel's sample, then that of the second channel's. *)
Theorem exportWAV_stereo_frames (g : globals) (inputs : list (list Float32Array))
    (type : string) (rate : option Q) :
  holds g inputs ->
  numChannels g = 2%Z ->
  (export_rate rate g == sampleRate g)%Q ->
  exists bytes,
    exportWAV type rate g = (g, Normal (posted_blob bytes type)) /\
    length bytes = 44 + 4 * recLength g /\
    take 44 bytes = header_bytes (2 * recLength g) (export_rate rate g) 2 /\
    forall i x y,
      recorded 0 inputs !! i = Some x ->
      recorded 1 inputs !! i = Some y ->
      getInt16 bytes (44 + 4 * i) = Normal (sample16 x) /\
      getInt16 bytes (44 + 4 * i + 2) = Normal (sample16 y).
Proof.
  intros Hholds Htwo Hrate.
  destruct (Hholds 0) as (Hleft & _); [lia |].
  destruct (Hholds 1) as (Hright & _); [lia |].
  assert (Hlen : length (recorded 0 inputs) = length (recorded 1 inputs))
    by congruence.
  pose proof (length_frames _ _ Hlen) as Hframes. rewrite Hleft in Hframes.
  eexists. split; [| split; [| split]].
  - rewrite (exportWAV_pair g inputs type rate Hholds Htwo).
    unfold downsampleBuffer. cbn [snd].
    rewrite (DownsampleFacts.Qeq_bool_true _ _ Hrate). cbn [bind].
    reflexivity.
  - rewrite length_app, EncodeFacts.length_header_bytes,
      EncodeFacts.length_pcm_bytes, Hframes. lia.
  - rewrite take_app_length' by reflexivity.
    rewrite Hframes. reflexivity.
  - intros i x y Hx Hy.
    destruct (lookup_frames _ _ Hlen i) as [Heven Hodd].
    rewrite <- Heven in Hx. rewrite <- Hodd in Hy.
    split.
    + replace (44 + 4 * i) with (44 + 2 * (2 * i)) by lia.
      by apply read_sample.
    + replace (44 + 4 * i + 2) with (44 + 2 * (2 * i + 1)) by lia.
      by apply read_sample.
Qed.

Lemma exportWAV_stereo_frames_witness :
  exists bytes,
    exportWAV "audio/wav" None stereo_take
    = (stereo_take, Normal (posted_blob bytes "audio/wav")) /\
    length bytes = 44 + 4 * recLength stereo_take /\
    take 44 bytes
    = header_bytes (2 * recLength stereo_take) (export_rate None stereo_take) 2 /\
    forall i x y,
      recorded 0 take_inputs !! i = Some x ->
      recorded 1 take_inputs !! i = Some y ->
      getInt16 bytes (44 + 4 * i) = Normal (sample16 x) /\
      getInt16 bytes (44 + 4 * i + 2) = Normal (sample16 y).
Proof.
  apply (exportWAV_stereo_frames stereo_take take_inputs "audio/wav" None).
  - exact stereo_take_holds.
  - reflexivity.
  - reflexivity.
Defined.

(** X7.  An export at a rate above the sample rate of the worker throws
    the error of [downsampleBuffer], whatever the channel count: the worker
    posts no blob in answer, and keeps what it holds. *)
Theorem exportWAV_above_rate_posts_nothing (g : globals)
    (inputs : list (list Float32Array)) (type : string) (rate : Q) :
  holds g inputs ->
  (sampleRate g < rate)%Q ->
  onmessage (exportWAV_message type (Some rate)) g
  = Some (g, Throw (Error upsampling)).
Proof.
  intros Hholds Hrate.
  assert (Hne : Qeq_bool rate (sampleRate g) = false).
  { apply DownsampleFacts.Qeq_bool_false. intros Heq. rewrite Heq in Hrate.
    apply (Qlt_irrefl _ Hrate). }
  assert (Hgt : Qle_bool rate (sampleRate g) = false)
    by (apply DownsampleFacts.Qle_bool_false; exact Hrate).
  unfold onmessage.
  cbn [Rec.command Rec.data exportWAV_message String.eqb Ascii.eqb Bool.eqb].
  destruct (Z.eq_dec (numChannels g) 2%Z) as [Htwo | Hnot].
  - rewrite (exportWAV_pair g inputs type _ Hholds Htwo).
    unfold downsampleBuffer. cbn [snd export_rate]. rewrite Hne, Hgt.
    reflexivity.
  - destruct (Z.le_gt_cases 1%Z (numChannels g)) as [Hfirst | Hnone].
    + rewrite (exportWAV_single g inputs type _ Hholds Hfirst Hnot).
      unfold downsampleBuffer. cbn [snd export_rate]. rewrite Hne, Hgt.
      reflexivity.
    + unfold exportWAV.
      replace (Z.to_nat (numChannels g)) with 0 by lia.
      destruct (Z.eqb_spec (numChannels g) 2) as [| _]; [contradiction |].
      cbn [seq merge_channels bind lookup list_lookup]. rewrite Hne, Hgt.
      reflexivity.
Qed.

Lemma exportWAV_above_rate_posts_nothing_witness :
  onmessage (exportWAV_message "audio/wav" (Some 96000%Q)) mono_take
  = Some (mono_take, Throw (Error upsampling)).
Proof.
  apply (exportWAV_above_rate_posts_nothing mono_take take_inputs).
  - exact mono_take_holds.
  - reflexivity.
Defined.

End ExportFacts.

(* ===================================================================== *)
(** * Properties of the resampler *)
(* ===================================================================== *)

Module ResampleFacts.
Import JS Worker Wav.

(** A rounded number between two integers of the machine. *)
Lemma double_between (q : Q) (a b : Z) :
  (Z.abs a < 2 ^ 53)%Z -> (Z.abs b < 2 ^ 53)%Z ->
  (inject_Z a <= q <= inject_Z b)%Q ->
  exists v, double q = Num v /\ (inject_Z a <= v <= inject_Z b)%Q.
Proof.
  intros Ha Hb [Hlow Hhigh].
  pose proof (RoundingFacts.double_monotone _ _ Hlow) as Hmono1.
  pose proof (RoundingFacts.double_monotone _ _ Hhigh) as Hmono2.
  rewrite RoundingFacts.double_integer in Hmono1, Hmono2 by assumption.
  destruct (double q) as [v | | |]; cbn [leq] in Hmono1, Hmono2; try tauto.
  by exists v.
Qed.

Lemma fround_between (q : Q) (a b : Z) :
  (Z.abs a < 2 ^ 24)%Z -> (Z.abs b < 2 ^ 24)%Z ->
  (inject_Z a <= q <= inject_Z b)%Q ->
  exists v, fround q = Num v /\ (inject_Z a <= v <= inject_Z b)%Q.
Proof.
  intros Ha Hb [Hlow Hhigh].
  pose proof (RoundingFacts.fround_monotone _ _ Hlow) as Hmono1.
  pose proof (RoundingFacts.fround_monotone _ _ Hhigh) as Hmono2.
  rewrite RoundingFacts.fround_integer in Hmono1, Hmono2 by assumption.
  destruct (fround q) as [v | | |]; cbn [leq] in Hmono1, Hmono2; try tauto.
  by exists v.
Qed.

(** The inner loop on samples between -1 and 1: the rounded sum stays
    between the count and its opposite, and a block that is not empty
    counts at least one sample. *)
Lemma sum_block_between (buffer : Float32Array) (nextOffsetBuffer : number)
    (i : Z) (accum : number) (count : Z) :
  Forall (between (-1) 1) buffer ->
  (0 <= i)%Z -> (0 <= count)%Z ->
  (count + Z.max 0 (Z.of_nat (length buffer) - i) < 2 ^ 53)%Z ->
  forall acc,
    accum = Num acc ->
    (- inject_Z count <= acc <= inject_Z count)%Q ->
    exists acc' count',
      sum_block buffer nextOffsetBuffer i accum count = (Num acc', count') /\
      (count <= count')%Z /\
      (- inject_Z count' <= acc' <= inject_Z count')%Q /\
      (lt (int i) nextOffsetBuffer = true ->
       (i < Z.of_nat (length buffer))%Z -> (count < count')%Z).
Proof.
  intros Hbuffer.
  funelim (sum_block buffer nextOffsetBuffer i accum count);
    intros Hi Hcount Hbound acc0 -> Hacc.
  - pose proof a as [_ Hinside].
    unfold element in *. destruct (Z.ltb_spec i 0) as [| _]; [lia |].
    destruct (lookup_lt_is_Some_2 buffer (Z.to_nat i)) as [x Hx]; [lia |].
    rewrite Hx in *. cbn [ToNumber] in *.
    pose proof (proj1 (Forall_lookup _ _) Hbuffer _ _ Hx) as Hbetween.
    destruct x as [q | | |]; try contradiction. cbn [between] in Hbetween.
    unfold add64 in *. cbn [add rounded] in *.
    destruct (double_between (acc0 + q) (- (count + 1)) (count + 1))
      as (acc1 & Hsum & Hacc1); [lia | lia | |].
    { rewrite inject_Z_opp, inject_Z_plus. change (inject_Z 1) with 1%Q. lra. }
    rewrite Hsum in *.
    destruct (H Hbuffer ltac:(lia) ltac:(lia) ltac:(lia) acc1 eq_refl)
      as (acc' & count' & Hrun & Hgrows & Hacc' & _).
    { rewrite inject_Z_opp in Hacc1. exact Hacc1. }
    exists acc', count'. split; [exact Hrun |].
    split; [lia |]. split; [exact Hacc' |]. intros _ _. lia.
  - exists acc0, count. split; [reflexivity |].
    split; [lia |]. split; [exact Hacc |].
    intros Hbelow Hinside. exfalso. apply n. by split.
Qed.

(** The average of a block of samples between -1 and 1 that is not empty,
    as it is stored. *)
Lemma average_block_between (buffer : Float32Array) (z : Z)
    (nextOffsetBuffer : number) :
  Forall (between (-1) 1) buffer ->
  (Z.of_nat (length buffer) < 2 ^ 53)%Z ->
  (0 <= z)%Z ->
  lt (int z) nextOffsetBuffer = true ->
  lt (int z) (int (Z.of_nat (length buffer))) = true ->
  between (-1) 1
    (rounded fround (average_block buffer (int z) nextOffsetBuffer)).
Proof.
  intros Hbuffer Hlength Hz Hnext Hinside.
  apply EncodeFacts.lt_Num in Hinside. rewrite <- Zlt_Qlt in Hinside.
  unfold average_block, int at 1. rewrite EncodeFacts.trunc_int.
  destruct (sum_block_between buffer nextOffsetBuffer z (int 0) 0 Hbuffer Hz
              ltac:(lia) ltac:(lia) (inject_Z 0) eq_refl)
    as (acc & count & -> & _ & Hacc & Hcount).
  { change (inject_Z 0) with 0%Q. lra. }
  specialize (Hcount Hnext Hinside).
  assert (Hcount' : (0 < inject_Z count)%Q)
    by (rewrite <- (Zlt_Qlt 0); lia).
  unfold div64, int. cbn [div].
  rewrite (DownsampleFacts.sign_positive _ Hcount'). cbn [rounded].
  assert (Hmean : (inject_Z (-1) <= acc / inject_Z count <= inject_Z 1)%Q).
  { change (inject_Z (-1)) with (-1)%Q. change (inject_Z 1) with 1%Q. split.
    - apply Qle_shift_div_l; [exact Hcount' |]. lra.
    - apply Qle_shift_div_r; [exact Hcount' |]. lra. }
  destruct (double_between _ (-1) 1 ltac:(lia) ltac:(lia) Hmean)
    as (mean & -> & Hmean').
  cbn [rounded].
  destruct (fround_between _ (-1) 1 ltac:(lia) ltac:(lia) Hmean')
    as (stored & -> & Hstored).
  exact Hstored.
Qed.

(** X8.  For a rate that is positive and below the sample rate, and
    samples that all lie between -1 and 1, [downsampleBuffer] returns no
    more samples than it was given, and each of them lies between -1 and 1
    again, rounded as the sums, the average and the stored number are, or is
    NaN; and it is NaN only where the block of its index is empty. *)
Theorem downsampleBuffer_stays_in_range (buffer : Float32Array) (rate : Q)
    (g : globals) :
  (0 < rate)%Q -> (rate < sampleRate g)%Q ->
  (Z.of_nat (length buffer) < 2 ^ 53)%Z ->
  Forall (between (-1) 1) buffer ->
  exists result,
    downsampleBuffer buffer rate g = (g, Normal result) /\
    length result <= length buffer /\
    forall i x, result !! i = Some x ->
      between (-1) 1 x
      \/ x = NaN /\
         exists ratio,
           div64 (Num (sampleRate g)) (Num rate) = Num ratio /\
           (lt (boundary ratio (Z.of_nat i)) (boundary ratio (Z.of_nat i + 1))
            = false
            \/ lt (boundary ratio (Z.of_nat i))
                 (int (Z.of_nat (length buffer))) = false).
Proof.
  intros Hpos Hlt Hlength Hbuffer.
  assert (Hne : ~ (rate == sampleRate g)%Q)
    by (intros Heq; rewrite Heq in Hlt; apply (Qlt_irrefl _ Hlt)).
  destruct (DownsampleFacts.ratio_rounded _ _ Hpos Hlt)
    as [Hinfinite | (ratio & Hratio & Hone)].
  - destruct (DownsampleFacts.infinite_ratio_no_turn buffer rate g)
      as (_ & _ & Hrun);
      [intros ratio; rewrite Hinfinite; discriminate | lra | exact Hne |].
    exists []. split; [exact Hrun |]. split; [cbn; lia |].
    intros i x Hx. discriminate.
  - destruct (DownsampleFacts.newLength_rounded (Z.of_nat (length buffer)) ratio)
      as (n & Hn & Hround); [lia | exact Hone |].
    pose proof (DownsampleFacts.downsampleBuffer_loop buffer rate g ratio n Hne
                  ltac:(lra) Hratio Hround ltac:(lia)) as Hrun.
    destruct (DownsampleFacts.downsample_loop_elements buffer ratio (Z.to_nat n))
      as (Hlen & Helements).
    cbn zeta in Hlen, Helements.
    eexists. split; [exact Hrun |]. rewrite Hlen.
    split; [lia |].
    intros i x Hx.
    assert (Hi : i < Z.to_nat n)
      by (rewrite <- Hlen; by eapply lookup_lt_Some).
    rewrite (Helements i Hi) in Hx. injection Hx as <-.
    destruct (DownsampleFacts.boundary_not_negative ratio (Z.of_nat i))
      as [Hbeyond | (z & Hz & Hoffset)]; [lra | lia | |].
    + right. rewrite Hbeyond. split; [reflexivity |].
      exists ratio. split; [exact Hratio |]. left. rewrite Hbeyond.
      by destruct (boundary ratio (Z.of_nat i + 1)).
    + rewrite Hoffset.
      destruct (lt (int z) (boundary ratio (Z.of_nat i + 1))) eqn:Hnext;
        [destruct (lt (int z) (int (Z.of_nat (length buffer)))) eqn:Hinside |].
      * left. by apply average_block_between.
      * right. rewrite DownsampleFacts.average_block_empty by (by right).
        split; [reflexivity |]. exists ratio. split; [exact Hratio |].
        right. by rewrite Hoffset.
      * right. rewrite DownsampleFacts.average_block_empty by (by left).
        split; [reflexivity |]. exists ratio. split; [exact Hratio |].
        left. by rewrite Hoffset.
Qed.

Lemma downsampleBuffer_stays_in_range_witness :
  exists result,
    downsampleBuffer [int 1; Num (1 # 2); int (-1); int 0; int 1] 24000
      System.mono_take
    = (System.mono_take, Normal result) /\
    length result <= length [int 1; Num (1 # 2); int (-1); int 0; int 1] /\
    forall i x, result !! i = Some x ->
      between (-1) 1 x
      \/ x = NaN /\
         exists ratio,
           div64 (Num (sampleRate System.mono_take)) (Num 24000) = Num ratio /\
           (lt (boundary ratio (Z.of_nat i)) (boundary ratio (Z.of_nat i + 1))
            = false
            \/ lt (boundary ratio (Z.of_nat i))
                 (int (Z.of_nat
                         (length [int 1; Num (1 # 2); int (-1); int 0; int 1])))
               = false).
Proof.
  apply (downsampleBuffer_stays_in_range
           [int 1; Num (1 # 2); int (-1); int 0; int 1] 24000
           System.mono_take).
  - reflexivity.
  - reflexivity.
  - cbn. lia.
  - repeat constructor; cbn; unfold Qle; cbn; lia.
Defined.

(** X9.  A rate of 0 under a positive sample rate is not refused: the
    ratio is infinite, the new length is 0, and [downsampleBuffer] returns
    an empty array whatever the buffer holds. *)
Theorem downsampleBuffer_rate_zero (buffer : Float32Array) (rate : Q) (g : globals) :
  (rate == 0)%Q -> (0 < sampleRate g)%Q ->
  downsampleBuffer buffer rate g = (g, Normal []).
Proof.
  intros Hzero Hpos. unfold downsampleBuffer. f_equal.
  rewrite DownsampleFacts.Qeq_bool_false by (rewrite Hzero; lra).
  rewrite DownsampleFacts.Qle_bool_true by (rewrite Hzero; lra).
  unfold div64, int. cbn [negb div].
  rewrite (DownsampleFacts.sign_of_zero rate Hzero),
    (DownsampleFacts.sign_positive _ Hpos).
  cbn [rounded div]. reflexivity.
Qed.

Lemma downsampleBuffer_rate_zero_witness :
  downsampleBuffer [int 1; int 2; int 3] 0 System.mono_take
  = (System.mono_take, Normal []).
Proof.
  apply (downsampleBuffer_rate_zero [int 1; int 2; int 3] 0 System.mono_take);
    reflexivity.
Defined.

(** X10.  A negative rate under a positive sample rate passes the guard
    against upsampling and never yields a sample: the new length, as it is
    rounded, is nothing that [new Float32Array] takes for more than 0, and
    [downsampleBuffer] returns an empty array, or throws the [RangeError]
    of a length that is refused. *)
Theorem downsampleBuffer_negative_rate (buffer : Float32Array) (rate : Q)
    (g : globals) :
  (rate < 0)%Q -> (0 < sampleRate g)%Q ->
  let newLength :=
    Math_round (div64 (int (Z.of_nat (length buffer)))
                  (div64 (Num (sampleRate g)) (Num rate))) in
  downsampleBuffer buffer rate g
  = (g, let* _ := Float32Array_of_length newLength in Normal []) /\
  (snd (downsampleBuffer buffer rate g) = Normal []
   \/ snd (downsampleBuffer buffer rate g) = Throw RangeError).
Proof.
  intros Hneg Hpos. cbv zeta.
  assert (Hrun : downsampleBuffer buffer rate g
                 = (g, let* _ := Float32Array_of_length
                                   (Math_round
                                      (div64 (int (Z.of_nat (length buffer)))
                                         (div64 (Num (sampleRate g)) (Num rate))))
                       in Normal [])).
  { unfold downsampleBuffer. f_equal.
    rewrite DownsampleFacts.Qeq_bool_false by lra.
    rewrite DownsampleFacts.Qle_bool_true by lra. cbn [negb]. cbv zeta.
    assert (Hquot : (sampleRate g / rate <= 0)%Q).
    { unfold Qdiv.
      assert (Hinv : (/ rate < 0)%Q).
      { assert (H : (0 < / - rate)%Q) by (apply Qinv_lt_0_compat; lra).
        assert (Heq : (/ - rate == - / rate)%Q) by (field; lra).
        rewrite Heq in H. lra. }
      nra. }
    pose proof (RoundingFacts.double_monotone _ _ Hquot) as Hmono.
    change 0%Q with (inject_Z 0) in Hmono.
    rewrite RoundingFacts.double_integer in Hmono by (cbn; lia).
    assert (Hratio : div64 (Num (sampleRate g)) (Num rate)
                     = double (sampleRate g / rate)).
    { unfold div64. cbn [div].
      by rewrite (DownsampleFacts.sign_of_negative rate Hneg). }
    rewrite Hratio.
    destruct (double (sampleRate g / rate)) as [ratio | | |];
      cbn [leq] in Hmono; try tauto; try reflexivity.
    change (inject_Z 0) with 0%Q in Hmono.
    destruct (Float32Array_of_length
                (Math_round (div64 (int (Z.of_nat (length buffer))) (Num ratio))))
      as [result | e] eqn:Hresult; [| reflexivity].
    cbn [bind].
    destruct result as [| x result].
    - rewrite downsample_loop_equation_1. reflexivity.
    - exfalso.
      destruct (DownsampleFacts.loop_offsets_not_negative
                  (Z.of_nat (length buffer)) ratio (x :: result))
        as [Hpositive _]; [lia | exact Hresult | cbn; lia |].
      lra. }
  split; [exact Hrun |].
  rewrite Hrun. cbn [snd].
  destruct (Math_round _) as [q | | |]; cbn [Float32Array_of_length bind];
    try (by left); try (by right).
  destruct (trunc q <? 0)%Z; [by right | by left].
Qed.

Lemma downsampleBuffer_negative_rate_witness :
  downsampleBuffer [int 1; int 2; int 3] (-48000) System.mono_take
  = (System.mono_take,
     let* _ := Float32Array_of_length
                 (Math_round
                    (div64 (int (Z.of_nat (length [int 1; int 2; int 3])))
                       (div64 (Num (sampleRate System.mono_take))
                          (Num (-48000))))) in
     Normal []) /\
  (snd (downsampleBuffer [int 1; int 2; int 3] (-48000) System.mono_take)
   = Normal []
   \/ snd (downsampleBuffer [int 1; int 2; int 3] (-48000) System.mono_take)
      = Throw RangeError).
Proof.
  apply (downsampleBuffer_negative_rate [int 1; int 2; int 3] (-48000)
           System.mono_take); reflexivity.
Defined.

(** Eleven samples at 48000 Hz and a rate of -2181.818181818182: the ratio
    is -22, the quotient -0.5 rounds to 0, and the result is empty; with
    three samples and a rate of -48000 the quotient is -3, and the length is
    refused. *)
Example downsampleBuffer_negative_rates :
  snd (downsampleBuffer (replicate 11 (int 0))
         (-1199467230301091 # 549755813888) System.mono_take) = Normal [] /\
  snd (downsampleBuffer [int 1; int 2; int 3] (-48000) System.mono_take)
  = Throw RangeError.
Proof. split; vm_compute; reflexivity. Qed.

End ResampleFacts.

(* ===================================================================== *)
(** * Properties of the sample conversion *)
(* ===================================================================== *)

Module SampleFacts.
Import JS Worker Wav.

Lemma clamp_monotone (a b : Q) : (a <= b)%Q -> (clamp a <= clamp b)%Q.
Proof.
  intros Hab. unfold clamp.
  destruct (Qlt_le_dec a (-1)), (Qlt_le_dec b (-1)),
    (Qlt_le_dec 1 a), (Qlt_le_dec 1 b); lra.
Qed.

(** The 16-bit integer of a sample grows with the sample. *)
Lemma sample16_monotone (x y : number) :
  lt x y = true -> (sample16 x <= sample16 y)%Z.
Proof.
  intros Hlt.
  pose proof (EncodeFacts.sample16_range x) as Hx.
  pose proof (EncodeFacts.sample16_range y) as Hy.
  destruct x as [a | | |], y as [b | | |]; try discriminate;
    cbn [sample16] in *; try lia.
  apply EncodeFacts.lt_Num in Hlt.
  pose proof (clamp_monotone a b ltac:(lra)) as Hclamp.
  cbv zeta.
  destruct (Qlt_le_dec (clamp a) 0) as [Ha | Ha],
           (Qlt_le_dec (clamp b) 0) as [Hb | Hb].
  - apply Qceiling_resp_le. lra.
  - apply Z.le_trans with 0%Z.
    + apply Z.le_trans with (Qceiling (inject_Z 0));
        [| rewrite Qceiling_Z; lia].
      apply Qceiling_resp_le. unfold inject_Z. lra.
    + apply Z.le_trans with (Qfloor (inject_Z 0));
        [rewrite Qfloor_Z; lia |].
      apply Qfloor_resp_le. unfold inject_Z. lra.
  - lra.
  - apply Qfloor_resp_le. lra.
Qed.

(** X11.  The encoding keeps the order of the samples: of two samples of
    an encoded buffer, the one that is smaller as a number (an infinity
    included) is never written as the larger 16-bit integer, in range or
    out of it; nothing wraps around. *)
Theorem encodeWAV_keeps_order (samples : Float32Array) (rate : Q) (g : globals)
    (i j : nat) (x y : number) :
  samples !! i = Some x ->
  samples !! j = Some y ->
  lt x y = true ->
  exists view vx vy,
    encodeWAV samples rate g = (g, Normal view) /\
    getInt16 view (44 + 2 * i) = Normal vx /\
    getInt16 view (44 + 2 * j) = Normal vy /\
    (vx <= vy)%Z.
Proof.
  intros Hx Hy Hlt.
  exists (header_bytes (length samples) rate (numChannels g) ++ pcm_bytes samples),
    (sample16 x), (sample16 y).
  split; [apply EncodeFacts.encodeWAV_bytes |].
  split; [by apply ExportFacts.read_sample |].
  split; [by apply ExportFacts.read_sample |].
  by apply sample16_monotone.
Qed.

Lemma encodeWAV_keeps_order_witness :
  exists view vx vy,
    encodeWAV [int 2; Num (1 # 2); NegInfinity] 48000 System.mono_take
    = (System.mono_take, Normal view) /\
    getInt16 view (44 + 2 * 1) = Normal vx /\
    getInt16 view (44 + 2 * 0) = Normal vy /\
    (vx <= vy)%Z.
Proof.
  apply (encodeWAV_keeps_order [int 2; Num (1 # 2); NegInfinity] 48000
           System.mono_take 1 0 (Num (1 # 2)) (int 2)); reflexivity.
Defined.

End SampleFacts.

(* ===================================================================== *)
(** * Properties of a session over its whole history *)
(* ===================================================================== *)

Module SessionFacts.
Import JS Rec Session System.

Lemma data_events_dispatchEvent (type : string) (r : Recorder) :
  data_events (dispatchEvent type r)
  = data_events r + if String.eqb "data" type then 1 else 0.
Proof.
  unfold data_events. cbn [dispatched dispatchEvent].
  rewrite List.filter_app, length_app. cbn [List.filter].
  destruct (String.eqb "data" type); reflexivity.
Qed.

Lemma data_events_call_worker (c : worker_call) (r : Recorder) :
  data_events (call_worker c r) = data_events r.
Proof. reflexivity. Qed.

Lemma data_events_set_recording (b : bool) (r : Recorder) :
  data_events (set_recording b r) = data_events r.
Proof. reflexivity. Qed.

Lemma data_events_set_ready (b : bool) (r : Recorder) :
  data_events (set_ready b r) = data_events r.
Proof. reflexivity. Qed.

Lemma data_events_set_quietTime (t : Q) (r : Recorder) :
  data_events (set_quietTime t r) = data_events r.
Proof. reflexivity. Qed.

Lemma data_events_set_maxVolume (v : number) (r : Recorder) :
  data_events (set_maxVolume v r) = data_events r.
Proof. reflexivity. Qed.

Lemma data_events_set_analyser (node : bool) (a : Float32Array) (r : Recorder) :
  data_events (set_analyser node a r) = data_events r.
Proof. reflexivity. Qed.

Ltac session_fields :=
  cbn [options ready recording worker quietTime analyserNode
       set_recording set_ready set_quietTime set_maxVolume set_analyser
       call_worker dispatchEvent].

Ltac count_events :=
  repeat first
    [ rewrite data_events_dispatchEvent
    | rewrite data_events_call_worker
    | rewrite data_events_set_recording
    | rewrite data_events_set_ready
    | rewrite data_events_set_quietTime
    | rewrite data_events_set_maxVolume
    | rewrite data_events_set_analyser ];
  unfold configured in *; session_fields;
  rewrite ?RecorderFacts.configurations_app;
  cbn [length configurations omap list_omap String.eqb Ascii.eqb
       Bool.eqb app command data];
  rewrite ?length_app; cbn [length].

(** What an action leaves of a session: it returns, the options stay, the
    setup stays done, and a [data] event is dispatched for the reply to an
    export and for nothing else. *)
Lemma perform_step (a : action) (r : Recorder) :
  exists r',
    perform a r = Normal r' /\
    options r' = options r /\
    (configured r -> configured r') /\
    data_events r' = data_events r + (if is_export_reply a then 1 else 0).
Proof.
  destruct a as [context | | | | | command | context ev];
    cbn [perform is_export_reply].
  - unfold start, setup. destruct (ready r) eqn:Hready; cbn [negb bind];
      (eexists; split; [reflexivity |]); count_events;
      rewrite ?Hready; repeat split; lia.
  - unfold stop, exportWAV. eexists. split; [reflexivity |].
    count_events. repeat split; lia.
  - unfold reset. eexists. split; [reflexivity |].
    count_events. repeat split; lia.
  - unfold abort, kill. eexists. split; [reflexivity |].
    count_events. repeat split; lia.
  - unfold getBuffer. eexists. split; [reflexivity |].
    count_events. repeat split; lia.
  - unfold onWorkerMessage, kill.
    destruct (String.eqb command "exportWAV");
      (eexists; split; [reflexivity |]); count_events; repeat split; lia.
  - unfold onAudioProcess, isQuiet, stop, exportWAV.
    destruct (recording r); cbn [negb];
      [| eexists; split; [reflexivity |]; repeat split; [tauto | lia]].
    destruct (analyserNode _); session_fields;
      destruct (gt _ _); destruct (lt _ _);
      cbn [andb negb bind];
      (eexists; split; [reflexivity |]); count_events; repeat split; lia.
Qed.

Lemma run_step (actions : list action) :
  forall r,
    exists r',
      run actions r = Normal r' /\
      options r' = options r /\
      (configured r -> configured r') /\
      data_events r'
      = data_events r + length (List.filter is_export_reply actions).
Proof.
  induction actions as [| a actions IH]; intros r.
  - exists r. cbn. repeat split; [tauto | lia].
  - destruct (perform_step a r) as (r1 & Hperform & Hoptions & Hconfigured & Hdata).
    destruct (IH r1) as (r' & Hrun & Hoptions' & Hconfigured' & Hdata').
    exists r'. cbn [run List.filter]. rewrite Hperform. cbn [bind].
    split; [exact Hrun |].
    split; [congruence |].
    split; [tauto |].
    rewrite Hdata', Hdata. destruct (is_export_reply a); cbn [length]; lia.
Qed.

(** X12.  Through every history of a session the worker is sent its
    configuration exactly once, by the first [start]: the log of the worker
    holds one [init] when the session is ready and none before, and no
    later [start], [reset] or [abort] sends another. *)
Theorem setup_runs_once (stream : nat) (options : IOptionsMaybe.t)
    (actions : list action) :
  exists r,
    run actions (constructor stream options) = Normal r /\
    length (configurations (worker r)) = if ready r then 1 else 0.
Proof.
  destruct (run_step actions (constructor stream options))
    as (r & Hrun & _ & Hconfigured & _).
  exists r. split; [exact Hrun |]. by apply Hconfigured.
Qed.

(** X13.  Through every history of a session, the [data] events it has
    dispatched are as many as the [exportWAV] replies it has received from
    its worker: [stop], [abort] and the silence monitor dispatch none by
    themselves, and each reply gives exactly one. *)
Theorem data_only_on_reply (stream : nat) (options : IOptionsMaybe.t)
    (actions : list action) :
  exists r,
    run actions (constructor stream options) = Normal r /\
    data_events r = length (List.filter is_export_reply actions).
Proof.
  destruct (run_step actions (constructor stream options))
    as (r & Hrun & _ & _ & Hdata).
  exists r. split; [exact Hrun |]. exact Hdata.
Qed.

(** X14.  The thresholds of a session are fixed by the constructor and
    never 0: an option of 0 is replaced by the default (5 seconds, -60 dB)
    as a missing one is, any other value is taken as given, and no action
    changes the options. *)
Theorem thresholds_never_zero (stream : nat) (options : IOptionsMaybe.t)
    (actions : list action) :
  exists r,
    run actions (constructor stream options) = Normal r /\
    Rec.options r = Rec.options (constructor stream options) /\
    ~ (IOptions.quietThresholdTime (Rec.options r) == 0)%Q /\
    ~ (IOptions.volumeThreshold (Rec.options r) == 0)%Q /\
    (forall q, IOptionsMaybe.quietThresholdTime options = Some q ->
       IOptions.quietThresholdTime (Rec.options r)
       = if Qeq_bool q 0 then 5%Q else q) /\
    (forall q, IOptionsMaybe.volumeThreshold options = Some q ->
       IOptions.volumeThreshold (Rec.options r)
       = if Qeq_bool q 0 then (-60)%Q else q).
Proof.
  destruct (run_step actions (constructor stream options))
    as (r & Hrun & Hoptions & _ & _).
  exists r. split; [exact Hrun |]. split; [exact Hoptions |].
  rewrite Hoptions. cbn [constructor Rec.options IOptions.quietThresholdTime
                           IOptions.volumeThreshold].
  assert (Hor : forall a b, ~ (b == 0)%Q -> ~ (or_number a b == 0)%Q).
  { intros [q |] b Hb; cbn [or_number]; [| exact Hb].
    destruct (Qeq_bool q 0) eqn:Hq; [exact Hb |].
    intros Hzero. apply Qeq_bool_neq in Hq. contradiction. }
  split; [apply Hor; discriminate |].
  split; [apply Hor; discriminate |].
  split; intros q ->; reflexivity.
Qed.


(** X15.  [start] on a session that is ready does not reset the quiet
    timestamp, which only the setup and a loud block set: when the time
    elapsed since then, as the session computes it (the difference of the
    clock and the timestamp, rounded), is already above the quiet
    threshold, the first quiet block after the new [start] stops the
    recording at once and requests the export. *)
Theorem restart_keeps_quiet_timer (context context' : AudioContext)
    (ev : AudioProcessingEvent) (r : Recorder) :
  ready r = true -> analyserNode r = true ->
  lt (peak ev) (Num (IOptions.volumeThreshold (options r))) = true ->
  gt (elapsed r context') (Num (IOptions.quietThresholdTime (options r)))
  = true ->
  exists r1 r',
    start context r = Normal r1 /\
    recording r1 = true /\ quietTime r1 = quietTime r /\
    onAudioProcess context' ev r1 = Normal r' /\
    recording r' = false /\ exports r' = S (exports r).
Proof.
  intros Hready Hanalyser Hquiet Hlate.
  unfold start. rewrite Hready. cbn [negb bind].
  set (r1 := set_recording true (dispatchEvent "start" r)).
  destruct (RecorderFacts.onAudioProcess_recording context' ev r1 eq_refl Hanalyser)
    as (r' & Hrun & _ & _ & Hrecording & Hexports & _).
  assert (Hoverdue : overdue r1 context' = true) by exact Hlate.
  assert (Hmic : isMicQuiet r1 ev = true) by exact Hquiet.
  rewrite Hoverdue, Hmic in Hrecording, Hexports.
  exists r1, r'. repeat split; try assumption.
Qed.

Lemma restart_keeps_quiet_timer_witness :
  exists r1 r',
    start (at_time 60) recording_session = Normal r1 /\
    recording r1 = true /\ quietTime r1 = quietTime recording_session /\
    onAudioProcess (at_time 61) silence r1 = Normal r' /\
    recording r' = false /\ exports r' = S (exports recording_session).
Proof.
  apply (restart_keeps_quiet_timer (at_time 60) (at_time 61) silence
           recording_session); reflexivity.
Defined.


(** An action only adds to the log of the worker. *)
Lemma perform_appends (a : action) (r : Recorder) :
  exists r' calls,
    perform a r = Normal r' /\ worker r' = worker r ++ calls.
Proof.
  destruct a as [context | | | | | command | context ev]; cbn [perform].
  - unfold start, setup. destruct (ready r); cbn [negb bind];
      eexists; eexists; (split; [reflexivity |]); session_fields;
      first [reflexivity | symmetry; apply app_nil_r].
  - unfold stop, exportWAV. eexists. eexists. split; reflexivity.
  - unfold reset. eexists. eexists. split; reflexivity.
  - unfold abort, kill. eexists. eexists. split; reflexivity.
  - unfold getBuffer. eexists. eexists. split; reflexivity.
  - unfold onWorkerMessage, kill.
    destruct (String.eqb command "exportWAV");
      eexists; eexists; (split; [reflexivity |]); session_fields;
      first [reflexivity | symmetry; apply app_nil_r].
  - unfold onAudioProcess, isQuiet, stop, exportWAV.
    destruct (recording r); cbn [negb];
      [| exists r, []; split; [reflexivity | symmetry; apply app_nil_r]].
    destruct (analyserNode _); session_fields;
      destruct (gt _ _); destruct (lt _ _);
      cbn [andb negb bind];
      eexists; eexists; (split; [reflexivity |]); session_fields;
      rewrite <- ?app_assoc; reflexivity.
Qed.

Lemma received_terminated (calls calls' : list worker_call) :
  terminate ∈ calls -> received (calls ++ calls') = received calls.
Proof.
  induction calls as [| [m |] calls IH]; intros Hin.
  - by apply elem_of_nil in Hin.
  - apply elem_of_cons in Hin as [Hhead | Htail]; [discriminate |].
    cbn [app received]. by rewrite IH.
  - reflexivity.
Qed.

(** X16.  The worker of a session is never replaced: once the session has
    terminated it (on [abort], or on the reply to an export), whatever is
    done with the session afterwards returns, and none of the messages it
    posts reaches the worker.  A session records one take. *)
Theorem terminated_worker_gets_nothing (actions : list action) :
  forall r,
    terminate ∈ worker r ->
    exists r',
      run actions r = Normal r' /\
      terminate ∈ worker r' /\
      received (worker r') = received (worker r).
Proof.
  induction actions as [| a actions IH]; intros r Hterminated.
  - exists r. by repeat split.
  - destruct (perform_appends a r) as (r1 & calls & Hperform & Hworker).
    destruct (IH r1) as (r' & Hrun & Hterminated' & Hreceived).
    { rewrite Hworker. apply elem_of_app. by left. }
    exists r'. cbn [run]. rewrite Hperform. cbn [bind].
    split; [exact Hrun |]. split; [exact Hterminated' |].
    rewrite Hreceived, Hworker. by apply received_terminated.
Qed.

Lemma terminated_worker_gets_nothing_witness :
  exists r',
    run [do_start (at_time 9); on_audioprocess (at_time 10) loud; do_stop]
        (call_worker terminate recording_session)
    = Normal r' /\
    terminate ∈ worker r' /\
    received (worker r')
    = received (worker (call_worker terminate recording_session)).
Proof.
  apply (terminated_worker_gets_nothing
           [do_start (at_time 9); on_audioprocess (at_time 10) loud; do_stop]
           (call_worker terminate recording_session)).
  apply elem_of_cons. by left.
Defined.

End SessionFacts.

(* ===================================================================== *)
(** * Properties of a recording, from the session to the file *)
(* ===================================================================== *)

Module SystemFacts.
Import JS Rec Session System.

(** One block while recording: its [record] message is posted, and after it
    the export request when the block stops the recording. *)
Lemma onAudioProcess_log (context : AudioContext) (ev : AudioProcessingEvent)
    (r : Recorder) :
  recording r = true ->
  exists r',
    onAudioProcess context ev r = Normal r' /\
    options r' = options r /\
    worker r'
    = worker r
      ++ postMessage (record_message (inputBuffer_of ev))
         :: (if recording r' then []
             else [postMessage
                     (exportWAV_message "audio/wav"
                        (IOptions.sampleRate (options r)))]).
Proof.
  intros Hrecording.
  unfold onAudioProcess, isQuiet, stop, exportWAV.
  rewrite Hrecording. cbn [negb].
  destruct (analyserNode _);
    cbn [options quietTime maxVolume analyserData set_analyser set_maxVolume
         call_worker dispatchEvent];
    destruct (gt _ _); destruct (lt _ _);
    cbn [andb negb bind];
    (eexists; split; [reflexivity |]);
    cbn [options recording worker set_recording set_quietTime set_maxVolume
         set_analyser call_worker dispatchEvent];
    rewrite ?Hrecording, <- ?app_assoc; split; reflexivity.
Qed.

(** A series of blocks that leaves the session recording: each block was
    posted to the worker, and nothing else. *)
Lemma audioprocess_log (blocks : list (AudioContext * AudioProcessingEvent)) :
  forall r r',
    run (audioprocess blocks) r = Normal r' ->
    recording r' = true ->
    options r' = options r /\
    worker r'
    = worker r
      ++ map (fun o => postMessage (record_message (inputBuffer_of (snd o))))
             blocks.
Proof.
  induction blocks as [| [context ev] blocks IH]; intros r r' Hrun Hstill.
  - injection Hrun as <-. rewrite app_nil_r. split; reflexivity.
  - destruct (recording r) eqn:Hrecording.
    + destruct (onAudioProcess_log context ev r Hrecording)
        as (r1 & Hstep & Hoptions & Hworker).
      cbn [audioprocess map run perform fst snd] in Hrun.
      rewrite Hstep in Hrun. cbn [bind] in Hrun.
      destruct (recording r1) eqn:Hrecording1.
      * destruct (IH r1 r' Hrun Hstill) as (Hoptions' & Hworker').
        split; [congruence |].
        rewrite Hworker', Hworker, <- app_assoc. reflexivity.
      * change (observe blocks r1 = Normal r') in Hrun.
        rewrite (RecorderFacts.observe_idle blocks r1 Hrecording1) in Hrun.
        congruence.
    + change (observe ((context, ev) :: blocks) r = Normal r') in Hrun.
      rewrite (RecorderFacts.observe_idle _ r Hrecording) in Hrun.
      congruence.
Qed.

Lemma received_messages (messages : list message) :
  received (map postMessage messages) = messages.
Proof.
  induction messages as [| m messages IH]; [reflexivity |].
  cbn [map received]. by rewrite IH.
Qed.

Lemma recorded_first_channel (events : list AudioProcessingEvent) :
  recorded 0 (map inputBuffer_of events) = concat (map channelData0 events).
Proof.
  unfold recorded.
  induction events as [| ev events IH]; [reflexivity |].
  cbn [map omap list_omap inputBuffer_of lookup list_lookup concat].
  cbn [map omap list_omap concat] in IH. by rewrite IH.
Qed.

Lemma blocks_aligned (events : list AudioProcessingEvent) :
  Forall (aligned 1) (map inputBuffer_of events).
Proof.
  induction events as [| ev events IH]; constructor; [| exact IH].
  exists (channelData0 ev). split; [reflexivity |].
  intros [| channel] Hchannel; [| lia].
  by exists (channelData0 ev).
Qed.

(** The log of a recording from its start to the request of its export,
    delivered to a worker as its module is loaded. *)
Lemma deliver_recording (c : IConfig.t) (events : list AudioProcessingEvent)
    (type : string) (rate : option Q) (g : Worker.globals) :
  fresh g ->
  IConfig.numChannels c = 1%Z ->
  exists g',
    Worker.sampleRate g' = IConfig.sampleRate c /\
    Worker.numChannels g' = 1%Z /\
    holds g' (map inputBuffer_of events) /\
    deliver (init_message c
             :: map record_message (map inputBuffer_of events)
             ++ [exportWAV_message type rate]) g
    = Some (g', Normal [] :: replicate (length events) (Normal [])
                ++ [let* reply := snd (Worker.exportWAV type rate g') in
                    Normal [reply]]).
Proof.
  intros Hfresh Hmono.
  destruct (BufferFacts.init_holds c g Hfresh)
    as (g0 & Hinit & Hholds0 & Hchannels0 & Hrate0).
  destruct (BufferFacts.deliver_records (map inputBuffer_of events) g0 []
              Hholds0)
    as (g1 & Hrun & Hholds1 & Hchannels1 & Hrate1).
  { rewrite Hchannels0, Hmono. apply blocks_aligned. }
  exists g1. split; [congruence |]. split; [congruence |].
  split; [exact Hholds1 |].
  cbn [deliver]. unfold onmessage at 1.
  cbn [command data init_message String.eqb Ascii.eqb Bool.eqb].
  rewrite Hinit. cbn [bind].
  rewrite (BufferFacts.deliver_app _ _ _ _ _ Hrun). cbn [deliver].
  unfold onmessage.
  cbn [command data exportWAV_message String.eqb Ascii.eqb Bool.eqb].
  rewrite length_map.
  destruct (Worker.exportWAV type rate g1) as [g2 reply] eqn:Hexport.
  assert (g2 = g1) as -> by (unfold Worker.exportWAV in Hexport; congruence).
  reflexivity.
Qed.


(** The constructor always sets [mono]. *)
Lemma or_boolean_true (a : option bool) : or_boolean a true = true.
Proof. by destruct a as [[|] |]. Qed.

(** The file of a log that holds a configuration for one channel, the
    blocks of a series of events and a request for the export, when a
    worker as its module is loaded gets it: the first channel of the blocks,
    resampled and encoded. *)
Lemma log_to_wav (calls : list worker_call) (c : IConfig.t)
    (events : list AudioProcessingEvent) (rate : option Q)
    (g : Worker.globals) :
  calls
  = postMessage (init_message c)
    :: map (fun ev => postMessage (record_message (inputBuffer_of ev))) events
    ++ [postMessage (exportWAV_message "audio/wav" rate)] ->
  IConfig.numChannels c = 1%Z ->
  fresh g ->
  exists g',
    Worker.sampleRate g' = IConfig.sampleRate c /\
    deliver (received calls) g
    = Some (g', replicate (S (length events)) (Normal [])
                ++ [let* samples :=
                      snd (Worker.downsampleBuffer
                             (concat (map channelData0 events))
                             (export_rate rate g') g') in
                    Normal [Worker.posted_blob
                              (Wav.header_bytes (length samples)
                                 (export_rate rate g') 1
                               ++ flat_map (fun x => Wav.uint16_le (Wav.sample16 x))
                                    samples)
                              "audio/wav"]]).
Proof.
  intros -> Hmono Hfresh.
  destruct (deliver_recording c events "audio/wav" rate g Hfresh Hmono)
    as (g' & Hrate & Hchannels & Hholds & Hrun).
  exists g'. split; [exact Hrate |].
  replace (postMessage (init_message c)
           :: map (fun ev => postMessage (record_message (inputBuffer_of ev))) events
           ++ [postMessage (exportWAV_message "audio/wav" rate)])
    with (map postMessage
            (init_message c
             :: map record_message (map inputBuffer_of events)
             ++ [exportWAV_message "audio/wav" rate])).
  2: { cbn [map]. rewrite map_app, !map_map. reflexivity. }
  rewrite received_messages, Hrun. cbn [replicate app].
  do 3 f_equal.
  rewrite (ExportFacts.exportWAV_single g' _ "audio/wav" rate Hholds)
    by (rewrite Hchannels; lia).
  cbn [snd]. rewrite recorded_first_channel, Hchannels.
  destruct (snd (Worker.downsampleBuffer _ _ g')) as [samples | e];
    [| reflexivity].
  cbn [bind]. rewrite EncodeFacts.pcm_bytes_sample16. reflexivity.
Qed.

(** The first [start] of a session sends the configuration. *)
Lemma start_log (context : AudioContext) (r : Recorder) :
  ready r = false ->
  exists r',
    start context r = Normal r' /\
    Rec.options r' = Rec.options r /\
    ready r' = true /\
    worker r'
    = worker r
      ++ [postMessage
            (init_message
               {| IConfig.sampleRate := sampleRate context;
                  IConfig.numChannels :=
                    if IOptions.mono (Rec.options r) then 1%Z
                    else Z.of_nat (Rec.stream r) |})].
Proof.
  intros Hready. unfold start, setup. rewrite Hready. cbn [negb bind].
  eexists. split; [reflexivity |]. split; [reflexivity |]. split; reflexivity.
Qed.

Lemma run_cons (a : action) (actions : list action) (r : Recorder) :
  run (a :: actions) r = let* r := perform a r in run actions r.
Proof. reflexivity. Qed.

Lemma constructor_fields (stream : nat) (options : IOptionsMaybe.t) :
  ready (constructor stream options) = false /\
  worker (constructor stream options) = [] /\
  IOptions.mono (Rec.options (constructor stream options)) = true /\
  IOptions.sampleRate (Rec.options (constructor stream options))
  = IOptionsMaybe.sampleRate options.
Proof.
  split; [reflexivity |]. split; [reflexivity |].
  split; [apply or_boolean_true | reflexivity].
Qed.

(** The log of a session from its constructor through a first [start] and
    a series of blocks that leaves it recording. *)
Lemma recording_log (stream : nat) (options : IOptionsMaybe.t)
    (context : AudioContext)
    (blocks : list (AudioContext * AudioProcessingEvent)) (r : Recorder) :
  run (do_start context :: audioprocess blocks) (constructor stream options)
  = Normal r ->
  recording r = true ->
  IOptions.sampleRate (Rec.options r) = IOptionsMaybe.sampleRate options /\
  worker r
  = postMessage (init_message {| IConfig.sampleRate := sampleRate context;
                                 IConfig.numChannels := 1 |})
    :: map (fun ev => postMessage (record_message (inputBuffer_of ev)))
           (map snd blocks).
Proof.
  destruct (constructor_fields stream options)
    as (Hready & Hnew & Hmono & Hrate).
  revert Hready Hnew Hmono Hrate.
  generalize (constructor stream options) as r0.
  intros r0 Hready Hnew Hmono Hrate Hrun Hstill.
  destruct (start_log context r0 Hready)
    as (r1 & Hstart & Hoptions1 & _ & Hworker1).
  rewrite run_cons in Hrun. cbn [perform] in Hrun.
  rewrite Hstart in Hrun. cbn [bind] in Hrun.
  destruct (audioprocess_log blocks r1 r Hrun Hstill) as (Hoptions & Hworker).
  rewrite Hoptions, Hworker, Hoptions1, Hworker1, Hnew, Hmono, Hrate, map_map.
  split; reflexivity.
Qed.

Lemma run_app (actions actions' : list action) :
  forall r, run (actions ++ actions') r
            = let* r := run actions r in run actions' r.
Proof.
  induction actions as [| a actions IH]; intros r; [reflexivity |].
  cbn [app run]. destruct (perform a r) as [r1 | e]; [| reflexivity].
  cbn [bind]. apply IH.
Qed.

(** X17.  A whole recording.  A new session is started, gets a series of
    blocks that leaves it recording, and is stopped; a worker that holds
    nothing yet then gets every message the session has posted.  No
    message throws but possibly the export, and the one thing the worker
    posts back is a blob of type audio/wav for one channel: the first
    channel of the blocks, in order, resampled by [downsampleBuffer] from
    the rate of the audio context to the rate of the options (the rate of
    the context when the options have none) and written as 16-bit integers
    after the header.  The second channel of the blocks is dropped,
    whatever the stream. *)
Theorem recording_to_wav (stream : nat) (options : IOptionsMaybe.t)
    (context : AudioContext)
    (blocks : list (AudioContext * AudioProcessingEvent))
    (g : Worker.globals) :
  returns_recording
    (run (do_start context :: audioprocess blocks) (constructor stream options))
  = true ->
  fresh g ->
  exists r g',
    run (do_start context :: audioprocess blocks ++ [do_stop])
        (constructor stream options)
    = Normal r /\
    recording r = false /\
    Worker.sampleRate g' = sampleRate context /\
    deliver (received (worker r)) g
    = Some (g', replicate (S (length blocks)) (Normal [])
                ++ [let* samples :=
                      snd (Worker.downsampleBuffer
                             (concat (map (fun o => channelData0 (snd o)) blocks))
                             (export_rate (IOptionsMaybe.sampleRate options) g')
                             g') in
                    Normal [Worker.posted_blob
                              (Wav.header_bytes (length samples)
                                 (export_rate (IOptionsMaybe.sampleRate options) g')
                                 1
                               ++ flat_map (fun x => Wav.uint16_le (Wav.sample16 x))
                                    samples)
                              "audio/wav"]]).
Proof.
  intros Hrecording Hfresh.
  destruct (run (do_start context :: audioprocess blocks)
                (constructor stream options)) as [r0 | e] eqn:Hrun;
    [| discriminate].
  cbn [returns_recording] in Hrecording.
  destruct (recording_log stream options context blocks r0 Hrun Hrecording)
    as (Hrate & Hworker).
  destruct (log_to_wav
              (worker r0 ++ [postMessage
                               (exportWAV_message "audio/wav"
                                  (IOptionsMaybe.sampleRate options))])
              {| IConfig.sampleRate := sampleRate context;
                 IConfig.numChannels := 1 |}
              (map snd blocks) (IOptionsMaybe.sampleRate options) g)
    as (g' & Hrate' & Hdeliver); [by rewrite Hworker | reflexivity | exact Hfresh |].
  rewrite (app_comm_cons (audioprocess blocks) [do_stop] (do_start context)).
  rewrite run_app, Hrun. cbn [bind run perform].
  unfold stop, exportWAV. cbn [bind].
  eexists. exists g'. split; [reflexivity |].
  split; [reflexivity |]. split; [exact Hrate' |].
  cbn [worker call_worker set_recording Rec.options].
  rewrite Hrate. unfold exportWAV_message in Hdeliver.
  rewrite Hdeliver, length_map, map_map. reflexivity.
Qed.

Lemma recording_to_wav_witness :
  exists r g',
    run (do_start (at_time 0)
         :: audioprocess [(at_time 1, loud); (at_time 2, silence)] ++ [do_stop])
        (constructor 2 no_options)
    = Normal r /\
    recording r = false /\
    Worker.sampleRate g' = sampleRate (at_time 0) /\
    deliver (received (worker r)) idle_worker
    = Some (g', replicate (S (length [(at_time 1, loud); (at_time 2, silence)]))
                  (Normal [])
                ++ [let* samples :=
                      snd (Worker.downsampleBuffer
                             (concat (map (fun o => channelData0 (snd o))
                                          [(at_time 1, loud); (at_time 2, silence)]))
                             (export_rate (IOptionsMaybe.sampleRate no_options) g')
                             g') in
                    Normal [Worker.posted_blob
                              (Wav.header_bytes (length samples)
                                 (export_rate (IOptionsMaybe.sampleRate no_options) g')
                                 1
                               ++ flat_map (fun x => Wav.uint16_le (Wav.sample16 x))
                                    samples)
                              "audio/wav"]]).
Proof.
  apply (recording_to_wav 2 no_options (at_time 0)
           [(at_time 1, loud); (at_time 2, silence)] idle_worker).
  - vm_compute. reflexivity.
  - split; reflexivity.
Defined.

(** X18.  A recording that the silence monitor ends.  When a block stops a
    session that was started and has recorded since (the monitor deciding
    on the difference of the times as it computes it), the log the worker
    gets ends with that block and the request of the export: the file holds
    the block that ended the recording like those before it, resampled by
    [downsampleBuffer], and is the one [stop] would have given after that
    block. *)
Theorem silence_stop_to_wav (stream : nat) (options : IOptionsMaybe.t)
    (context : AudioContext)
    (blocks : list (AudioContext * AudioProcessingEvent))
    (last : AudioContext * AudioProcessingEvent)
    (g : Worker.globals) :
  returns_recording
    (run (do_start context :: audioprocess blocks) (constructor stream options))
  = true ->
  returns_recording
    (run (do_start context :: audioprocess (blocks ++ [last]))
         (constructor stream options))
  = false ->
  fresh g ->
  exists r g',
    run (do_start context :: audioprocess (blocks ++ [last]))
        (constructor stream options)
    = Normal r /\
    Worker.sampleRate g' = sampleRate context /\
    deliver (received (worker r)) g
    = Some (g', replicate (S (length (blocks ++ [last]))) (Normal [])
                ++ [let* samples :=
                      snd (Worker.downsampleBuffer
                             (concat (map (fun o => channelData0 (snd o))
                                          (blocks ++ [last])))
                             (export_rate (IOptionsMaybe.sampleRate options) g')
                             g') in
                    Normal [Worker.posted_blob
                              (Wav.header_bytes (length samples)
                                 (export_rate (IOptionsMaybe.sampleRate options) g')
                                 1
                               ++ flat_map (fun x => Wav.uint16_le (Wav.sample16 x))
                                    samples)
                              "audio/wav"]]).
Proof.
  intros Hrecording Hstopped Hfresh.
  unfold audioprocess in Hstopped |- *. rewrite map_app in Hstopped |- *.
  fold (audioprocess blocks) in Hstopped |- *.
  rewrite (app_comm_cons (audioprocess blocks) _ (do_start context))
    in Hstopped |- *.
  rewrite run_app in Hstopped |- *.
  destruct (run (do_start context :: audioprocess blocks)
                (constructor stream options)) as [r0 | e] eqn:Hrun;
    [| discriminate].
  cbn [returns_recording] in Hrecording.
  cbn [bind map run perform] in Hstopped |- *.
  destruct (recording_log stream options context blocks r0 Hrun Hrecording)
    as (Hrate & Hworker).
  destruct (onAudioProcess_log (fst last) (snd last) r0 Hrecording)
    as (r & Hstep & _ & Hlog).
  rewrite Hstep in Hstopped |- *. cbn [bind returns_recording] in Hstopped |- *.
  rewrite Hstopped, Hrate, Hworker in Hlog.
  destruct (log_to_wav (worker r)
              {| IConfig.sampleRate := sampleRate context;
                 IConfig.numChannels := 1 |}
              (map snd (blocks ++ [last])) (IOptionsMaybe.sampleRate options) g)
    as (g' & Hrate' & Hdeliver); [| reflexivity | exact Hfresh |].
  { rewrite Hlog, !map_app. cbn [map app]. rewrite <- app_assoc. reflexivity. }
  exists r, g'. split; [reflexivity |]. split; [exact Hrate' |].
  rewrite Hdeliver, length_map, map_map. reflexivity.
Qed.

Lemma silence_stop_to_wav_witness :
  exists r g',
    run (do_start (at_time 0)
         :: audioprocess ([(at_time 1, loud); (at_time 2, silence)]
                          ++ [(at_time 7, silence)]))
        (constructor 2 no_options)
    = Normal r /\
    Worker.sampleRate g' = sampleRate (at_time 0) /\
    deliver (received (worker r)) idle_worker
    = Some (g', replicate
                  (S (length ([(at_time 1, loud); (at_time 2, silence)]
                              ++ [(at_time 7, silence)])))
                  (Normal [])
                ++ [let* samples :=
                      snd (Worker.downsampleBuffer
                             (concat (map (fun o => channelData0 (snd o))
                                          ([(at_time 1, loud); (at_time 2, silence)]
                                           ++ [(at_time 7, silence)])))
                             (export_rate (IOptionsMaybe.sampleRate no_options) g')
                             g') in
                    Normal [Worker.posted_blob
                              (Wav.header_bytes (length samples)
                                 (export_rate (IOptionsMaybe.sampleRate no_options) g')
                                 1
                               ++ flat_map (fun x => Wav.uint16_le (Wav.sample16 x))
                                    samples)
                              "audio/wav"]]).
Proof.
  apply (silence_stop_to_wav 2 no_options (at_time 0)
           [(at_time 1, loud); (at_time 2, silence)] (at_time 7, silence)
           idle_worker).
  - vm_compute. reflexivity.
  - vm_compute. reflexivity.
  - split; reflexivity.
Defined.


(** A block leaves the session set up as it was. *)
Lemma onAudioProcess_ready (context : AudioContext) (ev : AudioProcessingEvent)
    (r r' : Recorder) :
  onAudioProcess context ev r = Normal r' -> ready r' = ready r.
Proof.
  unfold onAudioProcess, isQuiet, stop, exportWAV.
  destruct (recording r); cbn [negb]; [| by intros [= <-]].
  destruct (analyserNode _);
    cbn [options quietTime maxVolume analyserData set_analyser set_maxVolume
         call_worker dispatchEvent];
    destruct (gt _ _); destruct (lt _ _);
    cbn [andb negb bind]; by intros [= <-].
Qed.

Lemma audioprocess_ready (blocks : list (AudioContext * AudioProcessingEvent)) :
  forall r r', run (audioprocess blocks) r = Normal r' -> ready r' = ready r.
Proof.
  induction blocks as [| [context ev] blocks IH]; intros r r' Hrun.
  - by injection Hrun as <-.
  - cbn [audioprocess map run perform fst snd] in Hrun.
    destruct (onAudioProcess context ev r) as [r1 | e] eqn:Hstep;
      [| discriminate].
    cbn [bind] in Hrun.
    rewrite (IH r1 r' Hrun). by eapply onAudioProcess_ready.
Qed.

(** [reset], then [start] again on a session that is ready: the worker is
    sent [clear], and no second configuration. *)
Lemma reset_start_log (context : AudioContext) (r : Recorder) :
  ready r = true ->
  exists r',
    run [do_reset; do_start context] r = Normal r' /\
    Rec.options r' = Rec.options r /\
    worker r' = worker r ++ [postMessage clear_message].
Proof.
  intros Hready. cbn [run perform]. unfold reset. cbn [bind].
  unfold start. cbn [ready set_recording call_worker dispatchEvent].
  rewrite Hready. cbn [negb bind].
  eexists. split; [reflexivity |]. split; reflexivity.
Qed.

(** A worker that holds a take and is cleared, sent the blocks of a second
    take and asked for the export: the file of the second take. *)
Lemma deliver_second_take (events : list AudioProcessingEvent)
    (rate : option Q) (g : Worker.globals) :
  Worker.numChannels g = 1%Z ->
  exists g',
    Worker.sampleRate g' = Worker.sampleRate g /\
    deliver (clear_message
             :: map record_message (map inputBuffer_of events)
             ++ [exportWAV_message "audio/wav" rate]) g
    = Some (g', Normal [] :: replicate (length events) (Normal [])
                ++ [let* samples :=
                      snd (Worker.downsampleBuffer
                             (concat (map channelData0 events))
                             (export_rate rate g') g') in
                    Normal [Worker.posted_blob
                              (Wav.header_bytes (length samples)
                                 (export_rate rate g') 1
                               ++ flat_map (fun x => Wav.uint16_le (Wav.sample16 x))
                                    samples)
                              "audio/wav"]]).
Proof.
  intros Hmono.
  destruct (BufferFacts.clear_holds g)
    as (g0 & Hclear & Hholds0 & Hchannels0 & Hrate0).
  destruct (BufferFacts.deliver_records (map inputBuffer_of events) g0 []
              Hholds0)
    as (g1 & Hrun & Hholds1 & Hchannels1 & Hrate1).
  { rewrite Hchannels0, Hmono. apply blocks_aligned. }
  exists g1. split; [congruence |].
  cbn [deliver]. unfold onmessage at 1.
  cbn [command data clear_message String.eqb Ascii.eqb Bool.eqb].
  rewrite Hclear. cbn [bind].
  rewrite (BufferFacts.deliver_app _ _ _ _ _ Hrun). cbn [deliver].
  unfold onmessage.
  cbn [command data exportWAV_message String.eqb Ascii.eqb Bool.eqb].
  rewrite length_map.
  rewrite (ExportFacts.exportWAV_single g1 _ "audio/wav" rate Hholds1)
    by (rewrite Hchannels1, Hchannels0, Hmono; lia).
  cbn [app]. rewrite recorded_first_channel.
  rewrite Hchannels1, Hchannels0, Hmono.
  destruct (snd (Worker.downsampleBuffer _ _ g1)) as [samples | e];
    [| reflexivity].
  cbn [bind]. rewrite EncodeFacts.pcm_bytes_sample16. reflexivity.
Qed.

(** A worker as its module is loaded that gets a configuration for one
    channel and the blocks of a take. *)
Lemma deliver_first_take (c : IConfig.t) (events : list AudioProcessingEvent)
    (g : Worker.globals) :
  fresh g ->
  IConfig.numChannels c = 1%Z ->
  exists g',
    Worker.sampleRate g' = IConfig.sampleRate c /\
    Worker.numChannels g' = 1%Z /\
    deliver (init_message c :: map record_message (map inputBuffer_of events)) g
    = Some (g', replicate (S (length events)) (Normal [])).
Proof.
  intros Hfresh Hmono.
  destruct (BufferFacts.init_holds c g Hfresh)
    as (g0 & Hinit & Hholds0 & Hchannels0 & Hrate0).
  destruct (BufferFacts.deliver_records (map inputBuffer_of events) g0 []
              Hholds0)
    as (g1 & Hrun & Hholds1 & Hchannels1 & Hrate1).
  { rewrite Hchannels0, Hmono. apply blocks_aligned. }
  exists g1. split; [congruence |]. split; [congruence |].
  cbn [deliver]. unfold onmessage at 1.
  cbn [command data init_message String.eqb Ascii.eqb Bool.eqb].
  rewrite Hinit, Hrun, length_map. reflexivity.
Qed.

Lemma configurations_init (c : IConfig.t) (calls : list worker_call) :
  configurations (postMessage (init_message c) :: calls)
  = c :: configurations calls.
Proof. reflexivity. Qed.

Lemma configurations_records {A : Type} (f : A -> list Float32Array)
    (l : list A) :
  configurations (map (fun x => postMessage (record_message (f x))) l) = [].
Proof. induction l as [| x l IH]; [reflexivity | exact IH]. Qed.

(** X19.  [reset] discards a take.  A new session is started and gets
    blocks, is reset while it still records, started again, gets more
    blocks that leave it recording, and is stopped.  The worker is
    configured once, and the file it posts back holds the blocks that came
    after the reset, resampled by [downsampleBuffer], and none of those
    before it. *)
Theorem reset_discards_take (stream : nat) (options : IOptionsMaybe.t)
    (context context' : AudioContext)
    (blocks blocks' : list (AudioContext * AudioProcessingEvent))
    (g : Worker.globals) :
  returns_recording
    (run (do_start context :: audioprocess blocks) (constructor stream options))
  = true ->
  returns_recording
    (run ((do_start context :: audioprocess blocks)
          ++ [do_reset; do_start context'] ++ audioprocess blocks')
         (constructor stream options))
  = true ->
  fresh g ->
  exists r g',
    run ((do_start context :: audioprocess blocks)
         ++ [do_reset; do_start context'] ++ audioprocess blocks' ++ [do_stop])
        (constructor stream options)
    = Normal r /\
    length (configurations (worker r)) = 1 /\
    Worker.sampleRate g' = sampleRate context /\
    deliver (received (worker r)) g
    = Some (g', replicate (S (length blocks)) (Normal [])
                ++ Normal [] :: replicate (length blocks') (Normal [])
                ++ [let* samples :=
                      snd (Worker.downsampleBuffer
                             (concat (map (fun o => channelData0 (snd o)) blocks'))
                             (export_rate (IOptionsMaybe.sampleRate options) g')
                             g') in
                    Normal [Worker.posted_blob
                              (Wav.header_bytes (length samples)
                                 (export_rate (IOptionsMaybe.sampleRate options) g')
                                 1
                               ++ flat_map (fun x => Wav.uint16_le (Wav.sample16 x))
                                    samples)
                              "audio/wav"]]).
Proof.
  intros Hfirst Hsecond Hfresh.
  rewrite run_app in Hsecond |- *.
  destruct (run (do_start context :: audioprocess blocks)
                (constructor stream options)) as [r0 | e] eqn:Hrun0;
    [| discriminate].
  cbn [returns_recording bind] in Hfirst, Hsecond |- *.
  destruct (recording_log stream options context blocks r0 Hrun0 Hfirst)
    as (Hrate0 & Hworker0).
  assert (Hready0 : ready r0 = true).
  { rewrite run_cons in Hrun0. cbn [perform] in Hrun0.
    destruct (start_log context (constructor stream options))
      as (r_s & Hstart & _ & Hready & _);
      [by destruct (constructor_fields stream options) |].
    rewrite Hstart in Hrun0. cbn [bind] in Hrun0.
    by rewrite (audioprocess_ready blocks r_s r0 Hrun0). }
  destruct (reset_start_log context' r0 Hready0)
    as (r1 & Hrun1 & Hoptions1 & Hworker1).
  rewrite run_app in Hsecond |- *.
  rewrite Hrun1 in Hsecond |- *. cbn [bind] in Hsecond |- *.
  rewrite run_app.
  destruct (run (audioprocess blocks') r1) as [r2 | e] eqn:Hrun2;
    [| discriminate].
  cbn [returns_recording bind run perform] in Hsecond |- *.
  destruct (audioprocess_log blocks' r1 r2 Hrun2 Hsecond) as (Hoptions2 & Hworker2).
  unfold stop, exportWAV. cbn [bind].
  destruct (deliver_first_take
              {| IConfig.sampleRate := sampleRate context;
                 IConfig.numChannels := 1 |} (map snd blocks) g Hfresh eq_refl)
    as (g1 & Hrate1 & Hchannels1 & Hdeliver1).
  destruct (deliver_second_take (map snd blocks')
              (IOptionsMaybe.sampleRate options) g1 Hchannels1)
    as (g2 & Hrate2 & Hdeliver2).
  eexists. exists g2. split; [reflexivity |].
  cbn [worker call_worker set_recording Rec.options].
  rewrite Hworker2, Hworker1, Hworker0, Hoptions2, Hoptions1, Hrate0.
  split; [| split; [rewrite Hrate2, Hrate1; reflexivity |]].
  - rewrite !RecorderFacts.configurations_app, configurations_init.
    rewrite (configurations_records inputBuffer_of).
    rewrite (configurations_records (fun o => inputBuffer_of (snd o))).
    reflexivity.
  - replace ((((postMessage
                 (init_message {| IConfig.sampleRate := sampleRate context;
                                  IConfig.numChannels := 1 |})
               :: map (fun ev => postMessage (record_message (inputBuffer_of ev)))
                      (map snd blocks))
              ++ [postMessage clear_message])
             ++ map (fun o => postMessage (record_message (inputBuffer_of (snd o))))
                    blocks')
            ++ [postMessage
                  {| command := "exportWAV";
                     data := export "audio/wav" (IOptionsMaybe.sampleRate options) |}])
      with (map postMessage
              ((init_message {| IConfig.sampleRate := sampleRate context;
                                IConfig.numChannels := 1 |}
                :: map record_message (map inputBuffer_of (map snd blocks)))
               ++ clear_message
                  :: map record_message (map inputBuffer_of (map snd blocks'))
                  ++ [exportWAV_message "audio/wav"
                        (IOptionsMaybe.sampleRate options)])).
    2: { rewrite !map_app. cbn [map]. rewrite !map_app, !map_map.
         cbn [map]. rewrite <- !app_assoc. reflexivity. }
    rewrite received_messages.
    rewrite (BufferFacts.deliver_app _ _ _ _ _ Hdeliver1), Hdeliver2.
    rewrite !length_map, !map_map. reflexivity.
Qed.

Lemma reset_discards_take_witness :
  exists r g',
    run ((do_start (at_time 0) :: audioprocess [(at_time 1, silence)])
         ++ [do_reset; do_start (at_time 2)]
         ++ audioprocess [(at_time 3, loud)] ++ [do_stop])
        (constructor 2 no_options)
    = Normal r /\
    length (configurations (worker r)) = 1 /\
    Worker.sampleRate g' = sampleRate (at_time 0) /\
    deliver (received (worker r)) idle_worker
    = Some (g', replicate (S (length [(at_time 1, silence)])) (Normal [])
                ++ Normal [] :: replicate (length [(at_time 3, loud)]) (Normal [])
                ++ [let* samples :=
                      snd (Worker.downsampleBuffer
                             (concat (map (fun o => channelData0 (snd o))
                                          [(at_time 3, loud)]))
                             (export_rate (IOptionsMaybe.sampleRate no_options) g')
                             g') in
                    Normal [Worker.posted_blob
                              (Wav.header_bytes (length samples)
                                 (export_rate (IOptionsMaybe.sampleRate no_options) g')
                                 1
                               ++ flat_map (fun x => Wav.uint16_le (Wav.sample16 x))
                                    samples)
                              "audio/wav"]]).
Proof.
  apply (reset_discards_take 2 no_options (at_time 0) (at_time 2)
           [(at_time 1, silence)] [(at_time 3, loud)] idle_worker).
  - vm_compute. reflexivity.
  - vm_compute. reflexivity.
  - split; reflexivity.
Defined.

End SystemFacts.
